(** * tiger-go: the row-to-struct mapper of package [db] and the document
      manager of package [mongo]

    Package [db] (src/db/row_struct_mapper.go) is embedded from its source.
    It leans on a few functions of Go's library ([strings], [unicode/utf8],
    [unicode], [reflect]); they are modelled first, over Go's own notion of
    a string: a sequence of bytes, here [string] read as a list of [ascii]
    bytes.

    Package [mongo] has only its test-suite under src/ (mongo_test.go); the
    manager itself is modelled from the specification, section by section,
    and exercised on the scenarios of the test-suite. *)

From Stdlib Require Import ZArith Ascii String List Lia Bool.
From stdpp Require Import gmap strings list fin_maps.

Open Scope string_scope.
Set Warnings "-register-all".

(* ===================================================================== *)
(** * Go's library                                                        *)
(* ===================================================================== *)

(** ** unicode/utf8 *)
Module utf8.

Definition RuneError : Z := 0xFFFD.
Definition RuneSelf : Z := 0x80.
Definition UTFMax : nat := 4.

Definition byte (c : ascii) : Z := Z.of_N (N_of_ascii c).

(** [s[i]]; indexing is only used below where [i] is in range. *)
Definition at_ (s : string) (i : nat) : Z :=
  match String.get i s with
  | Some c => byte c
  | None => 0
  end.

(** [s[i:j]] *)
Definition slice (s : string) (i j : nat) : string := substring i (j - i) s.

(** The table [first] together with [acceptRanges]: for a leading byte the
    length of the sequence and the range allowed for the second byte.
    [None] is the entry [xx] (not a leading byte); ASCII is handled before
    the table is consulted. *)
Definition first (p0 : Z) : option (nat * Z * Z) :=
  if (p0 <? 0xC2)%Z then None
  else if (p0 <=? 0xDF)%Z then Some (2%nat, 0x80%Z, 0xBF%Z)
  else if (p0 =? 0xE0)%Z then Some (3%nat, 0xA0%Z, 0xBF%Z)
  else if (p0 <=? 0xEC)%Z then Some (3%nat, 0x80%Z, 0xBF%Z)
  else if (p0 =? 0xED)%Z then Some (3%nat, 0x80%Z, 0x9F%Z)
  else if (p0 <=? 0xEF)%Z then Some (3%nat, 0x80%Z, 0xBF%Z)
  else if (p0 =? 0xF0)%Z then Some (4%nat, 0x90%Z, 0xBF%Z)
  else if (p0 <=? 0xF3)%Z then Some (4%nat, 0x80%Z, 0xBF%Z)
  else if (p0 =? 0xF4)%Z then Some (4%nat, 0x80%Z, 0x8F%Z)
  else None.

Definition locb : Z := 0x80.
Definition hicb : Z := 0xBF.
Definition maskx : Z := 0x3F.
Definition mask2 : Z := 0x1F.
Definition mask3 : Z := 0x0F.
Definition mask4 : Z := 0x07.

Definition outside (b lo hi : Z) : bool := ((b <? lo) || (hi <? b))%Z.

(** [utf8.DecodeRuneInString]: the first rune of [s] and its width in
    bytes; [(RuneError, 0)] on the empty string, [(RuneError, 1)] on an
    invalid encoding. *)
Definition DecodeRuneInString (s : string) : Z * nat :=
  let n := String.length s in
  if (n <? 1)%nat then (RuneError, 0%nat)
  else
    let s0 := at_ s 0 in
    if (s0 <? RuneSelf)%Z then (s0, 1%nat)
    else
      match first s0 with
      | None => (RuneError, 1%nat)
      | Some (sz, lo, hi) =>
        if (n <? sz)%nat then (RuneError, 1%nat)
        else
          let s1 := at_ s 1 in
          if outside s1 lo hi then (RuneError, 1%nat)
          else if (sz <=? 2)%nat then
            (Z.lor (Z.shiftl (Z.land s0 mask2) 6) (Z.land s1 maskx), 2%nat)
          else
            let s2 := at_ s 2 in
            if outside s2 locb hicb then (RuneError, 1%nat)
            else if (sz <=? 3)%nat then
              (Z.lor (Z.lor (Z.shiftl (Z.land s0 mask3) 12)
                            (Z.shiftl (Z.land s1 maskx) 6))
                     (Z.land s2 maskx), 3%nat)
            else
              let s3 := at_ s 3 in
              if outside s3 locb hicb then (RuneError, 1%nat)
              else
                (Z.lor (Z.lor (Z.lor (Z.shiftl (Z.land s0 mask4) 18)
                                     (Z.shiftl (Z.land s1 maskx) 12))
                              (Z.shiftl (Z.land s2 maskx) 6))
                       (Z.land s3 maskx), 4%nat)
      end.

(** [utf8.RuneStart]: the byte is not a continuation byte. *)
Definition RuneStart (b : Z) : bool := negb (Z.land b 0xC0 =? 0x80)%Z.

(** The backward scan of [DecodeLastRuneInString]:
    [for start--; start >= lim; start-- { if RuneStart(s[start]) { break } }]
    entered with [start] already decremented; indices are integers, since
    the scan may leave the string at -1. *)
Fixpoint back_to_start (fuel : nat) (s : string) (start lim : Z) : Z :=
  match fuel with
  | O => start
  | S fuel' =>
    if (start <? lim)%Z then start
    else if RuneStart (at_ s (Z.to_nat start)) then start
    else back_to_start fuel' s (start - 1)%Z lim
  end.

(** [utf8.DecodeLastRuneInString] *)
Definition DecodeLastRuneInString (s : string) : Z * nat :=
  let end_ := String.length s in
  if (end_ =? 0)%nat then (RuneError, 0%nat)
  else
    let start := (end_ - 1)%nat in
    let r := at_ s start in
    if (r <? RuneSelf)%Z then (r, 1%nat)
    else
      let lim := Z.max 0 (Z.of_nat end_ - Z.of_nat UTFMax) in
      let start := back_to_start (S UTFMax) s (Z.of_nat start - 1) lim in
      let start := Z.to_nat (Z.max 0 start) in
      let '(r, size) := DecodeRuneInString (slice s start end_) in
      if (start + size =? end_)%nat then (r, size) else (RuneError, 1%nat).

End utf8.

(** ** unicode *)
Module unicode.

Definition MaxLatin1 : Z := 0xFF.

(** The ranges of the table [White_Space] above Latin-1. *)
Definition White_Space_excluding_Latin (r : Z) : bool :=
  ((r =? 0x1680) || ((0x2000 <=? r) && (r <=? 0x200A))
   || ((0x2028 <=? r) && (r <=? 0x2029)) || (r =? 0x202F)
   || (r =? 0x205F) || (r =? 0x3000))%Z.

(** [unicode.IsSpace] *)
Definition IsSpace (r : Z) : bool :=
  if ((0 <=? r) && (r <=? MaxLatin1))%Z then
    ((r =? 9) || (r =? 10) || (r =? 11) || (r =? 12) || (r =? 13)
     || (r =? 32) || (r =? 0x85) || (r =? 0xA0))%Z
  else White_Space_excluding_Latin r.

End unicode.

(** ** strings *)
Module gostrings.

(** The loop [for i, r := range s] of [indexFunc], resumed at byte [i]:
    the index of the first rune [r] with [f r = truth]. Every round
    consumes at least one byte, so [length s] rounds reach the end. *)
Fixpoint indexFunc_from (fuel : nat) (s : string) (i : nat)
    (f : Z -> bool) (truth : bool) : option nat :=
  match fuel with
  | O => None
  | S fuel' =>
    if (String.length s <=? i)%nat then None
    else
      let '(r, size) := utf8.DecodeRuneInString (utf8.slice s i (String.length s)) in
      if Bool.eqb (f r) truth then Some i
      else indexFunc_from fuel' s (i + size) f truth
  end.

Definition indexFunc (s : string) (f : Z -> bool) (truth : bool) : option nat :=
  indexFunc_from (String.length s) s 0 f truth.

(** [lastIndexFunc]: [for i := len(s); i > 0; ] decoding the last rune of
    [s[0:i]] each round. *)
Fixpoint lastIndexFunc_from (fuel : nat) (s : string) (i : nat)
    (f : Z -> bool) (truth : bool) : option nat :=
  match fuel with
  | O => None
  | S fuel' =>
    if (i =? 0)%nat then None
    else
      let '(r, size) := utf8.DecodeLastRuneInString (utf8.slice s 0 i) in
      let i := (i - size)%nat in
      if Bool.eqb (f r) truth then Some i
      else lastIndexFunc_from fuel' s i f truth
  end.

Definition lastIndexFunc (s : string) (f : Z -> bool) (truth : bool) : option nat :=
  lastIndexFunc_from (String.length s) s (String.length s) f truth.

Definition TrimLeftFunc (s : string) (f : Z -> bool) : string :=
  match indexFunc s f false with
  | None => ""
  | Some i => utf8.slice s i (String.length s)
  end.

Definition TrimRightFunc (s : string) (f : Z -> bool) : string :=
  match lastIndexFunc s f false with
  | Some i =>
    if (utf8.RuneSelf <=? utf8.at_ s i)%Z then
      let '(_, wid) := utf8.DecodeRuneInString (utf8.slice s i (String.length s)) in
      utf8.slice s 0 (i + wid)
    else utf8.slice s 0 (i + 1)
  | None => utf8.slice s 0 0
  end.

Definition TrimFunc (s : string) (f : Z -> bool) : string :=
  TrimRightFunc (TrimLeftFunc s f) f.

(** [strings.TrimSpace] *)
Definition TrimSpace (s : string) : string := TrimFunc s unicode.IsSpace.

(** [strings.HasPrefix] *)
Definition HasPrefix (s pre : string) : bool := String.prefix pre s.

(** [strings.TrimPrefix] *)
Definition TrimPrefix (s pre : string) : string :=
  if HasPrefix s pre then utf8.slice s (String.length pre) (String.length s) else s.

(** [strings.Split s sep] for a separator of at least one byte: the
    pieces of [s] between the occurrences of [sep], found left to right
    without overlap. [skip] counts the bytes of a separator that has just
    been matched and is still to be stepped over; [acc] holds the current
    piece. *)
Fixpoint split_go (sep : string) (skip : nat) (acc : string) (s : string) : list string :=
  match s with
  | EmptyString => [acc]
  | String c s' =>
    match skip with
    | S k => split_go sep k acc s'
    | O =>
      if String.prefix sep s
      then acc :: split_go sep (String.length sep - 1) "" s'
      else split_go sep 0 (acc ++ String c "") s'
    end
  end.

(** The case [sep == ""] of [strings.Split]: one piece per UTF-8 sequence. *)
Fixpoint explode (fuel : nat) (s : string) : list string :=
  match fuel with
  | O => []
  | S fuel' =>
    match s with
    | EmptyString => []
    | _ =>
      let '(_, size) := utf8.DecodeRuneInString s in
      utf8.slice s 0 size :: explode fuel' (utf8.slice s size (String.length s))
    end
  end.

Definition Split (s sep : string) : list string :=
  match sep with
  | EmptyString => explode (String.length s) s
  | _ => split_go sep 0 "" s
  end.

(** Lower case of one ASCII byte: ['A'..'Z'] move to ['a'..'z']. *)
Definition lower_byte (c : ascii) : ascii :=
  let b := utf8.byte c in
  if ((65 <=? b) && (b <=? 90))%Z then ascii_of_N (Z.to_N (b + 32)) else c.

Fixpoint lower_ascii (s : string) : string :=
  match s with
  | EmptyString => EmptyString
  | String c s' => String (lower_byte c) (lower_ascii s')
  end.

Fixpoint isASCII (s : string) : bool :=
  match s with
  | EmptyString => true
  | String c s' => (utf8.byte c <? utf8.RuneSelf)%Z && isASCII s'
  end.

Section ToLower.
  (** The case mapping of a string that holds a byte outside ASCII goes
      through the Unicode case tables of Go's library ([unicode.ToLower]
      applied rune by rune by [strings.Map]); the tables are not part of
      this repository and are taken as a parameter. *)
Variable unicode_lower : string -> string.

  (** [strings.ToLower] *)
Definition ToLower (s : string) : string :=
    if isASCII s then lower_ascii s else unicode_lower s.
End ToLower.

End gostrings.

(** ** reflect

    The part of package [reflect] the mapper uses. A struct is the list of
    its declared fields; promotion through embedded fields is not
    modelled. A struct tag is held as the key/value pairs its conventional
    format [key:"value" ...] denotes. *)
Module reflect.

Record StructField (V : Type) : Type := mkField {
  Name : string;
  PkgPath : string;              (* empty for an exported field *)
  Tag : list (string * string);
  Val : V
}.
Arguments mkField {V} _ _ _ _.
Arguments Name {V} _.
Arguments PkgPath {V} _.
Arguments Tag {V} _.
Arguments Val {V} _.

(** What an [interface{}] can hold, as far as the mapper tells values
    apart. *)
Inductive value : Type :=
| Nil                                        (* the nil interface *)
| Bool (b : bool)
| Int (z : Z)
| Str (s : string)
| Bytes (b : string)                         (* []byte *)
| Struct (fields : list (StructField value))
| Ptr (elem : option value).                 (* [None]: a nil pointer *)

Inductive Kind : Type :=
| Invalid | KBool | KInt | KString | KSlice | KStruct | KPtr.

Global Instance Kind_eq_dec : EqDecision Kind.
Proof. solve_decision. Defined.

(** A [reflect.Value]; [None] is the zero Value. *)
Definition Value : Type := option value.

Definition ValueOf (i : value) : Value :=
  match i with
  | Nil => None
  | _ => Some i
  end.

Definition kind (v : Value) : Kind :=
  match v with
  | None | Some Nil => Invalid
  | Some (Bool _) => KBool
  | Some (Int _) => KInt
  | Some (Str _) => KString
  | Some (Bytes _) => KSlice
  | Some (Struct _) => KStruct
  | Some (Ptr _) => KPtr
  end.

(** [reflect.Indirect]: the value pointed to; the zero Value for a nil
    pointer; the value itself when it is no pointer. *)
Definition Indirect (v : Value) : Value :=
  match v with
  | Some (Ptr elem) => elem
  | _ => v
  end.

(** [StructTag.Get] *)
Fixpoint Get (tag : list (string * string)) (key : string) : string :=
  match tag with
  | [] => ""
  | (k, v) :: tag' => if String.eqb k key then v else Get tag' key
  end.

(** [Value.FieldByName] on a struct: the index of the field of that name. *)
Fixpoint FieldByName_from (i : nat) (fields : list (StructField value))
    (name : string) : option nat :=
  match fields with
  | [] => None
  | f :: fields' =>
    if String.eqb (Name f) name then Some i
    else FieldByName_from (S i) fields' name
  end.

Definition FieldByName (fields : list (StructField value)) (name : string) : option nat :=
  FieldByName_from 0 fields name.

(** [Value.CanSet] of a field reached through a pointer to its struct. *)
Definition CanSet (f : StructField value) : bool := String.eqb (PkgPath f) "".

End reflect.

(* ===================================================================== *)
(** * Package db: src/db/row_struct_mapper.go                             *)
(* ===================================================================== *)
Module db.
Import gostrings reflect.

(** The errors the package builds with [fmt.Errorf], one constructor per
    format string, and the errors of a scanner, which pass through. *)
Inductive error : Type :=
| PointerExpected (got : value)
| NoFieldFound (column : string)
| UnexportedField (column : string)
| StructExpected (got : value)
| ScanError (msg : string).

(** [SQLStructTag] *)
Record SQLStructTag : Type := mkTag {
  ColumnName : string;
  PersistZeroValue : bool
}.

(** [SQLStructTagBuilder]: the embedded [logger.Logger] is [None] when
    nil, and otherwise the entries logged so far. *)
Record SQLStructTagBuilder : Type := mkBuilder {
  Logger : option (list (list string))
}.

(** [builder.log] *)
Definition log (builder : SQLStructTagBuilder) (args : list string) : SQLStructTagBuilder :=
  match Logger builder with
  | None => builder
  | Some entries => mkBuilder (Some (entries ++ [("SQLStructTagBuilder" :: args)])%list)
  end.

Definition noop (s : string) : string := s.

Section Tags.
Variable unicode_lower : string -> string.

  (** One round of the loop of [BuildFromString]. *)
Definition BuildFromString_step (st : SQLStructTag * SQLStructTagBuilder)
      (data : string) : SQLStructTag * SQLStructTagBuilder :=
    let '(tag, builder) := st in
    let data := TrimSpace data in
    let builder := log builder ["	data:"; data] in
    let '(tag, builder) :=
      if HasPrefix data "column:" then
        let tag := mkTag (TrimSpace (TrimPrefix data "column:")) (PersistZeroValue tag) in
        (tag, log builder ["		column:"; ColumnName tag])
      else (tag, builder) in
    if String.eqb (TrimSpace (ToLower unicode_lower data)) "persistzerovalue"
    then (mkTag (ColumnName tag) true, builder)
    else (tag, builder).

  (** [SQLStructTagBuilder.BuildFromString], with the builder as it is
      left (its logger having received the entries). *)
Definition BuildFromString_logged (builder : SQLStructTagBuilder) (data : string)
      : SQLStructTag * SQLStructTagBuilder :=
    let datas := Split data "," in
    let builder := log builder ["datas:"; data] in
    foldl BuildFromString_step (mkTag "" false, builder) datas.

Definition BuildFromString (builder : SQLStructTagBuilder) (data : string) : SQLStructTag :=
    fst (BuildFromString_logged builder data).

  (** Go's [(func(string) string, error)]. *)
Inductive mapper_result : Type :=
  | Mapper (f : string -> string)
  | MapperError (e : error).

  (** The loop of [CreateTagMapperFunc] over the fields, filling [m]. *)
Definition tag_mapper_step (tagname : string) (m : gmap string string)
      (f : StructField value) : gmap string string :=
    let name := Name f in
    let stringTags := Get (Tag f) tagname in
    let tags := BuildFromString (mkBuilder None) stringTags in
    if negb (String.eqb (ColumnName tags) "")
    then <[ColumnName tags := name]> m
    else <[name := name]> m.

  (** [CreateTagMapperFunc] *)
Definition CreateTagMapperFunc (Struct_ : value) (tagname : list string) : mapper_result :=
    let structValue := Indirect (ValueOf Struct_) in
    match structValue with
    | Some (Struct fields) =>
      let tagname := match tagname with [] => ["sql"] | _ => tagname end in
      let m := foldl (tag_mapper_step (hd "" tagname)) ∅ fields in
      Mapper (fun s => match m !! s with Some r => r | None => s end)
    | _ => MapperError (StructExpected Struct_)
    end.
End Tags.

(** [Scanner]: [Scan] receives the values its destination pointers point
    to and answers with the values it leaves there and its error; it may
    keep a state of its own (the cursor of a result set). *)
Class Scanner (S : Type) : Type :=
  Scan : S -> list value -> S * list value * option error.

(** A destination handed to [Scan]: the address of a field of the struct,
    or a pointer to a fresh [[]byte] that nothing else reads. *)
Inductive dest : Type :=
| FieldAddr (i : nat)
| Discard.

Global Instance dest_eq_dec : EqDecision dest.
Proof. solve_decision. Defined.

(** How a call ends. [FieldByName] panics on a Value that is no struct. *)
Inductive outcome : Type :=
| Return (err : option error)
| Panic.

(** The loop of [MapRowToStruct] over the columns. *)
Inductive loop_result : Type :=
| Collected (arrayOfResults : list dest)
| Failed (e : error)
| Panicked.

Fixpoint collect (transform : string -> string) (structValue : Value)
    (ignoreMissingFields : bool) (columns : list string)
    (arrayOfResults : list dest) : loop_result :=
  match columns with
  | [] => Collected arrayOfResults
  | column :: columns' =>
    let column := transform column in
    match structValue with
    | Some (Struct fields) =>
      match FieldByName fields column with
      | None =>
        if ignoreMissingFields
        then collect transform structValue ignoreMissingFields columns'
               (arrayOfResults ++ [Discard])%list
        else Failed (NoFieldFound column)
      | Some i =>
        match fields !! i with
        | Some field =>
          if negb (CanSet field) then Failed (UnexportedField column)
          else collect transform structValue ignoreMissingFields columns'
                 (arrayOfResults ++ [FieldAddr i])%list
        | None => Panicked
        end
      end
    | _ => Panicked
    end
  end.

(** What a destination points to before the scan. *)
Definition pointee (fields : list (StructField value)) (d : dest) : value :=
  match d with
  | FieldAddr i =>
    match fields !! i with
    | Some f => Val f
    | None => Nil
    end
  | Discard => Bytes ""
  end.

Definition set_Val (v : value) (f : StructField value) : StructField value :=
  mkField (Name f) (PkgPath f) (Tag f) v.

(** The stores a scan makes through its destinations, in the order of
    the destinations: a field named by two columns keeps the later one. *)
Fixpoint write_back (fields : list (StructField value)) (dests : list dest)
    (written : list value) : list (StructField value) :=
  match dests, written with
  | FieldAddr i :: dests', v :: written' =>
    write_back (alter (set_Val v) i fields) dests' written'
  | Discard :: dests', _ :: written' => write_back fields dests' written'
  | _, _ => fields
  end.

(** The state a call of [MapRowToStruct] leaves: the scanner, the value
    [Struct] now holds, the calls of [Scan] it made (their destinations),
    and how it ended. *)
Record after (S : Type) : Type := mkAfter {
  scanner_after : S;
  Struct_after : value;
  scan_calls : list (list dest);
  result : outcome
}.
Arguments mkAfter {S} _ _ _ _.
Arguments scanner_after {S} _.
Arguments Struct_after {S} _.
Arguments scan_calls {S} _.
Arguments result {S} _.

(** [MapRowToStruct] *)
Definition MapRowToStruct {S : Type} `{Scanner S} (columns : list string) (scanner : S)
    (Struct_ : value) (ignoreMissingFields : bool)
    (transforms : list (string -> string)) : after S :=
  let transforms := match transforms with [] => [noop] | _ => transforms end in
  let structPointer := ValueOf Struct_ in
  if negb (bool_decide (kind structPointer = KPtr)) then
    mkAfter scanner Struct_ [] (Return (Some (PointerExpected Struct_)))
  else
    let structValue := Indirect structPointer in
    match collect (hd noop transforms) structValue ignoreMissingFields columns [] with
    | Panicked => mkAfter scanner Struct_ [] Panic
    | Failed e => mkAfter scanner Struct_ [] (Return (Some e))
    | Collected arrayOfResults =>
      let fields := match structValue with Some (Struct fields) => fields | _ => [] end in
      let '(scanner, written, err) := Scan scanner (map (pointee fields) arrayOfResults) in
      let Struct_ :=
        match structValue with
        | Some (Struct fields) => Ptr (Some (Struct (write_back fields arrayOfResults written)))
        | _ => Struct_
        end in
      mkAfter scanner Struct_ [arrayOfResults] (Return err)
    end.

End db.

(* ===================================================================== *)
(** * Package db, continued: the mappers of a whole result set            *)
(* ===================================================================== *)
Module rows.
Import gostrings reflect db.
Local Open Scope list_scope.

(** [RowsScanner]: a [Scanner] that also iterates. Every method may move
    the scanner to another state; [Columns] answers with the column names
    and its error. *)
Class RowsScanner (S : Type) : Type := {
  Close : S -> S * option error;
  Columns : S -> S * list string * option error;
  Err : S -> S * option error;
  Next : S -> S * bool;
  RowsScanner_Scanner :: Scanner S
}.

(** The calls a mapper makes on its scanner, in order; [CallScan n] is a
    call of [Scan] with [n] destinations. *)
Inductive call : Type :=
| CallNext
| CallColumns
| CallScan (destinations : nat)
| CallErr
| CallClose.

Global Instance call_eq_dec : EqDecision call.
Proof. solve_decision. Defined.

(** The state a mapper leaves: the scanner, what its destination argument
    now holds, the calls made on the scanner, and how the call ended. *)
Record rows_after (S A R : Type) : Type := mkRowsAfter {
  rows_scanner : S;
  rows_dest : A;
  rows_calls : list call;
  rows_result : R
}.
Arguments mkRowsAfter {S A R} _ _ _ _.
Arguments rows_scanner {S A R} _.
Arguments rows_dest {S A R} _.
Arguments rows_calls {S A R} _.
Arguments rows_result {S A R} _.

(** [defer scanner.Close()]: the call made when the function is left, by
    a return or by a panic; its error is dropped. *)
Definition deferred_Close {S A R : Type} `{RowsScanner S}
    (r : S * A * list call * R) : rows_after S A R :=
  let '(scanner, dest, log, res) := r in
  let '(scanner, _) := Close scanner in
  mkRowsAfter scanner dest (log ++ [CallClose]) res.

(** What [n] destinations made by [new(interface{})] hold after a scan
    that stored [written] through them, in order: a destination the scan
    did not reach still holds the nil interface. *)
Definition stored (n : nat) (written : list value) : list value :=
  take n (written ++ repeat Nil n).

(** [if u, ok := v.([]uint8); ok { string(u) } else { v }] *)
Definition cell (v : value) : value :=
  match v with
  | Bytes u => Str u
  | _ => v
  end.

Section Loops.
Context {S : Type} `{RowsScanner S}.

(** The loop [for scanner.Next()] of [MapRowsToSliceOfSlices]; [Slices]
    is what the pointer refers to, [None] for a nil pointer, which the
    first [append] dereferences. The loop runs as long as [Next] answers
    true: [fuel] bounds the rounds, and [None] says that it ran out. *)
Fixpoint slices_loop (fuel : nat) (scanner : S) (Slices : option (list (list value)))
    (log : list call) : option (S * option (list (list value)) * list call * outcome) :=
  match fuel with
  | O => None
  | Datatypes.S fuel' =>
    let '(scanner, more) := Next scanner in
    let log := log ++ [CallNext] in
    if negb more then
      let '(scanner, err) := Err scanner in
      Some (scanner, Slices, log ++ [CallErr], Return err)
    else
      let '(scanner, columns, err) := Columns scanner in
      let log := log ++ [CallColumns] in
      match err with
      | Some e => Some (scanner, Slices, log, Return (Some e))
      | None =>
        let sliceOfResults := repeat Nil (length columns) in
        let '(scanner, written, err) := Scan scanner sliceOfResults in
        let log := log ++ [CallScan (length columns)] in
        match err with
        | Some e => Some (scanner, Slices, log, Return (Some e))
        | None =>
          let row := map cell (stored (length columns) written) in
          match Slices with
          | None => Some (scanner, None, log, Panic)
          | Some rows => slices_loop fuel' scanner (Some (rows ++ [row])) log
          end
        end
      end
  end.

(** [MapRowsToSliceOfSlices] *)
Definition MapRowsToSliceOfSlices (fuel : nat) (scanner : S)
    (Slices : option (list (list value)))
    : option (rows_after S (option (list (list value))) outcome) :=
  deferred_Close <$> slices_loop fuel scanner Slices [].

(** [for index, column := range columns { row[column] = ... }] *)
Definition fill_row (columns : list string) (cells : list value) : gmap string value :=
  foldl (fun (row : gmap string value) (cv : string * value) => <[fst cv := cell (snd cv)]> row)
        ∅ (zip columns cells).

(** The loop of [MapRowsToSliceOfMaps]. *)
Fixpoint maps_loop (fuel : nat) (scanner : S) (Map : option (list (gmap string value)))
    (log : list call) : option (S * option (list (gmap string value)) * list call * outcome) :=
  match fuel with
  | O => None
  | Datatypes.S fuel' =>
    let '(scanner, more) := Next scanner in
    let log := log ++ [CallNext] in
    if negb more then
      let '(scanner, err) := Err scanner in
      Some (scanner, Map, log ++ [CallErr], Return err)
    else
      let '(scanner, columns, err) := Columns scanner in
      let log := log ++ [CallColumns] in
      match err with
      | Some e => Some (scanner, Map, log, Return (Some e))
      | None =>
        let sliceOfResults := repeat Nil (length columns) in
        let '(scanner, written, err) := Scan scanner sliceOfResults in
        let log := log ++ [CallScan (length columns)] in
        match err with
        | Some e => Some (scanner, Map, log, Return (Some e))
        | None =>
          let row := fill_row columns (stored (length columns) written) in
          match Map with
          | None => Some (scanner, None, log, Panic)
          | Some rows => maps_loop fuel' scanner (Some (rows ++ [row])) log
          end
        end
      end
  end.

(** [MapRowsToSliceOfMaps] *)
Definition MapRowsToSliceOfMaps (fuel : nat) (scanner : S)
    (Map : option (list (gmap string value)))
    : option (rows_after S (option (list (gmap string value))) outcome) :=
  deferred_Close <$> maps_loop fuel scanner Map [].

End Loops.

(** ** MapRowsToSliceOfStruct *)

(** The types [reflect.New] is asked to make a value of. *)
Inductive rtype : Type :=
| TBool
| TInt
| TString
| TBytes
| TStruct (fields : list (StructField rtype))
| TPtr (elem : rtype).

(** [reflect.Zero]: the zero value of a type. *)
Fixpoint Zero (t : rtype) : value :=
  match t with
  | TBool => Bool false
  | TInt => Int 0
  | TString => Str ""
  | TBytes => Bytes ""
  | TStruct fields =>
    Struct (List.map (fun f => mkField (Name f) (PkgPath f) (Tag f) (Zero (Val f))) fields)
  | TPtr _ => Ptr None
  end.

(** [reflect.New(t).Interface()]: a pointer to a new zero value. *)
Definition New (t : rtype) : value := Ptr (Some (Zero t)).

(** The argument [pointerToASliceOfStructs]: a pointer to a slice of
    element type [elem], or any other value. *)
Inductive records : Type :=
| SliceAt (elem : rtype) (items : list value)
| Other (v : value).

(** The errors [MapRowsToSliceOfStruct] builds itself, with the argument
    they are about, and those it passes on. *)
Inductive rows_error : Type :=
| ExpectPointer (got : records)
| NotASlice (got : records)
| Passed (e : error).

Inductive rows_outcome : Type :=
| RowsReturn (err : option rows_error)
| RowsPanic.

Section Structs.
Context {S : Type} `{RowsScanner S}.
Variable unicode_lower : string -> string.

(** The loop [for scanner.Next()] of [MapRowsToSliceOfStruct] on a slice
    of element type [elem]. It answers with the slice to be stored, or
    with how the function is left early. [reflect.Append] panics unless
    the pointer made by [reflect.New] is assignable to the element type:
    unless the element type is that pointer type. *)
Fixpoint struct_loop (fuel : nat) (scanner : S) (elem : rtype) (columns : list string)
    (ignoreMissingField : bool) (transforms : list (string -> string))
    (recordsValue : list value) (log : list call)
    : option (S * list call * (list value + rows_outcome)) :=
  match fuel with
  | O => None
  | Datatypes.S fuel' =>
    let '(scanner, more) := Next scanner in
    let log := log ++ [CallNext] in
    if negb more then Some (scanner, log, inl recordsValue)
    else
      let t := match elem with
               | TPtr t => t
               | _ => elem
               end in
      let pointerOfElement := New t in
      let default :=
        match transforms with
        | [] =>
          match CreateTagMapperFunc unicode_lower pointerOfElement [] with
          | Mapper tagMapper => inr [tagMapper]
          | MapperError err => inl err
          end
        | _ => inr transforms
        end in
      match default with
      | inl err => Some (scanner, log, inr (RowsReturn (Some (Passed err))))
      | inr transforms =>
        let r := MapRowToStruct columns scanner pointerOfElement ignoreMissingField transforms in
        let log := log ++ map (fun dests => CallScan (length dests)) (scan_calls r) in
        match result r with
        | Panic => Some (scanner_after r, log, inr RowsPanic)
        | Return (Some err) => Some (scanner_after r, log, inr (RowsReturn (Some (Passed err))))
        | Return None =>
          match elem with
          | TPtr _ =>
            struct_loop fuel' (scanner_after r) elem columns ignoreMissingField transforms
                        (recordsValue ++ [Struct_after r]) log
          | _ => Some (scanner_after r, log, inr RowsPanic)
          end
        end
      end
  end.

(** [reflect.ValueOf(pointerToASliceOfStructs).Kind() == reflect.Ptr] *)
Definition pointer (p : records) : bool :=
  match p with
  | SliceAt _ _ => true
  | Other v => bool_decide (kind (ValueOf v) = KPtr)
  end.

(** [recordsPointerValue.Elem()] when its kind is [reflect.Slice]: the
    slice with its element type. [[]byte] is the one slice among the
    values of [Other]. *)
Definition slice_of (p : records) : option (rtype * list value) :=
  match p with
  | SliceAt elem items => Some (elem, items)
  | Other (Ptr (Some (Bytes b))) =>
    Some (TInt, map (fun c => Int (utf8.byte c)) (list_ascii_of_string b))
  | Other _ => None
  end.

(** [recordsPointerValue.Elem().Set(recordsValue)]. A slice of bytes is
    never appended to (its element type is no pointer) and is stored as
    it was. *)
Definition Set_ (p : records) (recordsValue : list value) : records :=
  match p with
  | SliceAt elem _ => SliceAt elem recordsValue
  | Other v => Other v
  end.

(** [MapRowsToSliceOfStruct] *)
Definition MapRowsToSliceOfStruct (fuel : nat) (scanner : S)
    (pointerToASliceOfStructs : records) (ignoreMissingField : bool)
    (transforms : list (string -> string))
    : option (rows_after S records rows_outcome) :=
  let p := pointerToASliceOfStructs in
  if negb (pointer p) then
    Some (deferred_Close (scanner, p, [], RowsReturn (Some (ExpectPointer p))))
  else
    match slice_of p with
    | None => Some (deferred_Close (scanner, p, [], RowsReturn (Some (NotASlice p))))
    | Some (elem, items) =>
      let '(scanner, columns, err) := Columns scanner in
      match err with
      | Some e =>
        Some (deferred_Close (scanner, p, [CallColumns], RowsReturn (Some (Passed e))))
      | None =>
        match struct_loop fuel scanner elem columns ignoreMissingField transforms items
                          [CallColumns] with
        | None => None
        | Some (scanner, log, inr res) => Some (deferred_Close (scanner, p, log, res))
        | Some (scanner, log, inl recordsValue) =>
          let p := Set_ p recordsValue in
          let '(scanner, err) := Err scanner in
          Some (deferred_Close (scanner, p, log ++ [CallErr], RowsReturn (Passed <$> err)))
        end
      end
    end.

End Structs.

End rows.

(* ===================================================================== *)
(** * Package mongo: the document manager                                 *)
(* ===================================================================== *)

(** The sources of package [mongo] are not under src/; only its
    test-suite, src/mongo/mongo_test.go, is. The manager is therefore
    modelled from the specification (sections 3 to 7), and from the
    test-suite where it fixes a point the specification leaves open or
    contradicts: each such point is marked. In-memory entities live in an
    arena ([heap]) and are named by their index, as section 9 of the
    specification suggests; a destination [out] of a [Find] is the address
    the call returns. *)
Module mongo.
Import gostrings.
Local Open Scope list_scope.

(** ** 3. Data model *)

(** Modelled from the spec: object identifiers ("a 12-byte opaque object
    identifier; absent/zero means not yet persisted"), as numbers. *)
Abbreviation ObjectId := N (only parsing).

(** The address of an in-memory entity. *)
Abbreviation addr := nat (only parsing).

(** Values stored inline. *)
Inductive scalar : Type :=
| SStr (s : string)
| SInt (z : Z)
| SBool (b : bool).

Global Instance scalar_eq_dec : EqDecision scalar.
Proof. solve_decision. Defined.

Inductive RelKind : Type := One | Many.

Global Instance RelKind_eq_dec : EqDecision RelKind.
Proof. solve_decision. Defined.

(** [cascade ⊆ {persist, remove}] *)
Record Cascade : Type := mkCascade { persist : bool; remove : bool }.

(** Modelled from the spec: the RelationshipDescriptor of section 3. The
    side is owning when there is no [mappedBy]. *)
Record RelationshipDescriptor : Type := mkRel {
  kind : RelKind;
  target : string;
  mappedBy : option string;
  cascade : Cascade
}.

Definition owning (d : RelationshipDescriptor) : bool :=
  match mappedBy d with
  | None => true
  | Some _ => false
  end.

(** ** 4.1 Tag parser *)

Inductive ParseError : Type :=
| UnknownKind (k : string)
| Malformed (item : string)
| UnknownKey (k : string)
| DuplicateKey (k : string)
| MissingTargetDocument
| UnknownCascade (v : string).

(** The text before and after the first occurrence of byte [c]. *)
Fixpoint cut (c : ascii) (s : string) : option (string * string) :=
  match s with
  | EmptyString => None
  | String d s' =>
    if Ascii.eqb c d then Some ("", s')
    else match cut c s' with
         | Some (before, after) => Some (String d before, after)
         | None => None
         end
  end.

(** [s] without its last byte, when that byte is [c]. *)
Fixpoint strip_last (c : ascii) (s : string) : option string :=
  match s with
  | EmptyString => None
  | String d EmptyString => if Ascii.eqb c d then Some "" else None
  | String d s' =>
    match strip_last c s' with
    | Some body => Some (String d body)
    | None => None
    end
  end.

(** One [key:value] of the argument list, blanks around both dropped. *)
Definition lex_item (item : string) : option (string * string) :=
  match cut ":" item with
  | Some (k, v) => Some (TrimSpace k, TrimSpace v)
  | None => None
  end.

Fixpoint lex_items (items : list string) : option (list (string * string)) :=
  match items with
  | [] => Some []
  | item :: items' =>
    match lex_item item, lex_items items' with
    | Some kv, Some kvs => Some (kv :: kvs)
    | _, _ => None
    end
  end.

(** Modelled from the spec: the grammar [kind ( key:value , key:value ... )]
    of section 4.1, read into the kind and the list of keys and values. *)
Definition lex (annotation : string) : option (string * list (string * string)) :=
  match cut "(" annotation with
  | None => None
  | Some (k, rest) =>
    match strip_last ")" rest with
    | None => None
    | Some args =>
      match lex_items (Split args ",") with
      | Some kvs => Some (k, kvs)
      | None => None
      end
    end
  end.

Definition parse_kind (k : string) : option RelKind :=
  if String.eqb k "referenceOne" then Some One
  else if String.eqb k "referenceMany" then Some Many
  else None.

(** Modelled from the spec and the test-suite: the cascade values
    [persist], [remove] and [all] ("all" expands to both). The test-suite
    writes [cascade:Persist] (mongo_test.go:34 and 184) and relies on the
    persist cascade it asks for (mongo_test.go:48-62), so the value is
    read whatever the case of its letters. *)
Definition parse_cascade (v : string) : option Cascade :=
  let v := lower_ascii v in
  if String.eqb v "persist" then Some (mkCascade true false)
  else if String.eqb v "remove" then Some (mkCascade false true)
  else if String.eqb v "all" then Some (mkCascade true true)
  else None.

(** What the keys read so far have given. *)
Record Partial : Type := mkPartial {
  p_target : option string;
  p_mappedBy : option string;
  p_cascade : option Cascade
}.

Inductive parsed (A : Type) : Type :=
| Parsed (a : A)
| ParseFailed (e : ParseError).
Arguments Parsed {A} _.
Arguments ParseFailed {A} _.

(** One key of the list. "Unknown keys produce an error; duplicate keys
    produce an error." *)
Definition interpret_item (p : Partial) (kv : string * string) : parsed Partial :=
  let '(k, v) := kv in
  if String.eqb k "targetDocument" then
    match p_target p with
    | Some _ => ParseFailed (DuplicateKey k)
    | None => Parsed (mkPartial (Some v) (p_mappedBy p) (p_cascade p))
    end
  else if String.eqb k "mappedBy" then
    match p_mappedBy p with
    | Some _ => ParseFailed (DuplicateKey k)
    | None => Parsed (mkPartial (p_target p) (Some v) (p_cascade p))
    end
  else if String.eqb k "cascade" then
    match p_cascade p with
    | Some _ => ParseFailed (DuplicateKey k)
    | None =>
      match parse_cascade v with
      | Some c => Parsed (mkPartial (p_target p) (p_mappedBy p) (Some c))
      | None => ParseFailed (UnknownCascade v)
      end
    end
  else ParseFailed (UnknownKey k).

Fixpoint interpret_items (p : Partial) (kvs : list (string * string)) : parsed Partial :=
  match kvs with
  | [] => Parsed p
  | kv :: kvs' =>
    match interpret_item p kv with
    | Parsed p' => interpret_items p' kvs'
    | ParseFailed e => ParseFailed e
    end
  end.

(** Modelled from the spec: the Tag Parser of section 4.1, from the
    annotation to a RelationshipDescriptor or a parse error. "A missing
    [targetDocument] is fatal." *)
Definition Parse (annotation : string) : parsed RelationshipDescriptor :=
  match lex annotation with
  | None => ParseFailed (Malformed annotation)
  | Some (k, kvs) =>
    match parse_kind k with
    | None => ParseFailed (UnknownKind k)
    | Some rk =>
      match interpret_items (mkPartial None None None) kvs with
      | ParseFailed e => ParseFailed e
      | Parsed p =>
        match p_target p with
        | None => ParseFailed MissingTargetDocument
        | Some t =>
          Parsed (mkRel rk t (p_mappedBy p) (default (mkCascade false false) (p_cascade p)))
        end
      end
    end
  end.

(** ** 4.2 Metadata catalog *)

(** A declared field: its name, the storage key its storage annotation
    gives it (if any; the key [_id] marks the identity field), and its
    relationship annotation (if any). *)
Record FieldDecl : Type := mkDecl {
  Name : string;
  storage : option string;
  odm : option string
}.

(** Modelled from the spec and the test-suite: the key a field is stored
    and queried under. An explicit storage name is used as it is. Without
    one, the specification asks for the declared name verbatim, but the
    test-suite queries the untagged field [Name] of [User] under "name"
    (mongo_test.go:59), shows the untagged [Author] and [Tags] of
    [Article] stored as "author" and "tags" (mongo_test.go:273-281) and
    says why (mongo_test.go:158-160: the driver lowercases keys by
    default): the default key is the name in lower case. *)
Definition storage_key (f : FieldDecl) : string :=
  match storage f with
  | Some k => k
  | None => lower_ascii (Name f)
  end.

(** Modelled from the spec: the Type Metadata of section 3. Scalar fields
    and relationships are listed with their storage keys. *)
Record TypeMeta : Type := mkMeta {
  collection : string;
  identityField : string;
  scalarFields : list (string * string);
  relationships : list (string * string * RelationshipDescriptor)
}.

Inductive error : Type :=
| ConfigurationError (msg : string)
| UsageError (msg : string)
| NotFound
| DriverError (msg : string)
| IntegrityError (msg : string).

Global Instance error_eq_dec : EqDecision error.
Proof. solve_decision. Defined.

Definition is_identity (f : FieldDecl) : bool :=
  match storage f with
  | Some k => String.eqb k "_id"
  | None => false
  end.

(** The fields after the identity field: relationships where annotated,
    scalars otherwise. *)
Fixpoint catalog (decls : list FieldDecl)
    : parsed (list (string * string) * list (string * string * RelationshipDescriptor)) :=
  match decls with
  | [] => Parsed ([], [])
  | f :: decls' =>
    match catalog decls' with
    | ParseFailed e => ParseFailed e
    | Parsed (scalars, rels) =>
      if is_identity f then Parsed (scalars, rels)
      else
        match odm f with
        | None => Parsed ((Name f, storage_key f) :: scalars, rels)
        | Some annotation =>
          match Parse annotation with
          | Parsed d => Parsed (scalars, (Name f, storage_key f, d) :: rels)
          | ParseFailed e => ParseFailed e
          end
        end
    end
  end.

(** Modelled from the spec: what [Register] builds for a type, section
    4.2. "Every registered type has exactly one identity field." *)
Definition describe (name : string) (decls : list FieldDecl) : error + TypeMeta :=
  match List.filter is_identity decls with
  | [idf] =>
    match catalog decls with
    | Parsed (scalars, rels) => inr (mkMeta name (Name idf) scalars rels)
    | ParseFailed _ => inl (ConfigurationError "relationship annotation")
    end
  | _ => inl (ConfigurationError "identity field")
  end.

(** ** Entities, documents and the session *)

(** What a relationship field holds in memory. *)
Inductive ref : Type :=
| RefOne (r : option addr)
| RefMany (rs : list addr).

(** Modelled from the spec: an Entity of section 3, a record of a
    registered type with its identity, its scalar fields and its
    relationship fields, both by declared name. *)
Record Entity : Type := mkEntity {
  etype : string;
  ident : ObjectId;
  scalars : gmap string scalar;
  refs : gmap string ref
}.

(** What a document stores under a key: a scalar, the identifier an
    owning [referenceOne] holds (or null), or the list an owning
    [referenceMany] holds. *)
Inductive dval : Type :=
| DScalar (v : scalar)
| DRef (id : option ObjectId)
| DRefs (ids : list ObjectId).

Global Instance dval_eq_dec : EqDecision dval.
Proof. solve_decision. Defined.

Record Document : Type := mkDoc {
  d_id : ObjectId;
  d_fields : gmap string dval
}.

(** One condition of a filter: a key equal to a scalar (what the
    test-suite's [bson.M] filters ask), and the two conditions of an
    inverse-side query (section 4.4). *)
Inductive cond : Type :=
| FieldEq (k : string) (v : scalar)
| RefEq (k : string) (id : ObjectId)
| RefContains (k : string) (id : ObjectId).

(** Modelled from the spec: the memory of the program, the store, and the
    session of one DocumentManager: metadata catalog, identity map with
    its origin snapshots (sections 3 and 4.5) and the three stage tables
    (section 4.3). A collection is named by the name its type was
    registered under. *)
Record World : Type := mkWorld {
  heap : list Entity;
  store : gmap string (list Document);
  registry : gmap string TypeMeta;
  idmap : gmap (string * ObjectId) addr;
  origin : gmap (string * ObjectId) Document;
  scheduledInsert : list addr;
  scheduledUpdate : list addr;
  scheduledRemove : list addr
}.

Definition set_heap (h : list Entity) (w : World) : World :=
  mkWorld h (store w) (registry w) (idmap w) (origin w)
          (scheduledInsert w) (scheduledUpdate w) (scheduledRemove w).

Definition set_store (s : gmap string (list Document)) (w : World) : World :=
  mkWorld (heap w) s (registry w) (idmap w) (origin w)
          (scheduledInsert w) (scheduledUpdate w) (scheduledRemove w).

Definition set_registry (r : gmap string TypeMeta) (w : World) : World :=
  mkWorld (heap w) (store w) r (idmap w) (origin w)
          (scheduledInsert w) (scheduledUpdate w) (scheduledRemove w).

Definition set_idmap (m : gmap (string * ObjectId) addr) (w : World) : World :=
  mkWorld (heap w) (store w) (registry w) m (origin w)
          (scheduledInsert w) (scheduledUpdate w) (scheduledRemove w).

Definition set_origin (o : gmap (string * ObjectId) Document) (w : World) : World :=
  mkWorld (heap w) (store w) (registry w) (idmap w) o
          (scheduledInsert w) (scheduledUpdate w) (scheduledRemove w).

Definition set_scheduledInsert (l : list addr) (w : World) : World :=
  mkWorld (heap w) (store w) (registry w) (idmap w) (origin w)
          l (scheduledUpdate w) (scheduledRemove w).

Definition set_scheduledUpdate (l : list addr) (w : World) : World :=
  mkWorld (heap w) (store w) (registry w) (idmap w) (origin w)
          (scheduledInsert w) l (scheduledRemove w).

Definition set_scheduledRemove (l : list addr) (w : World) : World :=
  mkWorld (heap w) (store w) (registry w) (idmap w) (origin w)
          (scheduledInsert w) (scheduledUpdate w) l.

(** [NewDocumentManager]: a session over a database, nothing registered,
    nothing tracked. *)
Definition NewDocumentManager (h : list Entity) (db : gmap string (list Document)) : World :=
  mkWorld h db ∅ ∅ ∅ [] [] [].

(** Modelled from the spec: [Register], section 4.2. "Re-registering
    [name] is an error." *)
Definition Register (name : string) (decls : list FieldDecl) (w : World) : World * option error :=
  match registry w !! name with
  | Some _ => (w, Some (ConfigurationError "duplicate registration"))
  | None =>
    match describe name decls with
    | inl e => (w, Some e)
    | inr meta => (set_registry (<[name := meta]> (registry w)) w, None)
    end
  end.

(** Modelled from the spec: [RegisterMany]; "on any failure the
    already-registered entries remain registered". *)
Fixpoint RegisterMany (types : list (string * list FieldDecl)) (w : World) : World * option error :=
  match types with
  | [] => (w, None)
  | (name, decls) :: types' =>
    match Register name decls w with
    | (w', None) => RegisterMany types' w'
    | (w', Some e) => (w', Some e)
    end
  end.

(** ** 6. The driver *)

Definition docs (w : World) (c : string) : list Document := default [] (store w !! c).

Definition find_id (ds : list Document) (id : ObjectId) : option Document :=
  List.find (fun d => N.eqb (d_id d) id) ds.

Definition matches (d : Document) (c : cond) : bool :=
  match c with
  | FieldEq k v => bool_decide (d_fields d !! k = Some (DScalar v))
  | RefEq k id => bool_decide (d_fields d !! k = Some (DRef (Some id)))
  | RefContains k id =>
    match d_fields d !! k with
    | Some (DRefs ids) => bool_decide (id ∈ ids)
    | _ => false
    end
  end.

(** [findMany(filter)] *)
Definition query (ds : list Document) (filter : list cond) : list Document :=
  List.filter (fun d => forallb (matches d) filter) ds.

(** [insert(doc)]: refused when the collection has a document of that
    identifier. *)
Definition driver_insert (c : string) (d : Document) (w : World) : World * option error :=
  match find_id (docs w c) (d_id d) with
  | Some _ => (w, Some (DriverError "duplicate key"))
  | None => (set_store (<[c := docs w c ++ [d]]> (store w)) w, None)
  end.

(** [updateByID(id, doc)] *)
Definition driver_update (c : string) (d : Document) (w : World) : World * option error :=
  match find_id (docs w c) (d_id d) with
  | None => (w, Some NotFound)
  | Some _ =>
    (set_store (<[c := map (fun d' => if N.eqb (d_id d') (d_id d) then d else d') (docs w c)]>
                  (store w)) w, None)
  end.

(** [removeByID(id)] *)
Definition driver_remove (c : string) (id : ObjectId) (w : World) : World * option error :=
  match find_id (docs w c) id with
  | None => (w, Some NotFound)
  | Some _ =>
    (set_store (<[c := List.filter (fun d => negb (N.eqb (d_id d) id)) (docs w c)]> (store w)) w,
     None)
  end.

Definition max_list (l : list N) : N := foldr N.max 0%N l.

Definition all_docs (w : World) : list Document := concat (snd <$> map_to_list (store w)).

(** Identifier generation: an identifier no entity, document or
    identity-map entry has. *)
Definition NewObjectId (w : World) : ObjectId :=
  N.succ (N.max (max_list (ident <$> heap w))
         (N.max (max_list (d_id <$> all_docs w))
                (max_list ((fun kv => snd (fst kv)) <$> map_to_list (idmap w))))).

(** ** 4.3 Unit of work *)

Definition ident_of (w : World) (a : addr) : ObjectId :=
  match heap w !! a with
  | Some e => ident e
  | None => 0%N
  end.

(** Modelled from the spec: document serialization (owning side), section
    4.3. The identity goes to [_id]; a scalar field under its storage
    key; an owning [referenceOne] as the identifier of the referenced
    entity, or null; an owning [referenceMany] as the list of
    identifiers; inverse-side fields are omitted. *)
Definition serialize (w : World) (meta : TypeMeta) (e : Entity) : Document :=
  let scalar_part :=
    omap (fun fk : string * string =>
            (fun v => (snd fk, DScalar v)) <$> scalars e !! fst fk)
         (scalarFields meta) in
  let ref_part :=
    omap (fun fkd : string * string * RelationshipDescriptor =>
            let '(f, k, d) := fkd in
            if owning d then
              Some (k, match kind d with
                       | One =>
                         DRef (match refs e !! f with
                               | Some (RefOne (Some b)) => Some (ident_of w b)
                               | _ => None
                               end)
                       | Many =>
                         DRefs (match refs e !! f with
                                | Some (RefMany bs) => map (ident_of w) bs
                                | _ => []
                                end)
                       end)
            else None)
         (relationships meta) in
  mkDoc (ident e) (list_to_map (scalar_part ++ ref_part)).

(** The entities an entity references through its owning relationships
    whose cascade satisfies [which]. "Inverse-side fields never
    participate in cascade." *)
Definition cascade_targets (which : Cascade -> bool) (meta : TypeMeta) (e : Entity) : list addr :=
  flat_map (fun fkd : string * string * RelationshipDescriptor =>
              let '(f, _, d) := fkd in
              if owning d && which (cascade d) then
                match refs e !! f with
                | Some (RefOne (Some b)) => [b]
                | Some (RefMany bs) => bs
                | _ => []
                end
              else [])
           (relationships meta).

(** In one of the three stage tables. *)
Definition staged (w : World) (a : addr) : bool :=
  bool_decide (a ∈ scheduledInsert w) || bool_decide (a ∈ scheduledUpdate w)
  || bool_decide (a ∈ scheduledRemove w).

(** In the identity map, under its type and identifier. *)
Definition managed (w : World) (a : addr) : bool :=
  match heap w !! a with
  | Some e => bool_decide (idmap w !! (etype e, ident e) = Some a)
  | None => false
  end.

Definition tracked (w : World) (a : addr) : bool := staged w a || managed w a.

Definition set_ident (id : ObjectId) (e : Entity) : Entity :=
  mkEntity (etype e) id (scalars e) (refs e).

(** The identifier an entity is persisted under: its own, or a new one
    when it has none. *)
Definition assign (w : World) (e : Entity) : ObjectId :=
  if N.eqb (ident e) 0 then NewObjectId w else ident e.

(** Staging a new entity: "if its identity is zero, a new identifier is
    assigned immediately"; the entity enters the identity map ("insert is
    exclusive", section 4.5) and [scheduledInsert]. *)
Definition stage_new (a : addr) (e : Entity) (w : World) : World :=
  let id := assign w e in
  let w := set_heap (<[a := set_ident id e]> (heap w)) w in
  let w := set_idmap (match idmap w !! (etype e, id) with
                      | Some _ => idmap w
                      | None => <[(etype e, id) := a]> (idmap w)
                      end) w in
  set_scheduledInsert (scheduledInsert w ++ [a]) w.

(** Modelled from the spec: the cascade of [Persist], section 4.3: "any
    referenced entity not yet tracked is persisted in the same way";
    re-entering for a tracked entity is a no-op, which breaks cycles.
    Each level stages one more entity of the heap, so a fuel of the size
    of the heap, plus one, is never used up. *)
Fixpoint persist_new (fuel : nat) (a : addr) (w : World) : World :=
  match fuel with
  | O => w
  | S fuel' =>
    match heap w !! a with
    | None => w
    | Some e =>
      match registry w !! etype e with
      | None => w
      | Some meta =>
        if tracked w a then w
        else foldl (fun w b => persist_new fuel' b w) (stage_new a e w)
                   (cascade_targets persist meta e)
      end
    end
  end.

(** Modelled from the spec: [Persist], section 4.3. A staged entity is
    left as staged. A managed entity is placed in [scheduledUpdate]: the
    contract of section 9, an update is asked for by persisting again. A
    new entity is staged for insertion. In both cases the persist cascade
    follows. An entity of an unregistered type is not staged. *)
Definition Persist (a : addr) (w : World) : World :=
  match heap w !! a with
  | None => w
  | Some e =>
    match registry w !! etype e with
    | None => w
    | Some meta =>
      let fuel := S (length (heap w)) in
      if staged w a then w
      else if managed w a then
        foldl (fun w' b => persist_new fuel b w')
              (set_scheduledUpdate (scheduledUpdate w ++ [a]) w)
              (cascade_targets persist meta e)
      else persist_new fuel a w
    end
  end.

Definition without (a : addr) (l : list addr) : list addr :=
  List.filter (fun b => negb (Nat.eqb b a)) l.

(** Staging a removal: the entity leaves the other stage tables ("a given
    entity is in at most one"). *)
Definition stage_remove (a : addr) (w : World) : World :=
  let w := set_scheduledInsert (without a (scheduledInsert w)) w in
  let w := set_scheduledUpdate (without a (scheduledUpdate w)) w in
  set_scheduledRemove (scheduledRemove w ++ [a]) w.

(** Modelled from the spec: the cascade of [Remove], section 4.3: "owning
    relationships with [remove] in their cascade propagate removal to
    referenced entities"; removing twice is idempotent. *)
Fixpoint remove_go (fuel : nat) (a : addr) (w : World) : World :=
  match fuel with
  | O => w
  | S fuel' =>
    match heap w !! a with
    | None => w
    | Some e =>
      match registry w !! etype e with
      | None => w
      | Some meta =>
        if bool_decide (a ∈ scheduledRemove w) then w
        else foldl (fun w b => remove_go fuel' b w) (stage_remove a w)
                   (cascade_targets remove meta e)
      end
    end
  end.

Definition Remove (a : addr) (w : World) : World := remove_go (S (length (heap w))) a w.

(** The entities an entity references through owning relationships. *)
Definition owning_targets (w : World) (a : addr) : list addr :=
  match heap w !! a with
  | Some e =>
    match registry w !! etype e with
    | Some meta => cascade_targets (fun _ => true) meta e
    | None => []
    end
  | None => []
  end.

Fixpoint find_index {A : Type} (p : A -> bool) (l : list A) : option nat :=
  match l with
  | [] => None
  | x :: l' => if p x then Some 0 else S <$> find_index p l'
  end.

(** An order of the pending entities: each round takes the first pending
    entity that is [ready] among those still pending, and the first
    pending one when none is (a cycle); the staging order decides between
    entities that are ready together (section 5). *)
Fixpoint order_by (ready : list addr -> addr -> bool) (fuel : nat) (pending : list addr)
    : list addr :=
  match fuel with
  | O => []
  | S fuel' =>
    let i := default 0 (find_index (ready pending) pending) in
    match pending !! i with
    | None => []
    | Some a => a :: order_by ready fuel' (delete i pending)
    end
  end.

(** "An owning reference from A to B means A depends on B for inserts":
    A is ready once no entity it references is pending. *)
Definition ready_insert (w : World) (pending : list addr) (a : addr) : bool :=
  forallb (fun b => Nat.eqb b a || negb (bool_decide (b ∈ pending))) (owning_targets w a).

(** "... and B depends on A for deletes": B is ready once no pending
    entity references it. *)
Definition ready_remove (w : World) (pending : list addr) (b : addr) : bool :=
  forallb (fun a => Nat.eqb a b || negb (bool_decide (b ∈ owning_targets w a))) pending.

Definition insert_order (w : World) : list addr :=
  order_by (ready_insert w) (length (scheduledInsert w)) (scheduledInsert w).

Definition remove_order (w : World) : list addr :=
  order_by (ready_remove w) (length (scheduledRemove w)) (scheduledRemove w).

(** The write of one staged insert. "Successfully written inserts become
    managed; failed ones remain [scheduledInsert]"; the origin snapshot
    is taken on the first successful insert (section 4.5). *)
Definition insert_one (a : addr) (w : World) : World * option error :=
  match heap w !! a with
  | None => (w, Some (IntegrityError "no such entity"))
  | Some e =>
    match registry w !! etype e with
    | None => (w, Some (IntegrityError "unregistered type"))
    | Some meta =>
      let doc := serialize w meta e in
      match driver_insert (etype e) doc w with
      | (w', Some err) => (w', Some err)
      | (w', None) =>
        (set_origin (<[(etype e, ident e) := doc]> (origin w'))
           (set_scheduledInsert (without a (scheduledInsert w')) w'), None)
      end
    end
  end.

Definition update_one (a : addr) (w : World) : World * option error :=
  match heap w !! a with
  | None => (w, Some (IntegrityError "no such entity"))
  | Some e =>
    match registry w !! etype e with
    | None => (w, Some (IntegrityError "unregistered type"))
    | Some meta =>
      let doc := serialize w meta e in
      match driver_update (etype e) doc w with
      | (w', Some err) => (w', Some err)
      | (w', None) =>
        (set_origin (<[(etype e, ident e) := doc]> (origin w'))
           (set_scheduledUpdate (without a (scheduledUpdate w')) w'), None)
      end
    end
  end.

(** The write of one staged removal; the entity leaves the identity map
    (section 4.5). *)
Definition remove_one (a : addr) (w : World) : World * option error :=
  match heap w !! a with
  | None => (w, Some (IntegrityError "no such entity"))
  | Some e =>
    match driver_remove (etype e) (ident e) w with
    | (w', Some err) => (w', Some err)
    | (w', None) =>
      (set_origin (delete (etype e, ident e) (origin w'))
         (set_idmap (delete (etype e, ident e) (idmap w'))
            (set_scheduledRemove (without a (scheduledRemove w')) w')), None)
    end
  end.

(** The writes of a phase, in order, up to the first error: "on any
    driver error, flush aborts and returns the error; already-applied
    writes are not rolled back". *)
Fixpoint run_all (step : addr -> World -> World * option error) (l : list addr) (w : World)
    : World * option error :=
  match l with
  | [] => (w, None)
  | a :: l' =>
    match step a w with
    | (w', None) => run_all step l' w'
    | (w', Some err) => (w', Some err)
    end
  end.

(** Modelled from the spec: [Flush], section 4.3: inserts in dependency
    order, then updates, then removes in reverse dependency order. *)
Definition Flush (w : World) : World * option error :=
  match run_all insert_one (insert_order w) w with
  | (w1, Some err) => (w1, Some err)
  | (w1, None) =>
    match run_all update_one (scheduledUpdate w1) w1 with
    | (w2, Some err) => (w2, Some err)
    | (w2, None) => run_all remove_one (remove_order w2) w2
    end
  end.

(** ** 4.4 Hydrator *)

(** A read either gives a value or fails; it may extend the heap and the
    identity map on the way. *)
Inductive outcome (A : Type) : Type :=
| Ok (a : A)
| Err (e : error).
Arguments Ok {A} _.
Arguments Err {A} _.

Definition M (A : Type) : Type := World -> World * outcome A.

Definition ret {A : Type} (a : A) : M A := fun w => (w, Ok a).

Definition fail {A : Type} (e : error) : M A := fun w => (w, Err e).

Definition bind {A B : Type} (m : M A) (k : A -> M B) : M B :=
  fun w =>
    match m w with
    | (w', Ok a) => k a w'
    | (w', Err e) => (w', Err e)
    end.

Notation "'take' x <- m 'then' k" := (bind m (fun x => k))
  (at level 10, x name, m at level 100, k at level 200).

Fixpoint mapM {A B : Type} (f : A -> M B) (l : list A) : M (list B) :=
  match l with
  | [] => ret []
  | x :: l' => take y <- f x then take ys <- mapM f l' then ret (y :: ys)
  end.

(** The scalar fields of a document, by declared name. *)
Definition scalars_of (meta : TypeMeta) (doc : Document) : gmap string scalar :=
  list_to_map
    (omap (fun fk : string * string =>
             match d_fields doc !! snd fk with
             | Some (DScalar v) => Some (fst fk, v)
             | _ => None
             end)
          (scalarFields meta)).

(** Step 2 of hydration: "create a fresh entity, populate scalar fields,
    register it in the identity map before resolving references". *)
Definition fresh_entity (T : string) (meta : TypeMeta) (doc : Document) : M addr :=
  fun w =>
    let a := length (heap w) in
    let e := mkEntity T (d_id doc) (scalars_of meta doc) ∅ in
    (set_origin (<[(T, d_id doc) := doc]> (origin w))
       (set_idmap (<[(T, d_id doc) := a]> (idmap w))
          (set_heap (heap w ++ [e]) w)), Ok a).

Definition set_refs (r : gmap string ref) (e : Entity) : Entity :=
  mkEntity (etype e) (ident e) (scalars e) r.

(** Assigning a relationship field of the entity at [a]. *)
Definition set_ref (a : addr) (f : string) (r : ref) : M unit :=
  fun w =>
    (set_heap (alter (fun e => set_refs (<[f := r]> (refs e)) e) a (heap w)) w, Ok tt).

(** The owning descriptor of field [g], with its storage key. *)
Definition owning_field (meta : TypeMeta) (g : string)
    : option (string * RelationshipDescriptor) :=
  match List.find (fun fkd : string * string * RelationshipDescriptor =>
                     String.eqb (fst (fst fkd)) g && owning (snd fkd))
                  (relationships meta) with
  | Some (_, k, d) => Some (k, d)
  | None => None
  end.

(** The query of an inverse side, section 4.4: on the target's collection,
    where the owning field [g] points back to the identifier: [g == id]
    when [g] is a [referenceOne], [g contains id] when it is a
    [referenceMany]. It cannot be formed when the target is unregistered
    or has no owning field [g] whose target is [T] (sections 3 and 7). *)
Definition inverse_query (T : string) (id : ObjectId) (d : RelationshipDescriptor) (g : string)
    : M (list Document) :=
  fun w =>
    match registry w !! target d with
    | None => (w, Err (IntegrityError "unregistered target"))
    | Some meta' =>
      match owning_field meta' g with
      | None => (w, Err (ConfigurationError "no owning side"))
      | Some (k, dg) =>
        if negb (String.eqb (target dg) T)
        then (w, Err (ConfigurationError "owning side has another target"))
        else
          let c := match kind dg with
                   | One => RefEq k id
                   | Many => RefContains k id
                   end in
          (w, Ok (query (docs w (target d)) [c]))
      end
    end.

(** Resolving a stored identifier, given the hydration of a document:
    through the identity map, or else by an exact lookup in the target's
    collection; "NotFound during reference resolution is non-fatal". *)
Definition resolve_with (hydrate : string -> Document -> M addr) (T' : string) (id : ObjectId)
    : M (option addr) :=
  fun w =>
    match idmap w !! (T', id) with
    | Some b => (w, Ok (Some b))
    | None =>
      match find_id (docs w T') id with
      | None => (w, Ok None)
      | Some doc' => (take b <- hydrate T' doc' then ret (Some b)) w
      end
    end.

Definition somes {A : Type} (l : list (option A)) : list A := omap id l.

(** Step 3 of hydration for one relationship field of the entity at [a]. *)
Definition resolve_field (hydrate : string -> Document -> M addr) (T : string) (a : addr)
    (doc : Document) (fkd : string * string * RelationshipDescriptor) : M unit :=
  let '(f, k, d) := fkd in
  match mappedBy d with
  | None =>
    match kind d with
    | One =>
      match d_fields doc !! k with
      | Some (DRef (Some id)) =>
        take r <- resolve_with hydrate (target d) id then set_ref a f (RefOne r)
      | _ => set_ref a f (RefOne None)
      end
    | Many =>
      match d_fields doc !! k with
      | Some (DRefs ids) =>
        take rs <- mapM (resolve_with hydrate (target d)) ids then
        set_ref a f (RefMany (somes rs))
      | _ => set_ref a f (RefMany [])
      end
    end
  | Some g =>
    take ds <- inverse_query T (d_id doc) d g then
    take bs <- mapM (hydrate (target d)) ds then
    set_ref a f (match kind d with
                 | Many => RefMany bs
                 | One => RefOne (head bs)
                 end)
  end.

(** Modelled from the spec: hydration of one document into an entity of
    type [T], section 4.4, steps 1 to 3. Every level below the first
    registers a stored document that was not in the identity map; the
    fuel bounds the depth by the number of stored documents, plus one,
    and a read that uses it up fails. *)
Fixpoint hydrate (fuel : nat) (T : string) (doc : Document) : M addr :=
  fun w =>
    match idmap w !! (T, d_id doc) with
    | Some a => (w, Ok a)
    | None =>
      match fuel with
      | O => (w, Err (IntegrityError "hydration does not end"))
      | S fuel' =>
        match registry w !! T with
        | None => (w, Err (UsageError "unregistered type"))
        | Some meta =>
          (take a <- fresh_entity T meta doc then
           take _u <- mapM (resolve_field (hydrate fuel') T a doc) (relationships meta) then
           ret a) w
        end
      end
    end.

Definition fuel_of (w : World) : nat := S (length (all_docs w)).

(** Modelled from the spec: [FindID], "exact id lookup into the entity's
    collection"; the type of [out] is given by its registered name. *)
Definition FindID (T : string) (id : ObjectId) : M addr :=
  fun w =>
    match registry w !! T with
    | None => (w, Err (UsageError "unregistered type"))
    | Some _ =>
      match find_id (docs w T) id with
      | None => (w, Err NotFound)
      | Some doc => hydrate (fuel_of w) T doc w
      end
    end.

(** Modelled from the spec: [FindOne], "first match". *)
Definition FindOne (T : string) (filter : list cond) : M addr :=
  fun w =>
    match registry w !! T with
    | None => (w, Err (UsageError "unregistered type"))
    | Some _ =>
      match query (docs w T) filter with
      | [] => (w, Err NotFound)
      | doc :: _ => hydrate (fuel_of w) T doc w
      end
    end.

(** Modelled from the spec: [FindBy], "many matches". *)
Definition FindBy (T : string) (filter : list cond) : M (list addr) :=
  fun w =>
    match registry w !! T with
    | None => (w, Err (UsageError "unregistered type"))
    | Some _ => mapM (hydrate (fuel_of w) T) (query (docs w T) filter) w
    end.

(** Modelled from the spec: [FindAll]. *)
Definition FindAll (T : string) : M (list addr) := FindBy T [].

End mongo.

(* ===================================================================== *)
(** * The test-suite of package mongo: src/mongo/mongo_test.go            *)
(* ===================================================================== *)

(** The types the test-suite declares and the steps of its tests, as
    scripts over the manager. Declarations are copied field by field:
    [bson:"_id,omitempty"] is the storage key [_id], [bson:"Name"] the
    storage key "Name", the [odm] annotations are kept as written. *)
Module mongo_test.
Import mongo.
Local Open Scope list_scope.

Definition ID : FieldDecl := mkDecl "ID" (Some "_id") None.

Definition Post : list FieldDecl :=
  [ ID; mkDecl "Title" None None; mkDecl "Body" None None; mkDecl "Created" None None ].

Definition Role : list FieldDecl :=
  [ ID; mkDecl "Title" None None; mkDecl "Users" None None ].

Definition User : list FieldDecl :=
  [ ID; mkDecl "Name" None None; mkDecl "Email" None None;
    mkDecl "Posts" None (Some "referenceMany(targetDocument:Post,cascade:all)");
    mkDecl "Role" None (Some "referenceOne(targetDocument:Role,cascade:Persist)") ].

Definition Client : list FieldDecl :=
  [ ID; mkDecl "Name" (Some "Name") None;
    mkDecl "Projects" (Some "Projects") (Some "referenceMany(targetDocument:Project)") ].

Definition Employee : list FieldDecl :=
  [ ID; mkDecl "Name" (Some "Name") None;
    mkDecl "Projects" None (Some "referenceMany(targetDocument:Project,mappedBy:Employee)") ].

Definition Project : list FieldDecl :=
  [ ID; mkDecl "Title" (Some "Title") None;
    mkDecl "Employee" (Some "Employee") (Some "referenceOne(targetDocument:Employee)");
    mkDecl "Client" None (Some "referenceOne(targetDocument:Client,mappedBy:Projects)") ].

Definition Author : list FieldDecl :=
  [ ID; mkDecl "Name" (Some "Name") None;
    mkDecl "Articles" None (Some "referenceMany(targetDocument:Article,mappedBy:Author)") ].

Definition Tag : list FieldDecl :=
  [ ID; mkDecl "Name" (Some "Name") None;
    mkDecl "Articles" None (Some "referenceMany(targetDocument:Article,mappedBy:Tags)") ].

Definition Article : list FieldDecl :=
  [ ID; mkDecl "Title" (Some "Title") None;
    mkDecl "Author" None (Some "referenceOne(targetDocument:Author)");
    mkDecl "Tags" None (Some "referenceMany(targetDocument:Tag,cascade:Persist)") ].

(** An entity literal. *)
Definition entity (T : string) (id : ObjectId) (ss : list (string * scalar))
    (rs : list (string * ref)) : Entity :=
  mkEntity T id (list_to_map ss) (list_to_map rs).

(** A script step that returns an error, chained: the first error ends
    the script. *)
Definition and_then (step : World -> World * option error)
    (rest : World -> World * option error) (w : World) : World * option error :=
  match step w with
  | (w', None) => rest w'
  | (w', Some e) => (w', Some e)
  end.

Definition done_ (w : World) : World * option error := (w, None).

(** *** TestDocumentManager_Persist (mongo_test.go:37-55) *)

(** [user] at 0 with an identifier of its own, [post] at 1, [role] at 2. *)
Definition persist_heap : list Entity :=
  [ entity "User" 100 [("Name", SStr "John"); ("Email", SStr "john@example.com")]
           [("Posts", RefMany [1]); ("Role", RefOne (Some 2))];
    entity "Post" 0 [("Title", SStr "First Post Title"); ("Body", SStr "First Post Body");
                     ("Created", SInt 1480000000)] [];
    entity "Role" 0 [("Title", SStr "Editor")] [] ].

(** [dm.Register], three times. *)
Definition register_users : World * option error :=
  and_then (Register "User" User)
    (and_then (Register "Post" Post) (Register "Role" Role))
    (NewDocumentManager persist_heap ∅).

(** [dm.Persist(user)], [dm.Flush()]. *)
Definition persist_user : World * option error :=
  Flush (Persist 0 (fst register_users)).

(** [SubTestDocumentManager_Remove] (mongo_test.go:83-100), from
    [dm.Remove(user)] on: the three lookups after the flush. *)
Definition remove_user : outcome addr * outcome addr * outcome addr :=
  let w := fst persist_user in
  let w := fst (Flush (Remove 0 w)) in
  (snd (FindID "User" (ident_of (fst persist_user) 0) w),
   snd (FindID "Post" (ident_of (fst persist_user) 1) w),
   snd (FindID "Role" (ident_of (fst persist_user) 2) w)).

(** *** TestMappedBy (mongo_test.go:121-151) *)

(** [employee] at 0, [project1] at 1, [project2] at 2, [client1] at 3,
    [client2] at 4. *)
Definition mappedby_heap : list Entity :=
  [ entity "Employee" 200 [("Name", SStr "John")] [];
    entity "Project" 0 [("Title", SStr "First project")] [("Employee", RefOne (Some 0))];
    entity "Project" 0 [("Title", SStr "Second project")] [("Employee", RefOne (Some 0))];
    entity "Client" 0 [("Name", SStr "Example")] [("Projects", RefMany [1; 2])];
    entity "Client" 0 [("Name", SStr "Acme")] [] ].

Definition register_projects : World * option error :=
  and_then (Register "Employee" Employee)
    (and_then (Register "Project" Project) (Register "Client" Client))
    (NewDocumentManager mappedby_heap ∅).

Definition persist_projects : World * option error :=
  Flush (Persist 4 (Persist 3 (Persist 2 (Persist 1 (Persist 0 (fst register_projects)))))).

(** *** Example (mongo_test.go:187-351) *)

(** [author] at 0, the tag "go" at 1, [programmingTag] at 2, [article1]
    at 3, [article2] at 4. *)
Definition example_heap : list Entity :=
  [ entity "Author" 0 [("Name", SStr "John Doe")] [];
    entity "Tag" 0 [("Name", SStr "go")] [];
    entity "Tag" 0 [("Name", SStr "programming")] [];
    entity "Article" 0 [("Title", SStr "Go tiger!")]
           [("Author", RefOne (Some 0)); ("Tags", RefMany [1; 2])];
    entity "Article" 0 [("Title", SStr "MongoDB")]
           [("Author", RefOne (Some 0)); ("Tags", RefMany [2])] ].

(** [RegisterMany]; the declaration of [Article] is a parameter, for the
    variant below. *)
Definition register_articles_as (article : list FieldDecl) : World * option error :=
  RegisterMany [("Article", article); ("Author", Author); ("Tag", Tag)]
    (NewDocumentManager example_heap ∅).

(** Three [Persist], [Flush]. *)
Definition persist_articles_as (article : list FieldDecl) : World * option error :=
  Flush (Persist 4 (Persist 3 (Persist 0 (fst (register_articles_as article))))).

Definition persist_articles : World * option error := persist_articles_as Article.

(** [FindBy({Title: "MongoDB"})], [Remove(articles[0])], [Flush]. *)
Definition removed_article_as (article : list FieldDecl) : World * option error :=
  let w := fst (persist_articles_as article) in
  match FindBy "Article" [FieldEq "Title" (SStr "MongoDB")] w with
  | (w, Ok (a :: _)) => Flush (Remove a w)
  | (w, Ok []) => (w, Some NotFound)
  | (w, Err e) => (w, Some e)
  end.

(** The error of that flush, and the lookups of the article and of the
    tag "programming" after it. *)
Definition remove_article_as (article : list FieldDecl)
    : option error * outcome (list addr) * outcome addr :=
  let '(w, err) := removed_article_as article in
  (err,
   snd (FindBy "Article" [FieldEq "Title" (SStr "MongoDB")] w),
   snd (FindOne "Tag" [FieldEq "Name" (SStr "programming")] w)).

Definition remove_article : option error * outcome (list addr) * outcome addr :=
  remove_article_as Article.

(** [Article] with the tags under [cascade:all]. *)
Definition Article_cascade_all : list FieldDecl :=
  [ ID; mkDecl "Title" (Some "Title") None;
    mkDecl "Author" None (Some "referenceOne(targetDocument:Author)");
    mkDecl "Tags" None (Some "referenceMany(targetDocument:Tag,cascade:all)") ].

(** A second session over the database a script has left: nothing of the
    first session's memory or identity map is kept. A read in the session
    that persisted an entity gives that entity as the session holds it
    (step 1 of hydration), with the relationship fields the program left
    in it; the test-suite reads inverse sides after persisting
    (mongo_test.go:146, 301), and they are read here in a second session,
    where every entity is hydrated from its document. *)
Definition reopen (types : list (string * list FieldDecl)) (w : World) : World * option error :=
  RegisterMany types (NewDocumentManager [] (store w)).

(** A second session over the database of [Example]. *)
Definition articles_again : World * option error :=
  reopen [("Article", Article); ("Author", Author); ("Tag", Tag)] (fst persist_articles).

(** The document of the author, as [Example] shows it. *)
Definition author_doc : Document :=
  mkDoc 1 (list_to_map [("Name", DScalar (SStr "John Doe"))]).

(** In that session: the author is hydrated, then all articles are read. *)
Definition author_read : World * outcome nat :=
  hydrate (fuel_of (fst articles_again)) "Author" author_doc (fst articles_again).

Definition articles_read : World * outcome (list nat) :=
  FindAll "Article" (fst author_read).

(** A second session over the database of [TestMappedBy], and
    [FindOne({Name: "John"})] on the employees in it. *)
Definition projects_again : World * option error :=
  reopen [("Employee", Employee); ("Project", Project); ("Client", Client)]
         (fst persist_projects).

Definition employee_read : World * outcome nat :=
  FindOne "Employee" [FieldEq "Name" (SStr "John")] (fst projects_again).

(** A second session over the database of [TestDocumentManager_Persist],
    and [FindID] of the user in it. *)
Definition users_again : World * option error :=
  reopen [("User", User); ("Post", Post); ("Role", Role)] (fst persist_user).

Definition user_read : World * outcome nat :=
  FindID "User" 100 (fst users_again).

(** What the relationship field [f] of the entity at [a] holds. *)
Definition field_of (w : World) (a : nat) (f : string) : option ref :=
  match heap w !! a with
  | Some e => refs e !! f
  | None => None
  end.

End mongo_test.

(* ===================================================================== *)
(** * Properties of package db                                            *)
(* ===================================================================== *)
Module db_spec.
Import gostrings reflect db.

(** ** Splitting on a one-byte separator *)

(** [strings.Join] *)
Fixpoint Join (a : list string) (sep : string) : string :=
  match a with
  | [] => ""
  | [x] => x
  | x :: a' => x ++ sep ++ Join a' sep
  end.

Fixpoint occurs (c : ascii) (s : string) : bool :=
  match s with
  | EmptyString => false
  | String d s' => Ascii.eqb c d || occurs c s'
  end.

Lemma append_cons c (s t : string) : String c s ++ t = String c (s ++ t).
Proof. reflexivity. Qed.

Lemma append_nil_l (t : string) : "" ++ t = t.
Proof. reflexivity. Qed.

Lemma append_nil_r s : s ++ "" = s.
Proof. induction s as [|c s IH]; [done|]. by rewrite append_cons, IH. Qed.

Lemma append_assoc_s (a b c : string) : (a ++ b) ++ c = a ++ (b ++ c).
Proof. induction a as [|d a IH]; [done|]. by rewrite !append_cons, IH. Qed.

Lemma occurs_app c a b : occurs c (a ++ b) = occurs c a || occurs c b.
Proof.
  induction a as [|d a IH]; [done|].
  rewrite append_cons. simpl. rewrite IH. by rewrite orb_assoc.
Qed.

Lemma split_go_nonempty sep k acc s : split_go sep k acc s <> [].
Proof.
  revert k acc. induction s as [|c s IH]; intros k acc; cbn [split_go]; [discriminate|].
  destruct k; [|apply IH]. destruct (String.prefix sep (String c s)); [discriminate|apply IH].
Qed.

Lemma prefix_one c d s : String.prefix (String c "") (String d s) = Ascii.eqb c d.
Proof.
  simpl. destruct (ascii_dec c d) as [->|Hne].
  - rewrite Ascii.eqb_refl. by destruct s.
  - apply Ascii.eqb_neq in Hne. by rewrite Hne.
Qed.

Lemma Join_cons x a sep : a <> [] -> Join (x :: a) sep = x ++ sep ++ Join a sep.
Proof. by destruct a. Qed.

(** Joining the pieces with the separator gives the string back. *)
Lemma split_go_join c acc s :
  Join (split_go (String c "") 0 acc s) (String c "") = acc ++ s.
Proof.
  revert acc. induction s as [|d s IH]; intros acc.
  - simpl. by rewrite append_nil_r.
  - cbn [split_go]. rewrite prefix_one. destruct (Ascii.eqb c d) eqn:E.
    + apply Ascii.eqb_eq in E as <-. cbn [String.length Nat.sub].
      rewrite Join_cons by apply split_go_nonempty.
      by rewrite IH, append_nil_l.
    + rewrite IH, append_assoc_s. reflexivity.
Qed.

(** No piece holds the separator. *)
Lemma split_go_free c acc s :
  occurs c acc = false ->
  Forall (fun piece => occurs c piece = false) (split_go (String c "") 0 acc s).
Proof.
  revert acc. induction s as [|d s IH]; intros acc Hacc.
  - simpl. by constructor.
  - cbn [split_go]. rewrite prefix_one. destruct (Ascii.eqb c d) eqn:E.
    + cbn [String.length Nat.sub]. constructor; [done|by apply IH].
    + apply IH. rewrite occurs_app, Hacc. simpl. by rewrite E.
Qed.

Lemma Split_comma_join data : Join (Split data ",") "," = data.
Proof. unfold Split. by rewrite split_go_join. Qed.

Lemma Split_comma_free data :
  Forall (fun piece => occurs ","%char piece = false) (Split data ",").
Proof. unfold Split. by apply split_go_free. Qed.

(** ** ASCII case *)

Lemma lower_byte_ascii c :
  (utf8.byte (lower_byte c) <? utf8.RuneSelf)%Z = true ->
  (utf8.byte c <? utf8.RuneSelf)%Z = true.
Proof. destruct c as [[] [] [] [] [] [] [] []]; vm_compute; congruence. Qed.

Lemma lower_ascii_isASCII s : isASCII (lower_ascii s) = true -> isASCII s = true.
Proof.
  induction s as [|c s IH]; simpl; [done|].
  intros [Hc Hs]%andb_true_iff. by rewrite (lower_byte_ascii c Hc), IH.
Qed.

Lemma ToLower_fold ul s t :
  isASCII t = true -> lower_ascii s = t -> ToLower ul s = t.
Proof.
  intros Ht <-. unfold ToLower. by rewrite (lower_ascii_isASCII s Ht).
Qed.

(** ** BuildFromString *)
Section BuildFromString.
Variable ul : string -> string.

  (** The item sets [PersistZeroValue]. *)
Definition names_persistzerovalue (item : string) : bool :=
    String.eqb (TrimSpace (ToLower ul item)) "persistzerovalue".

  (** The item sets [ColumnName]. *)
Definition names_column (item : string) : bool := HasPrefix item "column:".

Definition column_of (item : string) : string := TrimSpace (TrimPrefix item "column:").

  (** Equality up to the case of ASCII letters. *)
Definition EqualFold_ascii (s t : string) : Prop := lower_ascii s = lower_ascii t.

Lemma BuildFromString_step_tag tag builder data :
    fst (BuildFromString_step ul (tag, builder) data) =
    let item := TrimSpace data in
    mkTag (if names_column item then column_of item else ColumnName tag)
          (names_persistzerovalue item || PersistZeroValue tag).
Proof.
    unfold BuildFromString_step, names_column, names_persistzerovalue, column_of.
    cbn zeta. destruct tag as [cn pz].
    destruct (HasPrefix (TrimSpace data) "column:");
      destruct (String.eqb _ "persistzerovalue"); reflexivity.
Qed.

Lemma BuildFromString_fold datas : forall tag builder,
    fst (foldl (BuildFromString_step ul) (tag, builder) datas) =
    let items := map TrimSpace datas in
    mkTag (default (ColumnName tag) (column_of <$> last (List.filter names_column items)))
          (existsb names_persistzerovalue items || PersistZeroValue tag).
Proof.
    induction datas as [|data datas IH]; intros tag builder.
    - by destruct tag.
    - cbn [foldl]. destruct (BuildFromString_step ul (tag, builder) data) as [tag' builder'] eqn:E.
      rewrite IH. apply (f_equal fst) in E. rewrite BuildFromString_step_tag in E.
      cbn [fst] in E. subst tag'. cbn zeta. cbn [map List.filter existsb ColumnName PersistZeroValue].
      f_equal.
      + destruct (names_column (TrimSpace data)); [|done].
        rewrite last_cons. by destruct (last _).
      + by rewrite orb_assoc, (orb_comm (existsb _ _)).
Qed.

  (** The tag does not depend on the logger. *)
Lemma BuildFromString_logger builder data :
    BuildFromString ul builder data = BuildFromString ul (mkBuilder None) data.
Proof.
    unfold BuildFromString, BuildFromString_logged. by rewrite !BuildFromString_fold.
Qed.

Lemma names_persistzerovalue_fold item :
    EqualFold_ascii item "persistzerovalue" -> names_persistzerovalue item = true.
Proof.
    unfold EqualFold_ascii, names_persistzerovalue. intros H.
    rewrite (ToLower_fold ul item "persistzerovalue"); [reflexivity|reflexivity|exact H].
Qed.

  (** C10. [BuildFromString] is a total function into [SQLStructTag] (no
      error result, no panic). It splits its input on commas (joining the
      pieces with commas gives the input back and no piece holds a comma)
      and trims each piece; [PersistZeroValue] is set exactly when some
      trimmed item lower-cases to "persistzerovalue", in particular by
      every item equal to "persistzerovalue" up to the case of its
      letters; [ColumnName] is the trimmed remainder of the last item
      that starts with "column:", and empty when there is none. *)
Theorem BuildFromString_spec builder data :
    let pieces := Split data "," in
    let items := map TrimSpace pieces in
    let tag := BuildFromString ul builder data in
    Join pieces "," = data /\
    Forall (fun piece => occurs ","%char piece = false) pieces /\
    PersistZeroValue tag = existsb names_persistzerovalue items /\
    (forall item, In item items -> EqualFold_ascii item "persistzerovalue" ->
       PersistZeroValue tag = true) /\
    ColumnName tag = default "" (column_of <$> last (List.filter names_column items)).
Proof.
    cbn zeta. split; [apply Split_comma_join|]. split; [apply Split_comma_free|].
    unfold BuildFromString, BuildFromString_logged. rewrite BuildFromString_fold.
    cbn zeta. cbn [PersistZeroValue ColumnName]. rewrite orb_false_r.
    split; [done|]. split; [|done].
    intros item Hin Hfold. apply existsb_exists. exists item. split; [done|].
    by apply names_persistzerovalue_fold.
Qed.
End BuildFromString.

(** The theorem at the tag [" Column:a , column: b ,PersistZeroValue , column:c d "]:
    the first item has the wrong case for a column, the last column wins. *)
Lemma BuildFromString_spec_witness :
  In "PersistZeroValue" (map TrimSpace (Split " Column:a , column: b ,PersistZeroValue , column:c d " ",")) /\
  EqualFold_ascii "PersistZeroValue" "persistzerovalue" /\
  BuildFromString lower_ascii (mkBuilder None)
    " Column:a , column: b ,PersistZeroValue , column:c d " = mkTag "c d" true.
Proof.
  pose proof (BuildFromString_spec lower_ascii (mkBuilder None)
    " Column:a , column: b ,PersistZeroValue , column:c d ") as H.
  cbn zeta in H. destruct H as (_ & _ & _ & Hpz & Hcol).
  assert (Hin : In "PersistZeroValue"
    (map TrimSpace (Split " Column:a , column: b ,PersistZeroValue , column:c d " ","))).
  { vm_compute. tauto. }
  split; [exact Hin|]. split; [reflexivity|].
  specialize (Hpz _ Hin eq_refl).
  destruct (BuildFromString _ _ _) as [cn pz]. cbn in Hpz, Hcol. subst pz. f_equal.
  rewrite Hcol. vm_compute. reflexivity.
Defined.

(** ** CreateTagMapperFunc *)
Section CreateTagMapperFunc.
Variable ul : string -> string.

(** The tag name looked up: the first of [tagname], and "sql" by default. *)
Definition first_tagname (tagname : list string) : string :=
  hd "" (match tagname with [] => ["sql"] | _ => tagname end).

(** The column value of a field's tag. *)
Definition column_value (tn : string) (f : StructField value) : string :=
  ColumnName (BuildFromString ul (mkBuilder None) (Get (Tag f) tn)).

(** The string under which a field enters the map. *)
Definition key (tn : string) (f : StructField value) : string :=
  if String.eqb (column_value tn f) "" then Name f else column_value tn f.

(** The struct an argument is or points to. *)
Definition struct_of (v : value) : option (list (StructField value)) :=
  match v with
  | Struct fields => Some fields
  | Ptr (Some (Struct fields)) => Some fields
  | _ => None
  end.

Definition apply_mapper (r : mapper_result) (s : string) : option string :=
  match r with
  | Mapper f => Some (f s)
  | MapperError _ => None
  end.

Lemma tag_mapper_step_key tn (m : gmap string string) f :
  tag_mapper_step ul tn m f = <[key tn f := Name f]> m.
Proof.
  unfold tag_mapper_step, key, column_value. cbn zeta.
  by destruct (String.eqb _ "").
Qed.

(** After the loop a string is bound to the name of the last field
    entered under it. *)
Lemma tag_mapper_fold tn fields : forall (m : gmap string string) s,
  foldl (tag_mapper_step ul tn) m fields !! s =
  match last (List.filter (fun f => String.eqb (key tn f) s) fields) with
  | Some f => Some (Name f)
  | None => m !! s
  end.
Proof.
  induction fields as [|f fields IH]; intros m s; [done|].
  cbn [foldl List.filter]. rewrite IH, tag_mapper_step_key.
  destruct (String.eqb (key tn f) s) eqn:E.
  - apply String.eqb_eq in E. rewrite last_cons.
    destruct (last _); [done|]. subst s. by rewrite lookup_insert_eq.
  - apply String.eqb_neq in E. destruct (last _); [done|].
    by rewrite lookup_insert_ne.
Qed.

Lemma CreateTagMapperFunc_struct v tagname fields :
  struct_of v = Some fields ->
  CreateTagMapperFunc ul v tagname =
  Mapper (fun s =>
    match foldl (tag_mapper_step ul (first_tagname tagname)) ∅ fields !! s with
    | Some r => r
    | None => s
    end).
Proof.
  unfold struct_of, CreateTagMapperFunc, first_tagname.
  destruct v as [| | | | |fs|[[]|]]; try discriminate; by intros [= ->].
Qed.

Lemma CreateTagMapperFunc_not_struct v tagname :
  struct_of v = None ->
  CreateTagMapperFunc ul v tagname = MapperError (StructExpected v).
Proof.
  unfold struct_of, CreateTagMapperFunc.
  by destruct v as [| | | | |fs|[[]|]].
Qed.

(** The transform, string by string. *)
Lemma CreateTagMapperFunc_apply v tagname fields s :
  struct_of v = Some fields ->
  apply_mapper (CreateTagMapperFunc ul v tagname) s =
  Some (match last (List.filter (fun f => String.eqb (key (first_tagname tagname) f) s) fields) with
        | Some f => Name f
        | None => s
        end).
Proof.
  intros Hv. rewrite (CreateTagMapperFunc_struct _ _ _ Hv). cbn [apply_mapper].
  rewrite tag_mapper_fold, lookup_empty. by destruct (last _).
Qed.

Lemma filter_last_at {A} (p : A -> bool) (l : list A) i x :
  l !! i = Some x -> p x = true ->
  (forall j y, i < j -> l !! j = Some y -> p y = false) ->
  last (List.filter p l) = Some x.
Proof.
  revert i. induction l as [|a l IH]; intros i Hi Hp Hlater; [done|].
  destruct i as [|i]; cbn in Hi.
  - injection Hi as ->. cbn [List.filter]. rewrite Hp, last_cons.
    replace (List.filter p l) with (@nil A); [done|].
    symmetry. clear IH. induction l as [|b l IHl]; [done|].
    cbn [List.filter]. rewrite (Hlater 1 b); [|lia|done].
    apply IHl. intros j y Hj Hy. destruct j as [|j]; [lia|].
    apply (Hlater (S (S j)) y); [lia|done].
  - cbn [List.filter].
    assert (Hl : last (List.filter p l) = Some x).
    { apply (IH i); [done..|]. intros j y Hj Hy. apply (Hlater (S j) y); [lia|done]. }
    destruct (p a); [|done]. by rewrite last_cons, Hl.
Qed.

Lemma filter_none {A} (p : A -> bool) (l : list A) :
  (forall y, y ∈ l -> p y = false) -> List.filter p l = [].
Proof.
  induction l as [|a l IH]; intros H; [done|].
  cbn [List.filter]. rewrite (H a) by left. apply IH. intros y Hy. apply H. by right.
Qed.

(** C9, as the code has it. [CreateTagMapperFunc] fails exactly when its
    argument is neither a struct nor a pointer to one (a nil pointer points
    to none). The transform it returns maps the key of a field (the column
    value of its tag when that is not empty, its declared name otherwise)
    to that field's declared name, provided no later field of the struct
    has the same key: the map keeps the last field entered under a key. It
    is the identity on every string that is no field's key. *)
Theorem CreateTagMapperFunc_spec v tagname :
  let tn := first_tagname tagname in
  match CreateTagMapperFunc ul v tagname with
  | MapperError e => struct_of v = None /\ e = StructExpected v
  | Mapper transform =>
    exists fields, struct_of v = Some fields /\
      (forall i f, fields !! i = Some f ->
         (forall j g, i < j -> fields !! j = Some g -> key tn g <> key tn f) ->
         (column_value tn f <> "" -> transform (column_value tn f) = Name f) /\
         (column_value tn f = "" -> transform (Name f) = Name f)) /\
      (forall s, (forall f, f ∈ fields -> key tn f <> s) -> transform s = s)
  end.
Proof.
  cbn zeta. destruct (struct_of v) as [fields|] eqn:Hv.
  2:{ by rewrite CreateTagMapperFunc_not_struct. }
  pose proof (CreateTagMapperFunc_apply v tagname fields) as Happ.
  rewrite (CreateTagMapperFunc_struct _ _ _ Hv) in *. cbn [apply_mapper] in Happ.
  exists fields. split; [done|]. split.
  - intros i f Hi Hlater.
    assert (Hkey : forall s, key (first_tagname tagname) f = s ->
      match foldl (tag_mapper_step ul (first_tagname tagname)) ∅ fields !! s with
      | Some r => r | None => s end = Name f).
    { intros s Hs. specialize (Happ s Hv). injection Happ as ->.
      rewrite (filter_last_at _ fields i f); [done|done| |].
      - by apply String.eqb_eq.
      - intros j g Hj Hg. apply String.eqb_neq. rewrite <- Hs. by apply (Hlater j). }
    split; intros Hc; apply Hkey; unfold key.
    + apply String.eqb_neq in Hc. by rewrite Hc.
    + by rewrite Hc.
  - intros s Hs. specialize (Happ s Hv). injection Happ as ->.
    rewrite filter_none; [done|]. intros f Hf. apply String.eqb_neq. by apply Hs.
Qed.
End CreateTagMapperFunc.

(** A struct with a tagged field, an untagged one and one that only asks
    for zero values to be kept:
    [struct { Bar int `sql:"column:bar"`; Baz string; Qux bool `sql:"persistzerovalue"` }] *)
Definition Foo : list (StructField value) :=
  [ mkField "Bar" "" [("sql", "column:bar")] (Int 0);
    mkField "Baz" "" [] (Str "");
    mkField "Qux" "" [("sql", "persistzerovalue")] (Bool false) ].

(** Two fields tagged with one column:
    [struct { A int `sql:"column:x"`; B int `sql:"column:x"` }] *)
Definition SharedColumn : list (StructField value) :=
  [ mkField "A" "" [("sql", "column:x")] (Int 0);
    mkField "B" "" [("sql", "column:x")] (Int 0) ].

(** The theorem at [&Foo{}]: "bar" goes to "Bar", "Baz" to itself, and
    "bar2", which is no key, to itself. *)
Lemma CreateTagMapperFunc_spec_witness :
  apply_mapper (CreateTagMapperFunc lower_ascii (Ptr (Some (Struct Foo))) []) "bar" = Some "Bar" /\
  apply_mapper (CreateTagMapperFunc lower_ascii (Ptr (Some (Struct Foo))) []) "Baz" = Some "Baz" /\
  apply_mapper (CreateTagMapperFunc lower_ascii (Ptr (Some (Struct Foo))) []) "bar2" = Some "bar2".
Proof.
  pose proof (CreateTagMapperFunc_spec lower_ascii (Ptr (Some (Struct Foo))) []) as H.
  cbn zeta in H.
  destruct (CreateTagMapperFunc lower_ascii (Ptr (Some (Struct Foo))) []) as [tr|e].
  2:{ destruct H as [H _]. discriminate H. }
  destruct H as (fields & [= <-] & Hkeys & Hid). cbn [apply_mapper].
  assert (Hlater : forall i f, Foo !! i = Some f ->
    forall j g, i < j -> Foo !! j = Some g ->
    key lower_ascii (first_tagname []) g <> key lower_ascii (first_tagname []) f).
  { intros i f Hi j g Hj Hg.
    destruct i as [|[|[|i]]]; try discriminate Hi;
      destruct j as [|[|[|j]]]; try discriminate Hg; try lia;
      injection Hi as <-; injection Hg as <-; vm_compute; discriminate. }
  split; [|split].
  - destruct (Hkeys 0 _ eq_refl (Hlater 0 _ eq_refl)) as [Hcol _].
    f_equal. apply Hcol. vm_compute. discriminate.
  - destruct (Hkeys 1 _ eq_refl (Hlater 1 _ eq_refl)) as [_ Hname].
    f_equal. apply Hname. vm_compute. reflexivity.
  - f_equal. apply Hid. intros f Hf.
    apply list_elem_of_In in Hf. cbn in Hf.
    destruct Hf as [<-|[<-|[<-|[]]]]; vm_compute; discriminate.
Defined.

(** The claim as worded — a column name equal to a field's column value
    goes to that field's name — fails where two fields share a column:
    field [A] has column value "x", and "x" goes to "B". *)
Lemma CreateTagMapperFunc_shared_column :
  SharedColumn !! 0 = Some (mkField "A" "" [("sql", "column:x")] (Int 0)) /\
  column_value lower_ascii "sql" (mkField "A" "" [("sql", "column:x")] (Int 0)) = "x" /\
  apply_mapper (CreateTagMapperFunc lower_ascii (Struct SharedColumn) []) "x" = Some "B" /\
  ~ (forall (v : value) (fields : list (StructField value)) (f : StructField value),
       struct_of v = Some fields -> f ∈ fields ->
       column_value lower_ascii "sql" f <> "" ->
       apply_mapper (CreateTagMapperFunc lower_ascii v [])
         (column_value lower_ascii "sql" f) = Some (Name f)).
Proof.
  split; [reflexivity|]. split; [vm_compute; reflexivity|].
  split; [vm_compute; reflexivity|].
  intros H.
  specialize (H (Struct SharedColumn) SharedColumn
                (mkField "A" "" [("sql", "column:x")] (Int 0)) eq_refl).
  assert (Hin : mkField "A" "" [("sql", "column:x")] (Int 0) ∈ SharedColumn) by left.
  specialize (H Hin). vm_compute in H.
  assert (Some "B" = Some "A") as [=]. apply H. discriminate.
Qed.

(** ** MapRowToStruct *)

(** A scanner over one row, as [sql.Row] is: it stores the values of the
    row, in order, through its destinations, and fails when their number
    is not that of the row. *)
Record Row : Type := mkRow { values : list value }.

Global Instance Row_Scanner : Scanner Row := fun row dests =>
  if (length (values row) =? length dests)%nat
  then (row, values row, None)
  else (row, dests, Some (ScanError "wrong number of destination arguments")).

(** The transform applied to the columns: the first of [transforms], and
    [noop] when there is none. *)
Definition transform_of (transforms : list (string -> string)) : string -> string :=
  hd noop (match transforms with [] => [noop] | _ => transforms end).

(** The destination of a (transformed) column. *)
Definition dest_of (fields : list (StructField value)) (column : string) : dest :=
  match FieldByName fields column with
  | Some i => FieldAddr i
  | None => Discard
  end.

(** The column names no field. *)
Definition missing (fields : list (StructField value)) (column : string) : Prop :=
  FieldByName fields column = None.

(** The column names a field that cannot be set (an unexported one). *)
Definition unsettable (fields : list (StructField value)) (column : string) : Prop :=
  exists i f, FieldByName fields column = Some i /\ fields !! i = Some f /\ CanSet f = false.

Lemma FieldByName_from_lookup fields name : forall j i,
  FieldByName_from j fields name = Some i ->
  j <= i /\ exists f, fields !! (i - j) = Some f /\ Name f = name.
Proof.
  induction fields as [|f fields IH]; intros j i; cbn [FieldByName_from]; [done|].
  destruct (String.eqb (Name f) name) eqn:E.
  - intros [= <-]. split; [lia|]. exists f. rewrite Nat.sub_diag.
    split; [done|]. by apply String.eqb_eq.
  - intros Hi. destruct (IH _ _ Hi) as (Hle & g & Hg & Hname). split; [lia|].
    exists g. split; [|done]. replace (i - j) with (S (i - S j)) by lia. done.
Qed.

Lemma FieldByName_lookup fields name i :
  FieldByName fields name = Some i -> exists f, fields !! i = Some f /\ Name f = name.
Proof.
  intros Hi. destruct (FieldByName_from_lookup _ _ _ _ Hi) as (_ & f & Hf & Hname).
  rewrite Nat.sub_0_r in Hf. by exists f.
Qed.

(** Without [ignoreMissingFields] a missing column ends the loop in an
    error, at that column or at an earlier unexported field. *)
Lemma collect_strict tr fields columns : forall acc,
  Exists (fun column => missing fields (tr column)) columns ->
  exists e, collect tr (Some (Struct fields)) false columns acc = Failed e.
Proof.
  induction columns as [|column columns IH]; intros acc Hex; [by inversion Hex|].
  cbn [collect]. destruct (FieldByName fields (tr column)) as [i|] eqn:Hi; [|by eexists].
  destruct (FieldByName_lookup _ _ _ Hi) as (f & -> & _).
  destruct (CanSet f); cbn [negb]; [|by eexists].
  apply IH. inversion Hex as [? ? Hm|]; [|done]. unfold missing in Hm. congruence.
Qed.

(** A column naming an unexported field ends the loop in an error,
    whatever [ignoreMissingFields] is. *)
Lemma collect_unsettable tr fields ignore columns : forall acc,
  Exists (fun column => unsettable fields (tr column)) columns ->
  exists e, collect tr (Some (Struct fields)) ignore columns acc = Failed e.
Proof.
  induction columns as [|column columns IH]; intros acc Hex; [by inversion Hex|].
  cbn [collect]. destruct (FieldByName fields (tr column)) as [i|] eqn:Hi.
  - destruct (FieldByName_lookup _ _ _ Hi) as (f & Hf & _). rewrite Hf.
    destruct (CanSet f) eqn:Hset; cbn [negb]; [|by eexists].
    apply IH. inversion Hex as [? ? (i' & f' & Hi' & Hf' & Hset')|]; [|done].
    congruence.
  - destruct ignore; [|by eexists].
    apply IH. inversion Hex as [? ? (i' & f' & Hi' & _)|]; [|done]. congruence.
Qed.

(** With [ignoreMissingFields], and no unexported field named, the loop
    collects one destination per column, in the order of the columns. *)
Lemma collect_lenient tr fields columns : forall acc,
  Forall (fun column => ~ unsettable fields (tr column)) columns ->
  collect tr (Some (Struct fields)) true columns acc =
  Collected (acc ++ map (fun column => dest_of fields (tr column)) columns).
Proof.
  induction columns as [|column columns IH]; intros acc Hall.
  - cbn. by rewrite app_nil_r.
  - inversion Hall as [|? ? Hc Hrest]; subst. cbn [collect map].
    pose proof (eq_refl (dest_of fields (tr column))) as Hd. unfold dest_of at 2 in Hd.
    destruct (FieldByName fields (tr column)) as [i|] eqn:Hi; rewrite Hd.
    + destruct (FieldByName_lookup _ _ _ Hi) as (f & Hf & _). rewrite Hf.
      destruct (CanSet f) eqn:Hset; cbn [negb].
      * rewrite IH by done. by rewrite <- app_assoc.
      * exfalso. apply Hc. by exists i, f.
    + rewrite IH by done. by rewrite <- app_assoc.
Qed.

Lemma write_back_length dests : forall fields written,
  length (write_back fields dests written) = length fields.
Proof.
  induction dests as [|[i|] dests IH]; intros fields [|v written]; cbn [write_back];
    rewrite ?IH, ?length_alter; done.
Qed.

Lemma write_back_untouched i dests : forall fields written,
  (forall k, dests !! k <> Some (FieldAddr i)) ->
  write_back fields dests written !! i = fields !! i.
Proof.
  induction dests as [|[j|] dests IH]; intros fields [|v written] Hno; cbn [write_back]; try done.
  - rewrite IH by (intros k; apply (Hno (S k))).
    apply list_lookup_alter_ne. intros ->. by apply (Hno 0).
  - apply IH. intros k. apply (Hno (S k)).
Qed.

(** A field receives what the scanner stores through the last destination
    that is its address. *)
Lemma write_back_last dests : forall fields written k i v,
  dests !! k = Some (FieldAddr i) -> written !! k = Some v ->
  (forall k', k < k' -> dests !! k' <> Some (FieldAddr i)) ->
  Val <$> write_back fields dests written !! i = (fun _ => v) <$> fields !! i.
Proof.
  induction dests as [|d dests IH]; intros fields written k i v Hk Hv Hlater; [done|].
  destruct written as [|w written]; [by destruct k|].
  destruct k as [|k]; cbn in Hk, Hv.
  - injection Hk as ->. injection Hv as ->. cbn [write_back].
    rewrite write_back_untouched.
    + rewrite list_lookup_alter_eq. by destruct (fields !! i).
    + intros k. apply (Hlater (S k)). lia.
  - assert (Hlater' : forall k', k < k' -> dests !! k' <> Some (FieldAddr i)).
    { intros k' Hk'. apply (Hlater (S k')). lia. }
    destruct d as [j|]; cbn [write_back].
    + rewrite (IH _ _ k i v Hk Hv Hlater').
      destruct (decide (j = i)) as [->|Hne].
      * rewrite list_lookup_alter_eq. by destruct (fields !! i).
      * by rewrite list_lookup_alter_ne.
    + by apply (IH _ _ k i v).
Qed.

Section MapRowToStruct.
Context {S : Type} `{Scanner S}.

Lemma MapRowToStruct_pointer columns (scanner : S) fields ignore transforms :
  MapRowToStruct columns scanner (Ptr (Some (Struct fields))) ignore transforms =
  match collect (transform_of transforms) (Some (Struct fields)) ignore columns [] with
  | Panicked => mkAfter scanner (Ptr (Some (Struct fields))) [] Panic
  | Failed e => mkAfter scanner (Ptr (Some (Struct fields))) [] (Return (Some e))
  | Collected dests =>
    let '(scanner', written, err) := Scan scanner (map (pointee fields) dests) in
    mkAfter scanner' (Ptr (Some (Struct (write_back fields dests written)))) [dests] (Return err)
  end.
Proof.
  unfold MapRowToStruct, transform_of. cbn.
  by destruct (collect _ _ _ _ _).
Qed.

End MapRowToStruct.

(** [struct { Name string; Age int }], both fields exported. *)
Definition Person : list (StructField value) :=
  [ mkField "Name" "" [] (Str ""); mkField "Age" "" [] (Int 0) ].

(** [struct { name string; Age int }]: [name] is unexported. *)
Definition Account : list (StructField value) :=
  [ mkField "name" "db" [] (Str ""); mkField "Age" "" [] (Int 0) ].

Definition row3 : Row := mkRow [Str "Ann"; Bytes "x"; Int 7].



End db_spec.

(* ===================================================================== *)
(** * Package db: the mappers of a whole result set                       *)
(* ===================================================================== *)
Module rows_spec.
Import gostrings reflect db rows db_spec.
Local Open Scope list_scope.

(** ** A scanner over a finite result set *)

(** A cursor, as [sql.Rows] is: the column names, the rows still to come
    and the row [Next] has moved to. [Scan] stores the values of that row
    and fails when there is none or the number of destinations is not
    that of its values. *)
Record Cursor : Type := mkCursor {
  names : list string;
  pending : list (list value);
  current : option (list value);
  closed : bool
}.

Global Instance Cursor_Scanner : Scanner Cursor := fun c dests =>
  match current c with
  | Some row =>
    if (length row =? length dests)%nat then (c, row, None)
    else (c, dests, Some (ScanError "wrong number of destination arguments"))
  | None => (c, dests, Some (ScanError "Scan called without calling Next"))
  end.

Global Instance Cursor_RowsScanner : RowsScanner Cursor := {|
  Close := fun c => (mkCursor (names c) [] None true, None);
  Columns := fun c =>
    if closed c then (c, [], Some (ScanError "Rows are closed")) else (c, names c, None);
  Err := fun c => (c, None);
  Next := fun c =>
    match pending c with
    | [] => (mkCursor (names c) [] None (closed c), false)
    | row :: rest => (mkCursor (names c) rest (Some row) (closed c), true)
    end;
  RowsScanner_Scanner := Cursor_Scanner
|}.

(** ** Scanners that end *)
Section Ends.
Context {S : Type} `{RowsScanner S}.

(** [left] bounds the rows a scanner still has: [Next] answering true
    uses one up, and [Columns] and [Scan] bring none back. *)
Definition ends_within (left : S -> nat) : Prop :=
  (forall s, snd (Next s) = true -> left (fst (Next s)) < left s) /\
  (forall s, left (fst (fst (Columns s))) <= left s) /\
  (forall s dests, left (fst (fst (Scan s dests))) <= left s).

End Ends.

Lemma Cursor_ends : ends_within (fun c : Cursor => length (pending c)).
Proof.
  split; [|split].
  - intros c. cbn. destruct (pending c); cbn; [discriminate|lia].
  - intros c. cbn. by destruct (closed c).
  - intros c dests. unfold Scan, RowsScanner_Scanner. cbn. unfold Cursor_Scanner.
    destruct (current c) as [row|]; [|done]. by destruct (_ =? _)%nat.
Qed.

(** ** MapRowsToSliceOfSlices *)

(** No [[]byte] is left in a cell. *)
Definition no_bytes (v : value) : Prop := forall u, v <> Bytes u.

Lemma cell_no_bytes v : no_bytes (cell v).
Proof. by destruct v. Qed.

Lemma length_stored n written : length (stored n written) = n.
Proof.
  unfold stored. rewrite length_take, length_app, repeat_length. lia.
Qed.

(** How the loop of [MapRowsToSliceOfSlices] or [MapRowsToSliceOfMaps]
    stops. *)
Inductive stop : Type :=
| Ended             (* [Next] answered false *)
| ColumnsFailed
| ScanFailed
| NilDestination.   (* a row was scanned and the destination is nil *)

(** The calls of the loop: rounds of [Next], [Columns], [Scan]; the
    rounds that appended a row, each with the number of its columns; and
    how the loop stopped. *)
Inductive session : list call -> list nat -> stop -> Prop :=
| session_end : session [CallNext; CallErr] [] Ended
| session_no_columns : session [CallNext; CallColumns] [] ColumnsFailed
| session_no_scan n : session [CallNext; CallColumns; CallScan n] [] ScanFailed
| session_nil n : session [CallNext; CallColumns; CallScan n] [] NilDestination
| session_row n rest sizes st :
    session rest sizes st ->
    session (CallNext :: CallColumns :: CallScan n :: rest) (n :: sizes) st.

Lemma session_no_Close body sizes st : session body sizes st -> CallClose ∉ body.
Proof.
  induction 1 as [| |n|n|n rest sizes st _ IH]; intros Hin;
    repeat (apply elem_of_cons in Hin as [Hin|Hin]; [discriminate|]);
    try done; by apply elem_of_nil in Hin.
Qed.

(** What the function returns, given how the loop stopped: what [Err]
    returns, the error that stopped it, or the panic of the nil
    dereference. *)
Definition ending (st : stop) (res : outcome) : Prop :=
  match st with
  | Ended => exists err, res = Return err
  | ColumnsFailed | ScanFailed => exists e, res = Return (Some e)
  | NilDestination => res = Panic
  end.

Section Slices.
Context {S : Type} `{RowsScanner S}.

Lemma slices_loop_spec fuel : forall (scanner : S) Slices log scanner' Slices' log' res,
  slices_loop fuel scanner Slices log = Some (scanner', Slices', log', res) ->
  exists body sizes st,
    log' = log ++ body /\ session body sizes st /\ ending st res /\
    match Slices with
    | Some rows =>
      exists new, Slices' = Some (rows ++ new) /\ map length new = sizes /\
        Forall (Forall no_bytes) new /\ st <> NilDestination
    | None => Slices' = None /\ sizes = []
    end.
Proof.
  induction fuel as [|fuel IH]; intros scanner Slices log scanner' Slices' log' res; [discriminate|].
  cbn [slices_loop]. destruct (Next scanner) as [s1 more]. destruct more; cbn [negb].
  2:{ destruct (Err s1) as [s2 err]. intros [= <- <- <- <-].
      exists [CallNext; CallErr], [], Ended. rewrite <- app_assoc.
      split; [done|]. split; [constructor|]. split; [by eexists|].
      destruct Slices as [rows|]; [|done].
      exists []. rewrite app_nil_r. repeat split; done. }
  destruct (Columns s1) as [[s2 columns] [e|]].
  { intros [= <- <- <- <-]. exists [CallNext; CallColumns], [], ColumnsFailed.
    rewrite <- app_assoc.
    split; [done|]. split; [constructor|]. split; [by eexists|].
    destruct Slices as [rows|]; [|done].
    exists []. rewrite app_nil_r. repeat split; done. }
  destruct (Scan s2 _) as [[s3 written] [e|]].
  { intros [= <- <- <- <-].
    exists [CallNext; CallColumns; CallScan (length columns)], [], ScanFailed.
    rewrite <- !app_assoc. split; [done|]. split; [constructor|]. split; [by eexists|].
    destruct Slices as [rows|]; [|done].
    exists []. rewrite app_nil_r. repeat split; done. }
  destruct Slices as [rows|].
  2:{ intros [= <- <- <- <-].
      exists [CallNext; CallColumns; CallScan (length columns)], [], NilDestination.
      rewrite <- !app_assoc. split; [done|]. split; [constructor|]. done. }
  intros Hloop.
  apply IH in Hloop as (body & sizes & st & -> & Hs & He & new & -> & Hlen & Hnb & Hnp).
  exists (CallNext :: CallColumns :: CallScan (length columns) :: body),
         (length columns :: sizes), st.
  rewrite <- !app_assoc. split; [done|]. split; [by constructor|]. split; [done|].
  exists (map cell (stored (length columns) written) :: new).
  split; [done|]. split; [|split; [|done]].
  - cbn. by rewrite length_map, length_stored, Hlen.
  - constructor; [|done]. apply Forall_forall. intros v Hv.
    apply list_elem_of_fmap in Hv as (v' & -> & _). apply cell_no_bytes.
Qed.

(** A scanner that ends makes the loop end: one round of fuel more than
    the rows it has left is enough. *)
Lemma slices_loop_returns left : ends_within left ->
  forall fuel (scanner : S) Slices log,
    left scanner < fuel -> is_Some (slices_loop fuel scanner Slices log).
Proof.
  intros (Hnext & Hcols & Hscan). induction fuel as [|fuel IH]; intros scanner Slices log Hlt; [lia|].
  cbn [slices_loop]. pose proof (Hnext scanner) as Hn.
  destruct (Next scanner) as [s1 more]. cbn in Hn. destruct more; cbn [negb].
  2:{ destruct (Err s1). by eexists. }
  specialize (Hn eq_refl). pose proof (Hcols s1) as Hc.
  destruct (Columns s1) as [[s2 columns] [e|]]; [by eexists|]. cbn in Hc.
  pose proof (Hscan s2 (repeat Nil (length columns))) as Hs.
  destruct (Scan s2 _) as [[s3 written] [e|]]; [by eexists|]. cbn in Hs.
  destruct Slices as [rows|]; [|by eexists]. apply IH. lia.
Qed.




End Slices.

(** ** MapRowsToSliceOfMaps *)

(** The map of a row: each column name bound to the cell of the row at
    its position, a later column of the same name replacing an earlier
    one. *)
Definition as_map (columns : list string) (row : list value) : gmap string value :=
  foldl (fun (m : gmap string value) (cv : string * value) => <[fst cv := snd cv]> m)
        ∅ (zip columns row).

Lemma fill_row_from columns : forall cells (m : gmap string value),
  foldl (fun (row : gmap string value) (cv : string * value) => <[fst cv := cell (snd cv)]> row)
        m (zip columns cells) =
  foldl (fun (m : gmap string value) (cv : string * value) => <[fst cv := snd cv]> m)
        m (zip columns (map cell cells)).
Proof.
  induction columns as [|c columns IH]; intros [|v cells] m; try done. cbn. apply IH.
Qed.

Lemma fill_row_as_map columns cells : fill_row columns cells = as_map columns (map cell cells).
Proof. apply fill_row_from. Qed.

Lemma foldl_insert_lookup (l : list (string * value)) : forall (m : gmap string value) c,
  foldl (fun (m : gmap string value) (cv : string * value) => <[fst cv := snd cv]> m) m l !! c =
  match last (List.filter (fun cv : string * value => String.eqb (fst cv) c) l) with
  | Some cv => Some (snd cv)
  | None => m !! c
  end.
Proof.
  induction l as [|[c' v] l IH]; intros m c; [done|].
  cbn [foldl List.filter fst snd]. rewrite IH.
  destruct (String.eqb c' c) eqn:E.
  - apply String.eqb_eq in E as ->. rewrite last_cons.
    destruct (last _); [done|]. cbn. by rewrite lookup_insert_eq.
  - apply String.eqb_neq in E. destruct (last _); [done|]. by rewrite lookup_insert_ne.
Qed.

(** A column name is bound to the cell under its last occurrence among
    the columns that have a cell... *)
Lemma as_map_last columns row k c v :
  columns !! k = Some c -> row !! k = Some v ->
  (forall k', k < k' -> k' < length row -> columns !! k' <> Some c) ->
  as_map columns row !! c = Some v.
Proof.
  intros Hc Hv Hlater. unfold as_map. rewrite foldl_insert_lookup, lookup_empty.
  rewrite (filter_last_at _ (zip columns row) k (c, v)); [done| | |].
  - rewrite lookup_zip_with, Hc. cbn. by rewrite Hv.
  - cbn. by apply String.eqb_eq.
  - intros j [c' v'] Hj Hcv. apply lookup_zip_with_Some in Hcv as (c'' & v'' & [= <- <-] & Hc' & Hv').
    cbn. apply String.eqb_neq. intros ->. apply (Hlater j); [done| |done].
    by eapply lookup_lt_Some.
Qed.

(** ... and a name that is no such column is not bound. *)
Lemma as_map_none columns row c :
  (forall k, k < length row -> columns !! k <> Some c) ->
  as_map columns row !! c = None.
Proof.
  intros Hno. unfold as_map. rewrite foldl_insert_lookup, lookup_empty.
  rewrite filter_none; [done|]. intros [c' v'] Hin.
  apply list_elem_of_lookup in Hin as [k Hk].
  apply lookup_zip_with_Some in Hk as (c'' & v'' & [= <- <-] & Hc' & Hv').
  cbn. apply String.eqb_neq. intros ->. apply (Hno k); [|done]. by eapply lookup_lt_Some.
Qed.

Section Maps.
Context {S : Type} `{RowsScanner S}.

(** A row of cells and the map made in the same round. *)
Definition row_map (row : list value) (m : gmap string value) : Prop :=
  exists columns, length columns = length row /\ m = as_map columns row.

(** The two loops go the same way. *)
Lemma maps_loop_slices fuel : forall (scanner : S) rows maps log,
  match slices_loop fuel scanner (Some rows) log, maps_loop fuel scanner (Some maps) log with
  | Some (s1, Slices', log1, res1), Some (s2, Map', log2, res2) =>
    s1 = s2 /\ log1 = log2 /\ res1 = res2 /\
    exists new_rows new_maps, Slices' = Some (rows ++ new_rows) /\
      Map' = Some (maps ++ new_maps) /\ Forall2 row_map new_rows new_maps
  | None, None => True
  | _, _ => False
  end.
Proof.
  induction fuel as [|fuel IH]; intros scanner rows maps log; [done|].
  cbn [slices_loop maps_loop]. destruct (Next scanner) as [s1 more]. destruct more; cbn [negb].
  2:{ destruct (Err s1) as [s2 err]. repeat split; try done.
      exists [], []. rewrite !app_nil_r. repeat split; done. }
  destruct (Columns s1) as [[s2 columns] [e|]].
  { repeat split; try done. exists [], []. rewrite !app_nil_r. repeat split; done. }
  destruct (Scan s2 _) as [[s3 written] [e|]].
  { repeat split; try done. exists [], []. rewrite !app_nil_r. repeat split; done. }
  specialize (IH s3 (rows ++ [map cell (stored (length columns) written)])
                 (maps ++ [fill_row columns (stored (length columns) written)])
                 (((log ++ [CallNext]) ++ [CallColumns]) ++ [CallScan (length columns)])).
  destruct (slices_loop fuel s3 _ _) as [[[[s4 Slices'] log1] res1]|];
    destruct (maps_loop fuel s3 _ _) as [[[[s5 Map'] log2] res2]|]; try done.
  destruct IH as (-> & -> & -> & new_rows & new_maps & -> & -> & Hall).
  repeat split; try done.
  exists (map cell (stored (length columns) written) :: new_rows),
         (fill_row columns (stored (length columns) written) :: new_maps).
  rewrite <- !app_assoc. repeat split; try done. constructor; [|done].
  exists columns. split; [by rewrite length_map, length_stored|apply fill_row_as_map].
Qed.

Lemma maps_loop_nil fuel (scanner : S) log :
  (fun r => (fst (fst (fst r)), snd (fst r), snd r)) <$> maps_loop fuel scanner None log =
  (fun r => (fst (fst (fst r)), snd (fst r), snd r)) <$> slices_loop fuel scanner None log /\
  forall r, maps_loop fuel scanner None log = Some r -> snd (fst (fst r)) = None.
Proof.
  destruct fuel as [|fuel]; [done|].
  cbn [slices_loop maps_loop]. destruct (Next scanner) as [s1 more]. destruct more; cbn [negb].
  2:{ destruct (Err s1) as [s2 err]. split; [done|]. by intros r [= <-]. }
  destruct (Columns s1) as [[s2 columns] [e|]]; [split; [done|]; by intros r [= <-]|].
  destruct (Scan s2 _) as [[s3 written] [e|]]; split; try done; by intros r [= <-].
Qed.



End Maps.

(** ** A result set read to its end *)
Section ResultSet.
Context {S : Type} `{RowsScanner S}.

Lemma stored_exact n written : length written = n -> stored n written = written.
Proof. intros <-. unfold stored. by rewrite take_app_length. Qed.

(** [yields scanner rounds scanner']: to a caller that scans each row
    into new destinations, one per column, the scanner gives the rows of
    [rounds], each with the names [Columns] answers in its round and a
    value for every one of them; then [Next] answers false and leaves
    [scanner']. *)
Inductive yields : S -> list (list string * list value) -> S -> Prop :=
| yields_end s s' : Next s = (s', false) -> yields s [] s'
| yields_row s s1 s2 s3 columns row rest s' :
    Next s = (s1, true) ->
    Columns s1 = (s2, columns, None) ->
    Scan s2 (repeat Nil (length columns)) = (s3, row, None) ->
    length row = length columns ->
    yields s3 rest s' ->
    yields s ((columns, row) :: rest) s'.

(** The calls of a mapper that reads such a result set to its end. *)
Definition calls_of (rounds : list (list string * list value)) : list call :=
  flat_map (fun round => [CallNext; CallColumns; CallScan (length (fst round))]) rounds ++
  [CallNext; CallErr].

Lemma slices_loop_yields scanner rounds s' :
  yields scanner rounds s' ->
  forall fuel rows log, length rounds < fuel ->
    slices_loop fuel scanner (Some rows) log =
    Some (fst (Err s'), Some (rows ++ map (fun round => map cell (snd round)) rounds),
          log ++ calls_of rounds, Return (snd (Err s'))).
Proof.
  unfold calls_of.
  induction 1 as [s s' Hn|s s1 s2 s3 columns row rest s' Hn Hc Hs Hlen _ IH];
    intros [|fuel] rows log Hlt; cbn [length] in Hlt; try lia; cbn [slices_loop].
  - rewrite Hn. cbn [negb]. destruct (Err s') as [s'' err]. cbn.
    by rewrite app_nil_r, <- app_assoc.
  - rewrite Hn, Hc, Hs. cbn [negb]. rewrite (stored_exact _ _ Hlen), IH by lia.
    cbn [map flat_map fst snd]. by rewrite <- !app_assoc.
Qed.

Lemma maps_loop_yields scanner rounds s' :
  yields scanner rounds s' ->
  forall fuel maps log, length rounds < fuel ->
    maps_loop fuel scanner (Some maps) log =
    Some (fst (Err s'),
          Some (maps ++ map (fun round => as_map (fst round) (map cell (snd round))) rounds),
          log ++ calls_of rounds, Return (snd (Err s'))).
Proof.
  unfold calls_of.
  induction 1 as [s s' Hn|s s1 s2 s3 columns row rest s' Hn Hc Hs Hlen _ IH];
    intros [|fuel] maps log Hlt; cbn [length] in Hlt; try lia; cbn [maps_loop].
  - rewrite Hn. cbn [negb]. destruct (Err s') as [s'' err]. cbn.
    by rewrite app_nil_r, <- app_assoc.
  - rewrite Hn, Hc, Hs. cbn [negb]. rewrite (stored_exact _ _ Hlen), IH by lia.
    cbn [map flat_map fst snd]. by rewrite fill_row_as_map, <- !app_assoc.
Qed.

(** X6. [MapRowsToSliceOfSlices] on a result set that can be read to its
    end: the slice receives, after the rows it held, exactly the rows of
    the result set, in order, a [[]byte] cell as the string of its bytes
    and every other cell unchanged. The result is what [Err] returns
    after the last [Next], and the scanner is left closed; one round more
    of fuel than there are rows is enough, and more changes nothing. *)
Theorem MapRowsToSliceOfSlices_result_set scanner rounds s' rows fuel :
  yields scanner rounds s' -> length rounds < fuel ->
  MapRowsToSliceOfSlices fuel scanner (Some rows) =
  Some (mkRowsAfter (fst (Close (fst (Err s'))))
          (Some (rows ++ map (fun round => map cell (snd round)) rounds))
          (calls_of rounds ++ [CallClose])
          (Return (snd (Err s')))).
Proof.
  intros Hy Hlt. unfold MapRowsToSliceOfSlices.
  rewrite (slices_loop_yields scanner rounds s' Hy fuel rows [] Hlt).
  cbn. by destruct (Close (fst (Err s'))).
Qed.

(** X7. [MapRowsToSliceOfMaps] on a result set that can be read to its
    end: the slice receives, after the maps it held, one map per row, in
    order. The map of a row binds each column name to the cell of the
    row under the last column of that name ([[]byte] as a string) and
    binds nothing else. The result is what [Err] returns. *)
Theorem MapRowsToSliceOfMaps_result_set scanner rounds s' maps fuel :
  yields scanner rounds s' -> length rounds < fuel ->
  exists r new,
    MapRowsToSliceOfMaps fuel scanner (Some maps) = Some r /\
    rows_dest r = Some (maps ++ new) /\
    rows_result r = Return (snd (Err s')) /\
    rows_calls r = calls_of rounds ++ [CallClose] /\
    Forall2 (fun (round : list string * list value) (m : gmap string value) =>
      (forall k c v, fst round !! k = Some c -> snd round !! k = Some v ->
         (forall k', k < k' -> fst round !! k' <> Some c) -> m !! c = Some (cell v)) /\
      (forall c, c ∉ fst round -> m !! c = None)) rounds new.
Proof.
  intros Hy Hlt. unfold MapRowsToSliceOfMaps.
  rewrite (maps_loop_yields scanner rounds s' Hy fuel maps [] Hlt).
  cbn [fmap option_fmap option_map]. unfold deferred_Close.
  destruct (Close (fst (Err s'))) as [s'' cerr].
  eexists _, _. split; [reflexivity|]. cbn. repeat split; try done.
  clear. induction rounds as [|[columns row] rounds IH]; constructor; [|done]. cbn [fst snd].
  split.
  - intros k c v Hc Hv Hlater. apply (as_map_last columns (map cell row) k c (cell v) Hc).
    + change (map cell row) with (cell <$> row). by rewrite list_lookup_fmap, Hv.
    + intros k' Hk' _. by apply Hlater.
  - intros c Hc. apply as_map_none. intros k _ Hk. apply Hc. by eapply list_elem_of_lookup_2.
Qed.

End ResultSet.

(** Every cursor whose rows have a value per column is such a result
    set. *)
Lemma Cursor_yields names rows : forall cur,
  Forall (fun row => length row = length names) rows ->
  yields (mkCursor names rows cur false) (map (fun row => (names, row)) rows)
         (mkCursor names [] None false).
Proof.
  induction rows as [|row rows IH]; intros cur Hall; cbn [map].
  - by constructor.
  - apply Forall_cons in Hall as [Hrow Hall].
    apply (yields_row _ (mkCursor names rows (Some row) false)
                        (mkCursor names rows (Some row) false)
                        (mkCursor names rows (Some row) false)); try done.
    + unfold Scan, RowsScanner_Scanner. cbn. unfold Cursor_Scanner. cbn.
      rewrite repeat_length, Hrow. by rewrite Nat.eqb_refl.
    + by apply IH.
Qed.

(** ** MapRowToStruct, further *)
Section Mapper.
Context {S : Type} `{Scanner S}.

Lemma collect_destinations tr structValue ignore columns : forall acc dests,
  collect tr structValue ignore columns acc = Collected dests ->
  length dests = length acc + length columns.
Proof.
  induction columns as [|column columns IH]; intros acc dests; cbn [collect].
  - intros [= <-]. cbn. lia.
  - destruct structValue as [[| | | | |fields|]|]; try discriminate.
    destruct (FieldByName fields (tr column)) as [i|].
    + destruct (fields !! i) as [f|]; [|discriminate].
      destruct (negb (CanSet f)); [discriminate|].
      intros Hc. apply IH in Hc. rewrite length_app in Hc. cbn in *. lia.
    + destruct ignore; [|discriminate].
      intros Hc. apply IH in Hc. rewrite length_app in Hc. cbn in *. lia.
Qed.

(** [MapRowToStruct] calls [Scan] at most once: either it leaves before,
    with an error or a panic and everything as it was, or it calls it
    with one destination per column and returns what it returns. *)
Lemma MapRowToStruct_scans columns (scanner : S) Struct_ ignore transforms :
  let r := MapRowToStruct columns scanner Struct_ ignore transforms in
  (scan_calls r = [] /\ scanner_after r = scanner /\ Struct_after r = Struct_ /\
   result r <> Return None) \/
  (exists dests, scan_calls r = [dests] /\ length dests = length columns /\
     scanner_after r = fst (fst (Scan scanner (map (pointee
       match Indirect (ValueOf Struct_) with Some (Struct fields) => fields | _ => [] end) dests))) /\
     result r = Return (snd (Scan scanner (map (pointee
       match Indirect (ValueOf Struct_) with Some (Struct fields) => fields | _ => [] end) dests)))).
Proof.
  cbn zeta. unfold MapRowToStruct.
  destruct (negb (bool_decide (kind (ValueOf Struct_) = KPtr))); [left; by repeat split|].
  destruct (collect _ _ _ _ _) as [dests|e|] eqn:Ec; [|left; by repeat split..].
  right. exists dests. apply collect_destinations in Ec.
  destruct (Scan scanner _) as [[s' written] err]. cbn. repeat split; try done.
Qed.

(** The destinations collected are those given at the start, then, per
    column, a discard buffer or the address of the field the transformed
    column names. *)
Lemma collect_dests tr fields ignore columns : forall acc dests,
  collect tr (Some (Struct fields)) ignore columns acc = Collected dests ->
  dests = acc ++ map (fun column => dest_of fields (tr column)) columns.
Proof.
  induction columns as [|column columns IH]; intros acc dests; cbn [collect map].
  - intros [= <-]. by rewrite app_nil_r.
  - pose proof (eq_refl (dest_of fields (tr column))) as Hd. unfold dest_of at 2 in Hd.
    destruct (FieldByName fields (tr column)) as [i|]; rewrite Hd.
    + destruct (fields !! i) as [f|]; [|discriminate].
      destruct (negb (CanSet f)); [discriminate|].
      intros Hc. apply IH in Hc. by rewrite <- app_assoc in Hc.
    + destruct ignore; [|discriminate].
      intros Hc. apply IH in Hc. by rewrite <- app_assoc in Hc.
Qed.

Lemma write_back_shape dests : forall fields written i,
  (fun f => (Name f, PkgPath f, Tag f)) <$> write_back fields dests written !! i =
  (fun f => (Name f, PkgPath f, Tag f)) <$> fields !! i.
Proof.
  induction dests as [|[j|] dests IH]; intros fields [|v written] i; cbn [write_back]; try done.
  rewrite IH. destruct (decide (j = i)) as [->|Hne].
  - rewrite list_lookup_alter_eq. by destruct (fields !! i).
  - by rewrite list_lookup_alter_ne.
Qed.


(** X9. [MapRowToStruct] on a pointer that does not point to a struct (a
    nil pointer, a pointer to a string): with a column to map the call
    panics, in [FieldByName], before any call of [Scan]; with no column
    it calls [Scan] with no destination and returns what it returns. *)
Theorem MapRowToStruct_no_struct columns (scanner : S) elem ignore transforms :
  (forall fields, elem <> Some (Struct fields)) ->
  let r := MapRowToStruct columns scanner (Ptr elem) ignore transforms in
  match columns with
  | [] => scan_calls r = [[]] /\ result r = Return (snd (Scan scanner [])) /\
          scanner_after r = fst (fst (Scan scanner [])) /\ Struct_after r = Ptr elem
  | _ :: _ => result r = Panic /\ scan_calls r = [] /\ scanner_after r = scanner /\
              Struct_after r = Ptr elem
  end.
Proof.
  intros Hno. cbn zeta. unfold MapRowToStruct. cbn.
  destruct columns as [|column columns]; cbn [collect].
  - cbn [map]. destruct (Scan scanner []) as [[s' written] err]. cbn.
    by destruct elem as [[| | | | |fields|]|].
  - destruct elem as [[| | | | |fields|]|]; try done. by destruct (Hno fields).
Qed.

Lemma collect_all_found tr fields columns : forall acc,
  Forall (fun column => ~ missing fields (tr column)) columns ->
  collect tr (Some (Struct fields)) false columns acc =
  collect tr (Some (Struct fields)) true columns acc.
Proof.
  induction columns as [|column columns IH]; intros acc Hall; [done|].
  apply Forall_cons in Hall as [Hc Hall]. cbn [collect]. unfold missing in Hc.
  destruct (FieldByName fields (tr column)) as [i|]; [|done].
  destruct (fields !! i) as [f|]; [|done]. destruct (negb (CanSet f)); [done|]. by apply IH.
Qed.

(** X10. Where every column, transformed, names a field of the struct,
    [ignoreMissingFields] makes no difference: the strict and the lenient
    call do the same. *)
Theorem MapRowToStruct_all_found columns (scanner : S) fields transforms :
  Forall (fun column => ~ missing fields (transform_of transforms column)) columns ->
  MapRowToStruct columns scanner (Ptr (Some (Struct fields))) false transforms =
  MapRowToStruct columns scanner (Ptr (Some (Struct fields))) true transforms.
Proof.
  intros Hall. rewrite !MapRowToStruct_pointer. by rewrite collect_all_found.
Qed.

End Mapper.

(** ** CreateTagMapperFunc and MapRowToStruct together *)
Section TagMapper.
Context {S : Type} `{Scanner S}.
Variable ul : string -> string.

Lemma FieldByName_from_NoDup fields : forall j i f,
  NoDup (map Name fields) -> fields !! i = Some f ->
  FieldByName_from j fields (Name f) = Some (j + i).
Proof.
  induction fields as [|g fields IH]; intros j i f Hnd Hi; [done|].
  cbn [map] in Hnd. apply NoDup_cons in Hnd as [Hout Hnd]. cbn [FieldByName_from].
  destruct i as [|i]; cbn in Hi.
  - injection Hi as ->. rewrite String.eqb_refl. f_equal. lia.
  - destruct (String.eqb (Name g) (Name f)) eqn:E.
    + apply String.eqb_eq in E. exfalso. apply Hout. rewrite E.
      apply list_elem_of_fmap. exists f. split; [done|]. by eapply list_elem_of_lookup_2.
    + rewrite (IH (Datatypes.S j) i f Hnd Hi). f_equal. lia.
Qed.

Lemma FieldByName_NoDup fields i f :
  NoDup (map Name fields) -> fields !! i = Some f -> FieldByName fields (Name f) = Some i.
Proof. intros Hnd Hi. unfold FieldByName. by rewrite (FieldByName_from_NoDup fields 0 i f). Qed.

Lemma NoDup_fmap_lookup {A B : Type} (g : A -> B) (l : list A) i j x y :
  NoDup (map g l) -> l !! i = Some x -> l !! j = Some y -> g x = g y -> i = j.
Proof.
  intros Hnd Hi Hj Heq. apply (NoDup_lookup (map g l) i j (g x)); [done|..].
  - change (map g l) with (g <$> l). by rewrite list_lookup_fmap, Hi.
  - change (map g l) with (g <$> l). rewrite list_lookup_fmap, Hj. cbn. by rewrite Heq.
Qed.

(** The mapper of a struct sends the key of a field to its name, where
    no two fields have one key. *)
Lemma tag_mapper_key fields tn i f :
  NoDup (map (key ul tn) fields) -> fields !! i = Some f ->
  match foldl (tag_mapper_step ul tn) ∅ fields !! key ul tn f with
  | Some r => r
  | None => key ul tn f
  end = Name f.
Proof.
  intros Hkeys Hi. rewrite tag_mapper_fold, lookup_empty.
  rewrite (filter_last_at _ fields i f); [done|done|by apply String.eqb_eq|].
  intros j g Hj Hg. apply String.eqb_neq. intros Heq.
  assert (j = i); [|lia]. by apply (NoDup_fmap_lookup _ fields j i g f Hkeys).
Qed.

(** With it, the loop of [MapRowToStruct] collects the address of the
    field of each column that is a key. *)
Lemma tag_mapper_collect fields tn ignore columns idx :
  NoDup (map Name fields) -> NoDup (map (key ul tn) fields) ->
  Forall (fun f => CanSet f = true) fields ->
  Forall2 (fun column i => exists f, fields !! i = Some f /\ key ul tn f = column) columns idx ->
  forall acc,
    collect (fun s => match foldl (tag_mapper_step ul tn) ∅ fields !! s with
                      | Some r => r
                      | None => s
                      end)
            (Some (Struct fields)) ignore columns acc =
    Collected (acc ++ map FieldAddr idx).
Proof.
  intros Hnames Hkeys Hset Hcols.
  induction Hcols as [|column i columns idx (f & Hi & <-) _ IH];
    intros acc; cbn [collect map]; [by rewrite app_nil_r|].
  rewrite (tag_mapper_key fields tn i f Hkeys Hi), (FieldByName_NoDup fields i f Hnames Hi), Hi.
  rewrite Forall_forall in Hset. rewrite (Hset f) by (by eapply list_elem_of_lookup_2).
  cbn [negb]. rewrite IH. by rewrite <- app_assoc.
Qed.

(** X11. The mapper [CreateTagMapperFunc] makes for a struct, handed to
    [MapRowToStruct] for a pointer to that struct. Let the fields have
    different names and different keys (the column of the tag, or else
    the name) and be exported. Then every column that is the key of a
    field is scanned into that field: [Scan] receives the addresses of
    those fields, in the order of the columns, and the struct holds what
    it stores through them. *)
Theorem tag_mapper_maps_columns (scanner : S) fields tagname ignore columns idx :
  NoDup (map Name fields) ->
  NoDup (map (key ul (first_tagname tagname)) fields) ->
  Forall (fun f => CanSet f = true) fields ->
  Forall2 (fun column i => exists f, fields !! i = Some f /\
                                     key ul (first_tagname tagname) f = column) columns idx ->
  exists tr, CreateTagMapperFunc ul (Ptr (Some (Struct fields))) tagname = Mapper tr /\
    MapRowToStruct columns scanner (Ptr (Some (Struct fields))) ignore [tr] =
    let '(scanner', written, err) := Scan scanner (map (pointee fields) (map FieldAddr idx)) in
    mkAfter scanner'
      (Ptr (Some (Struct (write_back fields (map FieldAddr idx) written))))
      [map FieldAddr idx] (Return err).
Proof.
  intros Hnames Hkeys Hset Hcols.
  rewrite (CreateTagMapperFunc_struct ul (Ptr (Some (Struct fields))) tagname fields eq_refl).
  eexists. split; [reflexivity|].
  rewrite MapRowToStruct_pointer. unfold transform_of. cbn [hd].
  rewrite (tag_mapper_collect fields _ ignore columns idx Hnames Hkeys Hset Hcols []).
  cbn [app]. by destruct (Scan scanner _) as [[s' written] err].
Qed.

(** X12. A struct none of whose tags has an item that starts with
    "column:" gets the identity from [CreateTagMapperFunc]: every field
    is entered under its own name — also a field tagged like the [Bar] of
    the function's own comment, [`sql:"bar"`]. *)
Theorem CreateTagMapperFunc_identity v tagname fields :
  struct_of v = Some fields ->
  Forall (fun f => Forall (fun item => HasPrefix (TrimSpace item) "column:" = false)
                     (Split (Get (Tag f) (first_tagname tagname)) ",")) fields ->
  exists tr, CreateTagMapperFunc ul v tagname = Mapper tr /\ forall s, tr s = s.
Proof.
  intros Hv Hall. rewrite (CreateTagMapperFunc_struct ul _ _ _ Hv). eexists. split; [reflexivity|].
  intros s. cbn beta. rewrite tag_mapper_fold, lookup_empty.
  destruct (last _) as [f|] eqn:El; [|done].
  apply last_Some in El as [l' El].
  assert (Hin : In f (List.filter (fun f => String.eqb (key ul (first_tagname tagname) f) s) fields)).
  { rewrite El. apply in_or_app. right. by left. }
  apply filter_In in Hin as [Hin Hk]. apply String.eqb_eq in Hk. rewrite <- Hk.
  rewrite Forall_forall in Hall. specialize (Hall f (proj2 (list_elem_of_In _ _) Hin)).
  unfold key, column_value, BuildFromString, BuildFromString_logged.
  rewrite BuildFromString_fold. cbn zeta. cbn [ColumnName].
  rewrite filter_none; [done|]. intros item Hitem.
  apply list_elem_of_fmap in Hitem as (piece & -> & Hpiece).
  rewrite Forall_forall in Hall. by apply Hall.
Qed.

End TagMapper.

(** ** What BuildFromString logs *)
Section Logging.
Variable ul : string -> string.

(** The entries an item leaves: the item, and the column it sets. *)
Definition entries_of (item : string) : list (list string) :=
  ["SQLStructTagBuilder"; "	data:"; item] ::
  (if names_column item then [["SQLStructTagBuilder"; "		column:"; column_of item]] else []).

Lemma log_Logger builder args :
  Logger (log builder args) =
  (fun entries => entries ++ [("SQLStructTagBuilder" :: args)]) <$> Logger builder.
Proof. unfold log. destruct (Logger builder) eqn:E; cbn; [done|by rewrite E]. Qed.

Lemma BuildFromString_step_log tag builder data :
  Logger (snd (BuildFromString_step ul (tag, builder) data)) =
  (fun entries => entries ++ entries_of (TrimSpace data)) <$> Logger builder.
Proof.
  unfold BuildFromString_step, entries_of, names_column, column_of. cbn zeta.
  destruct (HasPrefix (TrimSpace data) "column:");
    destruct (String.eqb _ "persistzerovalue"); cbn [snd ColumnName];
    rewrite ?log_Logger; destruct (Logger builder) as [entries|]; cbn; try done;
    by rewrite <- app_assoc.
Qed.

Lemma BuildFromString_fold_log datas : forall tag builder,
  Logger (snd (foldl (BuildFromString_step ul) (tag, builder) datas)) =
  (fun entries => entries ++ flat_map entries_of (map TrimSpace datas)) <$> Logger builder.
Proof.
  induction datas as [|data datas IH]; intros tag builder; cbn [foldl map flat_map].
  - cbn [snd]. destruct (Logger builder); cbn; [by rewrite app_nil_r|done].
  - destruct (BuildFromString_step ul (tag, builder) data) as [tag' builder'] eqn:E.
    rewrite IH. apply (f_equal snd) in E. cbn [snd] in E. rewrite <- E.
    rewrite BuildFromString_step_log. destruct (Logger builder); cbn; [|done].
    by rewrite <- app_assoc.
Qed.

(** X13. What [BuildFromString] logs. A builder without a logger stays
    without one. A builder with a logger receives, after what it held:
    the input; then per item, in order, the trimmed item and, when the
    item starts with "column:", the column it sets. Nothing else is
    logged, and no entry is dropped. *)
Theorem BuildFromString_logs builder data :
  Logger (snd (BuildFromString_logged ul builder data)) =
  (fun entries =>
     entries ++ ["SQLStructTagBuilder"; "datas:"; data] ::
                flat_map entries_of (map TrimSpace (Split data ",")))
  <$> Logger builder.
Proof.
  unfold BuildFromString_logged. rewrite BuildFromString_fold_log, log_Logger.
  destruct (Logger builder); cbn; [|done]. by rewrite <- app_assoc.
Qed.

End Logging.

(** ** MapRowsToSliceOfStruct *)

(** How the loop of [MapRowsToSliceOfStruct] stops. *)
Inductive struct_stop : Type :=
| StructEnded        (* [Next] answered false *)
| NotMapped          (* no mapper for the element, or [MapRowToStruct] left before [Scan] *)
| NotScanned         (* [Scan] returned an error *)
| NotAppended.       (* [reflect.Append] panicked *)

(** The calls of the loop, for [n] columns: rounds of [Next] and [Scan];
    the number of rounds that appended an element. *)
Inductive struct_session (n : nat) : list call -> nat -> struct_stop -> Prop :=
| struct_session_end : struct_session n [CallNext] 0 StructEnded
| struct_session_not_mapped : struct_session n [CallNext] 0 NotMapped
| struct_session_not_scanned : struct_session n [CallNext; CallScan n] 0 NotScanned
| struct_session_not_appended : struct_session n [CallNext; CallScan n] 0 NotAppended
| struct_session_row rest k st :
    struct_session n rest k st ->
    struct_session n (CallNext :: CallScan n :: rest) (Datatypes.S k) st.

Lemma struct_session_calls n body k st :
  struct_session n body k st ->
  (CallClose ∉ body) /\ (CallColumns ∉ body) /\ (CallErr ∉ body).
Proof.
  induction 1 as [| | | |rest k st _ (IH1 & IH2 & IH3)]; repeat split; intros Hin;
    repeat (apply elem_of_cons in Hin as [Hin|Hin]; [discriminate|]);
    try done; by apply elem_of_nil in Hin.
Qed.

(** An element the loop appends for the element type [*t]: a pointer to a
    value of type [t]; for a struct type, a struct of that type's
    fields. *)
Definition element_of (t : rtype) (v : value) : Prop :=
  match Zero t with
  | Struct fields =>
    exists fields', v = Ptr (Some (Struct fields')) /\
      map (fun f => (Name f, PkgPath f, Tag f)) fields' =
      map (fun f => (Name f, PkgPath f, Tag f)) fields
  | _ => v = New t
  end.

Global Instance is_pointer_type_dec (elem : rtype) : Decision (exists t, elem = TPtr t).
Proof.
  destruct elem as [| | | | |t]; [right; intros [t' [=]]..|left; by exists t].
Defined.

Section Structs.
Context {S : Type} `{RowsScanner S}.
Variable ul : string -> string.

Lemma MapRowToStruct_element columns (scanner : S) t ignore transforms :
  result (MapRowToStruct columns scanner (New t) ignore transforms) = Return None ->
  element_of t (Struct_after (MapRowToStruct columns scanner (New t) ignore transforms)).
Proof.
  unfold element_of, New. destruct (Zero t) as [| | | | |fields|elem] eqn:Ez.
  6:{ intros _. rewrite MapRowToStruct_pointer.
      destruct (collect _ _ _ _ _) as [dests|e|]; [|by exists fields..].
      destruct (Scan scanner _) as [[s' written] err]. cbn [Struct_after].
      exists (write_back fields dests written). split; [done|].
      apply list_eq. intros i. rewrite !list_lookup_fmap. apply write_back_shape. }
  all: unfold MapRowToStruct; cbn;
    (destruct columns as [|column columns]; cbn [collect map];
     [by destruct (Scan scanner []) as [[s' written] err]|discriminate]).
Qed.

Lemma struct_loop_spec fuel : forall (scanner : S) elem columns ignore transforms items log
    scanner' log' res,
  struct_loop ul fuel scanner elem columns ignore transforms items log =
    Some (scanner', log', res) ->
  exists body k st,
    log' = log ++ body /\ struct_session (length columns) body k st /\
    (k <> 0 -> exists t, elem = TPtr t) /\
    match res with
    | inl recordsValue =>
      st = StructEnded /\ exists new, recordsValue = items ++ new /\ length new = k /\
        (forall t, elem = TPtr t -> Forall (element_of t) new)
    | inr r =>
      match st with
      | StructEnded => False
      | NotMapped => r = RowsPanic \/ exists e, r = RowsReturn (Some (Passed e))
      | NotScanned => exists e, r = RowsReturn (Some (Passed e))
      | NotAppended => r = RowsPanic /\ forall t, elem <> TPtr t
      end
    end.
Proof.
  induction fuel as [|fuel IH]; intros scanner elem columns ignore transforms items log
    scanner' log' res; [discriminate|].
  cbn [struct_loop]. destruct (Next scanner) as [s1 more]. destruct more; cbn [negb].
  2:{ intros [= <- <- <-]. exists [CallNext], 0, StructEnded.
      split; [done|]. split; [constructor|]. split; [done|]. split; [done|].
      exists []. rewrite app_nil_r. repeat split; try done; intros; constructor. }
  set (t := match elem with TPtr t => t | _ => elem end).
  destruct (match transforms with
            | [] => match CreateTagMapperFunc ul (New t) [] with
                    | Mapper tagMapper => inr [tagMapper]
                    | MapperError err => inl err
                    end
            | _ :: _ => inr transforms
            end) as [err|transforms'].
  { intros [= <- <- <-]. exists [CallNext], 0, NotMapped.
    split; [done|]. split; [constructor|]. split; [done|]. right. by eexists. }
  pose proof (MapRowToStruct_scans columns s1 (New t) ignore transforms') as Hscans.
  pose proof (MapRowToStruct_element columns s1 t ignore transforms') as Helem.
  cbn zeta in Hscans.
  destruct Hscans as [(Hcalls & _ & _ & Hres)|(dests & Hcalls & Hlen & _ & Hres)]; rewrite Hcalls.
  - cbn [map]. rewrite app_nil_r.
    destruct (result (MapRowToStruct columns s1 (New t) ignore transforms')) as [[e|]|];
      [| done |].
    + intros [= <- <- <-]. exists [CallNext], 0, NotMapped.
      split; [done|]. split; [constructor|]. split; [done|]. right. by eexists.
    + intros [= <- <- <-]. exists [CallNext], 0, NotMapped.
      split; [done|]. split; [constructor|]. split; [done|]. by left.
  - cbn [map]. rewrite Hlen.
    destruct (result (MapRowToStruct columns s1 (New t) ignore transforms')) as [[e|]|];
      [| |discriminate].
    + intros [= <- <- <-]. exists [CallNext; CallScan (length columns)], 0, NotScanned.
      rewrite <- app_assoc. split; [done|]. split; [constructor|]. split; [done|]. by eexists.
    + destruct (decide (exists t', elem = TPtr t')) as [[t' ->]|Hno].
      * intros Hloop. apply IH in Hloop as (body & k & st & -> & Hs & _ & Hr).
        exists (CallNext :: CallScan (length columns) :: body), (Datatypes.S k), st.
        rewrite <- !app_assoc. split; [done|]. split; [by constructor|].
        split; [intros _; by eexists|].
        destruct res as [recordsValue|r]; [|done].
        destruct Hr as (-> & new & -> & Hk & Hall). split; [done|].
        exists (Struct_after (MapRowToStruct columns s1 (New t) ignore transforms') :: new).
        rewrite <- app_assoc. split; [done|]. split; [cbn; by rewrite Hk|].
        intros t'' [= <-]. constructor; [|by apply Hall]. by apply Helem.
      * assert (Hno' : forall t', elem <> TPtr t') by (intros t' ->; apply Hno; by eexists).
        assert (Hstop : Some (scanner_after (MapRowToStruct columns s1 (New t) ignore transforms'),
                  (log ++ [CallNext]) ++ [CallScan (length columns)],
                  inr RowsPanic : list value + rows_outcome) = Some (scanner', log', res) ->
                exists body k st,
                  log' = log ++ body /\ struct_session (length columns) body k st /\
                  (k <> 0 -> exists t, elem = TPtr t) /\
                  match res with
                  | inl recordsValue =>
                    st = StructEnded /\ exists new, recordsValue = items ++ new /\
                      length new = k /\ (forall t, elem = TPtr t -> Forall (element_of t) new)
                  | inr r =>
                    match st with
                    | StructEnded => False
                    | NotMapped => r = RowsPanic \/ exists e, r = RowsReturn (Some (Passed e))
                    | NotScanned => exists e, r = RowsReturn (Some (Passed e))
                    | NotAppended => r = RowsPanic /\ forall t, elem <> TPtr t
                    end
                  end).
        { intros [= <- <- <-]. exists [CallNext; CallScan (length columns)], 0, NotAppended.
          rewrite <- app_assoc. split; [done|]. split; [constructor|]. done. }
        destruct elem as [| | | | |t']; try (apply Hstop); by destruct (Hno' t').
Qed.

Lemma struct_loop_returns left : ends_within left ->
  forall fuel (scanner : S) elem columns ignore transforms items log,
    left scanner < fuel ->
    is_Some (struct_loop ul fuel scanner elem columns ignore transforms items log).
Proof.
  intros (Hnext & Hcols & Hscan). induction fuel as [|fuel IH];
    intros scanner elem columns ignore transforms items log Hlt; [lia|].
  cbn [struct_loop]. pose proof (Hnext scanner) as Hn.
  destruct (Next scanner) as [s1 more]. cbn in Hn. destruct more; cbn [negb]; [|by eexists].
  specialize (Hn eq_refl).
  set (t := match elem with TPtr t => t | _ => elem end).
  destruct (match transforms with
            | [] => match CreateTagMapperFunc ul (New t) [] with
                    | Mapper tagMapper => inr [tagMapper]
                    | MapperError err => inl err
                    end
            | _ :: _ => inr transforms
            end) as [err|transforms']; [by eexists|].
  pose proof (MapRowToStruct_scans columns s1 (New t) ignore transforms') as Hscans.
  cbn zeta in Hscans.
  assert (Hle : left (scanner_after (MapRowToStruct columns s1 (New t) ignore transforms')) <= left s1).
  { destruct Hscans as [(_ & -> & _)|(dests & _ & _ & -> & _)]; [lia|apply Hscan]. }
  destruct (result _) as [[e|]|]; [by eexists| |by eexists].
  destruct elem; try (by eexists). apply IH. lia.
Qed.

Lemma Set_same p elem items : slice_of p = Some (elem, items) -> Set_ p items = p.
Proof.
  destruct p as [elem' items'|v]; cbn; [by intros [= _ ->]|done].
Qed.

Lemma slice_of_pointer p elem items : slice_of p = Some (elem, items) -> pointer p = true.
Proof.
  destruct p as [elem' items'|v]; [done|]. cbn.
  by destruct v as [| | | | | |[[]|]].
Qed.

(** X14. What [MapRowsToSliceOfStruct] refuses: an argument that is no
    pointer, and a pointer that does not point to a slice (a nil pointer
    among them). It returns its error, leaves the argument as it was and
    makes no call on the scanner but [Close]. When [Columns] returns an
    error, that error is returned: [Next] is not called, the argument is
    as it was, and [Close] is called. *)
Theorem MapRowsToSliceOfStruct_refuses fuel (scanner : S) p ignore transforms :
  (slice_of p = None ->
     MapRowsToSliceOfStruct ul fuel scanner p ignore transforms =
     Some (mkRowsAfter (fst (Close scanner)) p [CallClose]
             (RowsReturn (Some (if pointer p then NotASlice p else ExpectPointer p))))) /\
  (forall elem items e,
     slice_of p = Some (elem, items) -> snd (Columns scanner) = Some e ->
     MapRowsToSliceOfStruct ul fuel scanner p ignore transforms =
     Some (mkRowsAfter (fst (Close (fst (fst (Columns scanner))))) p [CallColumns; CallClose]
             (RowsReturn (Some (Passed e))))).
Proof.
  split.
  - intros Hno. unfold MapRowsToSliceOfStruct. rewrite Hno.
    destruct (pointer p); cbn [negb]; unfold deferred_Close; by destruct (Close scanner).
  - intros elem items e Hp He. unfold MapRowsToSliceOfStruct.
    rewrite Hp, (slice_of_pointer _ _ _ Hp). cbn [negb].
    destruct (Columns scanner) as [[s1 columns] err]. cbn in He. subst err.
    unfold deferred_Close. cbn. by destruct (Close s1).
Qed.



(** X17. Calling [MapRowsToSliceOfStruct] with no transform is calling it
    with the mapper [CreateTagMapperFunc] makes for a new element: for
    an element type that is a struct, or a pointer to one, the two calls
    do the same. For any other element type there is no such mapper, and
    the first row ends the call with the error of [CreateTagMapperFunc],
    before any call of [Scan], the slice being as it was. *)
Theorem MapRowsToSliceOfStruct_default_transform fuel (scanner : S) p elem items ignore :
  slice_of p = Some (elem, items) ->
  match CreateTagMapperFunc ul (New match elem with TPtr t => t | _ => elem end) [] with
  | Mapper tagMapper =>
    MapRowsToSliceOfStruct ul fuel scanner p ignore [] =
    MapRowsToSliceOfStruct ul fuel scanner p ignore [tagMapper]
  | MapperError e =>
    forall s1 columns s2,
      Columns scanner = (s1, columns, None) -> Next s1 = (s2, true) ->
      MapRowsToSliceOfStruct ul (Datatypes.S fuel) scanner p ignore [] =
      Some (mkRowsAfter (fst (Close s2)) p [CallColumns; CallNext; CallClose]
              (RowsReturn (Some (Passed e))))
  end.
Proof.
  intros Hp. unfold MapRowsToSliceOfStruct.
  rewrite Hp, (slice_of_pointer _ _ _ Hp). cbn [negb].
  destruct (CreateTagMapperFunc _ _ _) as [tagMapper|e'] eqn:Em.
  - destruct (Columns scanner) as [[s1 columns] [e|]]; [done|].
    destruct fuel as [|fuel]; [done|]. cbn [struct_loop].
    destruct (Next s1) as [s2 more]. destruct more; cbn [negb]; [|done]. by rewrite Em.
  - intros s1 columns s2 -> Hn. cbn [struct_loop]. rewrite Hn. cbn [negb]. rewrite Em.
    unfold deferred_Close. cbn. by destruct (Close s2).
Qed.

(** With no transform the loop makes the mapper of a new element in its
    first round and keeps it. *)
Lemma struct_loop_default fuel (scanner : S) elem columns ignore items log tr :
  CreateTagMapperFunc ul (New match elem with TPtr t => t | _ => elem end) [] = Mapper tr ->
  struct_loop ul fuel scanner elem columns ignore [] items log =
  struct_loop ul fuel scanner elem columns ignore [tr] items log.
Proof.
  intros Em. destruct fuel as [|fuel]; [done|]. cbn [struct_loop].
  destruct (Next scanner) as [s1 more]. destruct more; cbn [negb]; [|done]. by rewrite Em.
Qed.

(** [scans dests scanner rows scanner']: to a caller that scans each row
    into destinations holding [dests], the scanner gives the rows of
    [rows], each scanned without error; then [Next] answers false and
    leaves [scanner']. *)
Inductive scans (dests : list value) : S -> list (list value) -> S -> Prop :=
| scans_end s s' : Next s = (s', false) -> scans dests s [] s'
| scans_row s s1 s2 row rest s' :
    Next s = (s1, true) ->
    Scan s1 dests = (s2, row, None) ->
    scans dests s2 rest s' ->
    scans dests s (row :: rest) s'.

Lemma struct_loop_scans t tr columns ignore fields ds (s : S) rows s' :
  (forall s0 : S, MapRowToStruct columns s0 (New t) ignore [tr] =
     let '(sc, written, err) := Scan s0 (map (pointee fields) ds) in
     mkAfter sc (Ptr (Some (Struct (write_back fields ds written)))) [ds] (Return err)) ->
  scans (map (pointee fields) ds) s rows s' ->
  forall fuel items log, length rows < fuel ->
    struct_loop ul fuel s (TPtr t) columns ignore [tr] items log =
    Some (s', log ++ flat_map (fun _ => [CallNext; CallScan (length ds)]) rows ++ [CallNext],
          inl (items ++ map (fun row => Ptr (Some (Struct (write_back fields ds row)))) rows)).
Proof.
  intros Hmap. induction 1 as [s s' Hn|s s1 s2 row rest s' Hn Hs _ IH];
    intros [|fuel] items log Hlt; cbn [length] in Hlt; try lia; cbn [struct_loop].
  - rewrite Hn. cbn. by rewrite app_nil_r.
  - rewrite Hn. cbn [negb]. rewrite Hmap, Hs.
    cbn [result scan_calls scanner_after Struct_after map]. rewrite IH by lia.
    cbn [map flat_map]. by rewrite <- !app_assoc.
Qed.

(** X18. [MapRowsToSliceOfStruct] with no transform into a [[]*T], [T] a
    struct whose fields are exported and have different names and
    different keys (the column of the [sql] tag, or else the name), for
    columns that are each the key of a field, on a result set that can be
    read to its end. The slice receives, after the elements it held, one
    pointer to a new [T] per row, in order, in which the values of the
    row have been stored through the addresses of the fields the columns
    name. [Columns] is called once, each row is one [Next] and one
    [Scan], and the result is what [Err] returns. *)
Theorem MapRowsToSliceOfStruct_result_set (scanner : S) s1 s' columns idx t fields items ignore
    rows fuel :
  Zero t = Struct fields ->
  NoDup (map Name fields) ->
  NoDup (map (key ul "sql") fields) ->
  Forall (fun f => CanSet f = true) fields ->
  Forall2 (fun column i => exists f, fields !! i = Some f /\ key ul "sql" f = column)
          columns idx ->
  Columns scanner = (s1, columns, None) ->
  scans (map (pointee fields) (map FieldAddr idx)) s1 rows s' ->
  length rows < fuel ->
  MapRowsToSliceOfStruct ul fuel scanner (SliceAt (TPtr t) items) ignore [] =
  Some (mkRowsAfter (fst (Close (fst (Err s'))))
          (SliceAt (TPtr t)
             (items ++ map (fun row =>
                Ptr (Some (Struct (write_back fields (map FieldAddr idx) row)))) rows))
          (CallColumns :: flat_map (fun _ => [CallNext; CallScan (length columns)]) rows ++
           [CallNext; CallErr; CallClose])
          (RowsReturn (Passed <$> snd (Err s')))).
Proof.
  intros Hz Hnames Hkeys Hset Hcols Hc Hscans Hlt.
  unfold MapRowsToSliceOfStruct. cbn [pointer slice_of negb]. rewrite Hc.
  pose proof (CreateTagMapperFunc_struct ul (New t) [] fields) as Hm.
  unfold New in Hm. rewrite Hz in Hm. specialize (Hm eq_refl).
  rewrite (struct_loop_default fuel s1 (TPtr t) columns ignore items [CallColumns] _
             ltac:(unfold New; rewrite Hz; exact Hm)).
  rewrite (struct_loop_scans t _ columns ignore fields (map FieldAddr idx) s1 rows s').
  - cbn [Set_]. unfold deferred_Close. destruct (Err s') as [s2 err]. cbn [fst snd].
    destruct (Close s2) as [s3 cerr]. cbn [fst]. rewrite length_map.
    rewrite <- (Forall2_length _ _ _ Hcols). cbn [app]. by rewrite <- !app_assoc.
  - intros s0. unfold New. rewrite Hz, MapRowToStruct_pointer. unfold transform_of. cbn [hd].
    by rewrite (tag_mapper_collect ul fields (first_tagname []) ignore columns idx
                  Hnames Hkeys Hset Hcols []).
  - done.
  - done.
Qed.

End Structs.

(** ** The theorems at a result set of two rows *)

(** The rows of [SELECT id, name FROM users], one name as [[]byte]. *)
Definition users : Cursor :=
  mkCursor ["id"; "name"] [[Int 1; Bytes "ann"]; [Int 2; Str "bob"]] None false.

(** The cursor once read and closed. *)
Definition users_closed : Cursor := mkCursor ["id"; "name"] [] None true.

(** [struct { ID int `sql:"column:id"`; Name string `sql:" column:name ,persistzerovalue"` }] *)
Definition User : rtype :=
  TStruct [ mkField "ID" "" [("sql", "column:id")] TInt;
            mkField "Name" "" [("sql", " column:name ,persistzerovalue")] TString ].

(** [struct { Bar int `sql:"bar"` }], the struct of the comment of
    [CreateTagMapperFunc]. *)
Definition BarOnly : list (StructField value) :=
  [ mkField "Bar" "" [("sql", "bar")] (Int 0) ].






(** A [*string] with a column to map: the panic, and no scan. *)
Lemma MapRowToStruct_no_struct_witness :
  (forall fields, Some (Str "x") <> Some (Struct fields)) /\
  result (MapRowToStruct ["Name"] row3 (Ptr (Some (Str "x"))) false []) = Panic /\
  scan_calls (MapRowToStruct ["Name"] row3 (Ptr (Some (Str "x"))) false []) = [].
Proof.
  assert (Hno : forall fields, Some (Str "x") <> Some (Struct fields)).
  { intros fields. discriminate. }
  split; [exact Hno|].
  pose proof (MapRowToStruct_no_struct ["Name"] row3 (Some (Str "x")) false [] Hno) as H.
  cbn zeta in H. destruct H as (Hres & Hcalls & _). split; [exact Hres|exact Hcalls].
Defined.

Lemma MapRowToStruct_all_found_witness :
  Forall (fun column => ~ missing Person (transform_of [] column)) ["Age"; "Name"] /\
  MapRowToStruct ["Age"; "Name"] (mkRow [Int 7; Str "Ann"]) (Ptr (Some (Struct Person))) false [] =
  MapRowToStruct ["Age"; "Name"] (mkRow [Int 7; Str "Ann"]) (Ptr (Some (Struct Person))) true [].
Proof.
  assert (Hall : Forall (fun column => ~ missing Person (transform_of [] column)) ["Age"; "Name"]).
  { repeat constructor; unfold missing; vm_compute; discriminate. }
  split; [exact Hall|].
  exact (MapRowToStruct_all_found ["Age"; "Name"] (mkRow [Int 7; Str "Ann"]) Person [] Hall).
Defined.

(** The columns Baz and bar of a row into a [*Foo]: [bar] is the column
    of the field [Bar]. *)
Lemma tag_mapper_maps_columns_witness :
  exists tr, CreateTagMapperFunc lower_ascii (Ptr (Some (Struct Foo))) [] = Mapper tr /\
    MapRowToStruct ["Baz"; "bar"] (mkRow [Str "z"; Int 5]) (Ptr (Some (Struct Foo))) false [tr] =
    mkAfter (mkRow [Str "z"; Int 5])
      (Ptr (Some (Struct [ mkField "Bar" "" [("sql", "column:bar")] (Int 5);
                           mkField "Baz" "" [] (Str "z");
                           mkField "Qux" "" [("sql", "persistzerovalue")] (Bool false) ])))
      [[FieldAddr 1; FieldAddr 0]] (Return None).
Proof.
  assert (Hnames : NoDup (map Name Foo)).
  { apply (bool_decide_unpack _). vm_compute. reflexivity. }
  assert (Hkeys : NoDup (map (key lower_ascii (first_tagname [])) Foo)).
  { apply (bool_decide_unpack _). vm_compute. reflexivity. }
  assert (Hset : Forall (fun f => CanSet f = true) Foo).
  { repeat constructor. }
  assert (Hcols : Forall2 (fun column i => exists f, Foo !! i = Some f /\
                             key lower_ascii (first_tagname []) f = column)
                          ["Baz"; "bar"] [1; 0]).
  { repeat constructor; eexists; (split; [reflexivity|vm_compute; reflexivity]). }
  destruct (tag_mapper_maps_columns lower_ascii (mkRow [Str "z"; Int 5]) Foo [] false
              ["Baz"; "bar"] [1; 0] Hnames Hkeys Hset Hcols) as (tr & Htr & Hmap).
  exists tr. split; [exact Htr|]. rewrite Hmap. reflexivity.
Defined.

(** The struct of the comment of [CreateTagMapperFunc]: the column [bar]
    is left as it is, and so names no field. *)
Lemma CreateTagMapperFunc_identity_witness :
  exists tr, CreateTagMapperFunc lower_ascii (Struct BarOnly) [] = Mapper tr /\
    tr "bar" = "bar" /\ FieldByName BarOnly (tr "bar") = None.
Proof.
  assert (Hall : Forall (fun f => Forall (fun item => HasPrefix (TrimSpace item) "column:" = false)
                                    (Split (Get (Tag f) (first_tagname [])) ",")) BarOnly).
  { repeat constructor. }
  destruct (CreateTagMapperFunc_identity lower_ascii (Struct BarOnly) [] BarOnly eq_refl Hall)
    as (tr & Htr & Hid).
  exists tr. split; [exact Htr|]. rewrite Hid. split; reflexivity.
Defined.

(** An int, a nil pointer, and a closed cursor. *)
Lemma MapRowsToSliceOfStruct_refuses_witness :
  MapRowsToSliceOfStruct lower_ascii 0 users (Other (Int 5)) false [] =
    Some (mkRowsAfter users_closed (Other (Int 5)) [CallClose]
            (RowsReturn (Some (ExpectPointer (Other (Int 5)))))) /\
  MapRowsToSliceOfStruct lower_ascii 0 users (Other (Ptr None)) false [] =
    Some (mkRowsAfter users_closed (Other (Ptr None)) [CallClose]
            (RowsReturn (Some (NotASlice (Other (Ptr None)))))) /\
  MapRowsToSliceOfStruct lower_ascii 0 users_closed (SliceAt (TPtr User) []) false [] =
    Some (mkRowsAfter users_closed (SliceAt (TPtr User) []) [CallColumns; CallClose]
            (RowsReturn (Some (Passed (ScanError "Rows are closed"))))).
Proof.
  split; [|split].
  - exact (proj1 (MapRowsToSliceOfStruct_refuses lower_ascii 0 users (Other (Int 5)) false [])
             eq_refl).
  - exact (proj1 (MapRowsToSliceOfStruct_refuses lower_ascii 0 users (Other (Ptr None)) false [])
             eq_refl).
  - exact (proj2 (MapRowsToSliceOfStruct_refuses lower_ascii 0 users_closed
                    (SliceAt (TPtr User) []) false [])
             (TPtr User) [] (ScanError "Rows are closed") eq_refl eq_refl).
Defined.



(** A [[]int]: no mapper, and the error at the first row. *)
Lemma MapRowsToSliceOfStruct_default_transform_witness :
  MapRowsToSliceOfStruct lower_ascii 1 users (SliceAt TInt []) false [] =
    Some (mkRowsAfter users_closed (SliceAt TInt []) [CallColumns; CallNext; CallClose]
            (RowsReturn (Some (Passed (StructExpected (New TInt)))))).
Proof.
  pose proof (MapRowsToSliceOfStruct_default_transform lower_ascii 0 users (SliceAt TInt [])
                TInt [] false eq_refl) as H.
  cbn in H. exact (H _ _ _ eq_refl eq_refl).
Defined.

(** The two rows as slices: the name of the first as a string. *)
Lemma MapRowsToSliceOfSlices_result_set_witness :
  MapRowsToSliceOfSlices 3 users (Some []) =
    Some (mkRowsAfter users_closed (Some [[Int 1; Str "ann"]; [Int 2; Str "bob"]])
            [CallNext; CallColumns; CallScan 2; CallNext; CallColumns; CallScan 2;
             CallNext; CallErr; CallClose]
            (Return None)).
Proof.
  assert (Hy : yields users
                 (map (fun row => (["id"; "name"], row)) [[Int 1; Bytes "ann"]; [Int 2; Str "bob"]])
                 (mkCursor ["id"; "name"] [] None false)).
  { apply Cursor_yields. repeat constructor. }
  assert (Hlt : length (map (fun row : list value => (["id"; "name"], row))
                          [[Int 1; Bytes "ann"]; [Int 2; Str "bob"]]) < 3).
  { cbn. lia. }
  exact (MapRowsToSliceOfSlices_result_set users _ _ [] 3 Hy Hlt).
Defined.

(** The two rows as maps. *)
Lemma MapRowsToSliceOfMaps_result_set_witness :
  exists r m1 m2,
    MapRowsToSliceOfMaps 3 users (Some []) = Some r /\
    rows_dest r = Some [m1; m2] /\ rows_result r = Return None /\
    m1 !! "id" = Some (Int 1) /\ m1 !! "name" = Some (Str "ann") /\ m1 !! "age" = None /\
    m2 !! "id" = Some (Int 2) /\ m2 !! "name" = Some (Str "bob").
Proof.
  assert (Hy : yields users
                 (map (fun row => (["id"; "name"], row)) [[Int 1; Bytes "ann"]; [Int 2; Str "bob"]])
                 (mkCursor ["id"; "name"] [] None false)).
  { apply Cursor_yields. repeat constructor. }
  assert (Hlt : length (map (fun row : list value => (["id"; "name"], row))
                          [[Int 1; Bytes "ann"]; [Int 2; Str "bob"]]) < 3).
  { cbn. lia. }
  destruct (MapRowsToSliceOfMaps_result_set users _ _ [] 3 Hy Hlt)
    as (r & new & Hr & Hdest & Hres & _ & Hall).
  cbn [map] in Hall.
  apply Forall2_cons_inv_l in Hall as (m1 & new' & [H1 H1'] & Hall & ->).
  apply Forall2_cons_inv_l in Hall as (m2 & new'' & [H2 _] & Hall & ->).
  apply Forall2_nil_inv_l in Hall as ->.
  assert (Hlast : forall (k k' : nat) (c : string), k < k' -> k' < 2 ->
            ["id"; "name"] !! k = Some c -> ["id"; "name"] !! k' <> Some c).
  { intros [|[|k]] [|[|k']] c Hk Hk'; try lia. intros [= <-]. discriminate. }
  assert (Hlater : forall (k : nat) (c : string), ["id"; "name"] !! k = Some c ->
            forall k', k < k' -> ["id"; "name"] !! k' <> Some c).
  { intros k c Hc k' Hk Hc'. assert (k' < 2) by (by apply lookup_lt_Some in Hc').
    by apply (Hlast k k' c). }
  exists r, m1, m2. split; [exact Hr|]. split; [exact Hdest|]. split; [exact Hres|].
  cbn [fst snd] in H1, H1', H2. repeat split.
  - apply (H1 0 "id" (Int 1) eq_refl eq_refl (Hlater 0 "id" eq_refl)).
  - apply (H1 1 "name" (Bytes "ann") eq_refl eq_refl (Hlater 1 "name" eq_refl)).
  - apply H1'. intros Hin. apply list_elem_of_In in Hin. cbn in Hin.
    destruct Hin as [Hin|[Hin|[]]]; discriminate Hin.
  - apply (H2 0 "id" (Int 2) eq_refl eq_refl (Hlater 0 "id" eq_refl)).
  - apply (H2 1 "name" (Str "bob") eq_refl eq_refl (Hlater 1 "name" eq_refl)).
Defined.

(** The two rows as [[]*User]: the [[]byte] of the first row is stored in
    the field as the scanner gave it. *)
Lemma MapRowsToSliceOfStruct_result_set_witness :
  MapRowsToSliceOfStruct lower_ascii 3 users (SliceAt (TPtr User) []) false [] =
    Some (mkRowsAfter users_closed
            (SliceAt (TPtr User)
               [ Ptr (Some (Struct
                   [ mkField "ID" "" [("sql", "column:id")] (Int 1);
                     mkField "Name" "" [("sql", " column:name ,persistzerovalue")] (Bytes "ann") ]));
                 Ptr (Some (Struct
                   [ mkField "ID" "" [("sql", "column:id")] (Int 2);
                     mkField "Name" "" [("sql", " column:name ,persistzerovalue")] (Str "bob") ])) ])
            [CallColumns; CallNext; CallScan 2; CallNext; CallScan 2;
             CallNext; CallErr; CallClose]
            (RowsReturn None)).
Proof.
  pose (fields := [ mkField "ID" "" [("sql", "column:id")] (Int 0);
                    mkField "Name" "" [("sql", " column:name ,persistzerovalue")] (Str "") ]).
  assert (Hnames : NoDup (map Name fields)).
  { apply (bool_decide_unpack _). vm_compute. reflexivity. }
  assert (Hkeys : NoDup (map (key lower_ascii "sql") fields)).
  { apply (bool_decide_unpack _). vm_compute. reflexivity. }
  assert (Hset : Forall (fun f => CanSet f = true) fields).
  { repeat constructor. }
  assert (Hcols : Forall2 (fun column i => exists f, fields !! i = Some f /\
                             key lower_ascii "sql" f = column) ["id"; "name"] [0; 1]).
  { repeat constructor; eexists; (split; [reflexivity|vm_compute; reflexivity]). }
  assert (Hscans : scans (map (pointee fields) (map FieldAddr [0; 1])) users
                     [[Int 1; Bytes "ann"]; [Int 2; Str "bob"]]
                     (mkCursor ["id"; "name"] [] None false)).
  { eapply scans_row; [reflexivity|reflexivity|].
    eapply scans_row; [reflexivity|reflexivity|]. apply scans_end. reflexivity. }
  exact (MapRowsToSliceOfStruct_result_set lower_ascii users users
           (mkCursor ["id"; "name"] [] None false) ["id"; "name"] [0; 1] User fields [] false
           [[Int 1; Bytes "ann"]; [Int 2; Str "bob"]] 3
           eq_refl Hnames Hkeys Hset Hcols eq_refl Hscans ltac:(cbn; lia)).
Defined.

End rows_spec.

(* ===================================================================== *)
(** * Properties of the document manager                                  *)
(* ===================================================================== *)
Module mongo_spec.
Import gostrings mongo mongo_test.
Local Open Scope list_scope.

(** ** The tag parser *)

Definition recognized : list string := ["targetDocument"; "mappedBy"; "cascade"].

Definition cascade_words : list string := ["persist"; "remove"; "all"].

Lemma parse_cascade_words v c :
  parse_cascade v = Some c -> lower_ascii v ∈ cascade_words.
Proof.
  unfold parse_cascade, cascade_words.
  destruct (String.eqb (lower_ascii v) "persist") eqn:E1.
  { apply String.eqb_eq in E1 as ->. intros _. set_solver. }
  destruct (String.eqb (lower_ascii v) "remove") eqn:E2.
  { apply String.eqb_eq in E2 as ->. intros _. set_solver. }
  destruct (String.eqb (lower_ascii v) "all") eqn:E3.
  { apply String.eqb_eq in E3 as ->. intros _. set_solver. }
  discriminate.
Qed.

(** An accepted item sets one field that was not set. *)
Lemma interpret_item_Parsed p k v p' :
  interpret_item p (k, v) = Parsed p' ->
  (k = "targetDocument" /\ p_target p = None /\
   p' = mkPartial (Some v) (p_mappedBy p) (p_cascade p)) \/
  (k = "mappedBy" /\ p_mappedBy p = None /\
   p' = mkPartial (p_target p) (Some v) (p_cascade p)) \/
  (k = "cascade" /\ p_cascade p = None /\
   exists c, parse_cascade v = Some c /\ p' = mkPartial (p_target p) (p_mappedBy p) (Some c)).
Proof.
  unfold interpret_item.
  destruct (String.eqb k "targetDocument") eqn:E1.
  { apply String.eqb_eq in E1 as ->. destruct (p_target p); [discriminate|].
    intros [= <-]. by left. }
  destruct (String.eqb k "mappedBy") eqn:E2.
  { apply String.eqb_eq in E2 as ->. destruct (p_mappedBy p); [discriminate|].
    intros [= <-]. right. by left. }
  destruct (String.eqb k "cascade") eqn:E3; [|discriminate].
  apply String.eqb_eq in E3 as ->. destruct (p_cascade p); [discriminate|].
  destruct (parse_cascade v) as [c|] eqn:Ec; [|discriminate].
  intros [= <-]. right. right. eauto.
Qed.

(** What an accepted list of items tells. *)
Record accepted (p : Partial) (kvs : list (string * string)) (p' : Partial) : Prop := {
  acc_recognized : Forall (fun kv => fst kv ∈ recognized) kvs;
  acc_nodup : NoDup (fst <$> kvs);
  acc_target_new : "targetDocument" ∈ fst <$> kvs -> p_target p = None;
  acc_mappedBy_new : "mappedBy" ∈ fst <$> kvs -> p_mappedBy p = None;
  acc_cascade_new : "cascade" ∈ fst <$> kvs -> p_cascade p = None;
  acc_target : forall t,
    p_target p' = Some t <-> p_target p = Some t \/ ("targetDocument", t) ∈ kvs;
  acc_mappedBy : forall g,
    p_mappedBy p' = Some g <-> p_mappedBy p = Some g \/ ("mappedBy", g) ∈ kvs;
  acc_cascade : forall c,
    p_cascade p' = Some c <->
    p_cascade p = Some c \/ exists v, ("cascade", v) ∈ kvs /\ parse_cascade v = Some c;
  acc_cascade_valid : forall v, ("cascade", v) ∈ kvs -> is_Some (parse_cascade v)
}.

Lemma elem_of_fst (k v : string) (kvs : list (string * string)) :
  (k, v) ∈ kvs -> k ∈ fst <$> kvs.
Proof. intros H. apply list_elem_of_fmap. by exists (k, v). Qed.

Lemma interpret_items_Parsed kvs : forall p p',
  interpret_items p kvs = Parsed p' -> accepted p kvs p'.
Proof.
  induction kvs as [|[k v] kvs IH]; intros p p'; cbn [interpret_items].
  - intros [= <-]. split; cbn.
    + constructor.
    + constructor.
    + intros Hin. by apply elem_of_nil in Hin.
    + intros Hin. by apply elem_of_nil in Hin.
    + intros Hin. by apply elem_of_nil in Hin.
    + intros t. split; [by left|]. intros [?|Hin]; [done|]. by apply elem_of_nil in Hin.
    + intros g. split; [by left|]. intros [?|Hin]; [done|]. by apply elem_of_nil in Hin.
    + intros c. split; [by left|]. intros [?|(v & Hin & _)]; [done|]. by apply elem_of_nil in Hin.
    + intros v Hin. by apply elem_of_nil in Hin.
  - destruct (interpret_item p (k, v)) as [p1|e] eqn:E1; [|discriminate].
    intros E. specialize (IH _ _ E).
    destruct IH as [Hrec Hnd acc_target_new0 acc_mappedBy_new0 acc_cascade_new0
                    acc_target0 acc_mappedBy0 acc_cascade0 acc_valid0].
    apply interpret_item_Parsed in E1.
    destruct E1 as [(-> & Hp & ->)|[(-> & Hp & ->)|(-> & Hp & c0 & Hc0 & ->)]];
      cbn in *.
    + split; cbn.
      * constructor; [by left|done].
      * constructor; [|done]. intros Hin. by specialize (acc_target_new0 Hin).
      * done.
      * intros [?|?]%elem_of_cons; [done|auto].
      * intros [?|?]%elem_of_cons; [done|auto].
      * intros t. rewrite acc_target0, Hp. split.
        -- intros [[= ->]|Hin]; right; [left|by right].
        -- intros [?|[[= ->]|Hin]%elem_of_cons]; [done|by left|].
           apply elem_of_fst in Hin. by specialize (acc_target_new0 Hin).
      * intros g. rewrite acc_mappedBy0. split.
        -- intros [?|?]; [by left|right; by right].
        -- intros [?|[[=]|?]%elem_of_cons]; [by left|by right].
      * intros c. rewrite acc_cascade0. split.
        -- intros [?|(v' & ? & ?)]; [by left|right; exists v'; split; [by right|done]].
        -- intros [?|(v' & [[=]|?]%elem_of_cons & ?)]; [by left|right; eauto].
      * intros v' [[=]|?]%elem_of_cons. auto.
    + split; cbn.
      * constructor; [right; by left|done].
      * constructor; [|done]. intros Hin. by specialize (acc_mappedBy_new0 Hin).
      * intros [?|?]%elem_of_cons; [done|auto].
      * done.
      * intros [?|?]%elem_of_cons; [done|auto].
      * intros t. rewrite acc_target0. split.
        -- intros [?|?]; [by left|right; by right].
        -- intros [?|[[=]|?]%elem_of_cons]; [by left|by right].
      * intros g. rewrite acc_mappedBy0, Hp. split.
        -- intros [[= ->]|Hin]; right; [left|by right].
        -- intros [?|[[= ->]|Hin]%elem_of_cons]; [done|by left|].
           apply elem_of_fst in Hin. by specialize (acc_mappedBy_new0 Hin).
      * intros c. rewrite acc_cascade0. split.
        -- intros [?|(v' & ? & ?)]; [by left|right; exists v'; split; [by right|done]].
        -- intros [?|(v' & [[=]|?]%elem_of_cons & ?)]; [by left|right; eauto].
      * intros v' [[=]|?]%elem_of_cons. auto.
    + split; cbn.
      * constructor; [do 2 right; by left|done].
      * constructor; [|done]. intros Hin. by specialize (acc_cascade_new0 Hin).
      * intros [?|?]%elem_of_cons; [done|auto].
      * intros [?|?]%elem_of_cons; [done|auto].
      * done.
      * intros t. rewrite acc_target0. split.
        -- intros [?|?]; [by left|right; by right].
        -- intros [?|[[=]|?]%elem_of_cons]; [by left|by right].
      * intros g. rewrite acc_mappedBy0. split.
        -- intros [?|?]; [by left|right; by right].
        -- intros [?|[[=]|?]%elem_of_cons]; [by left|by right].
      * intros c. rewrite acc_cascade0, Hp. split.
        -- intros [[= ->]|(v' & Hin & Hv')]; right.
           ++ exists v. split; [by left|done].
           ++ exists v'. split; [by right|done].
        -- intros [?|(v' & [[= ->]|Hin]%elem_of_cons & Hv')]; [done| |].
           ++ left. congruence.
           ++ apply elem_of_fst in Hin. by specialize (acc_cascade_new0 Hin).
      * intros v' [[= ->]|?]%elem_of_cons; [by eexists|auto].
Qed.

Lemma parse_kind_Some k rk :
  parse_kind k = Some rk ->
  (k = "referenceOne" /\ rk = One) \/ (k = "referenceMany" /\ rk = Many).
Proof.
  unfold parse_kind. destruct (String.eqb k "referenceOne") eqn:E1.
  { apply String.eqb_eq in E1. intros [= <-]. by left. }
  destruct (String.eqb k "referenceMany") eqn:E2; [|discriminate].
  apply String.eqb_eq in E2. intros [= <-]. by right.
Qed.

(** What the parser accepts. *)
Lemma Parse_Parsed annotation d :
  Parse annotation = Parsed d ->
  exists k kvs, lex annotation = Some (k, kvs) /\
    ((k = "referenceOne" /\ kind d = One) \/ (k = "referenceMany" /\ kind d = Many)) /\
    Forall (fun kv => fst kv ∈ recognized) kvs /\
    NoDup (fst <$> kvs) /\
    ("targetDocument", target d) ∈ kvs /\
    (forall g, mappedBy d = Some g <-> ("mappedBy", g) ∈ kvs) /\
    (forall v, ("cascade", v) ∈ kvs ->
       lower_ascii v ∈ cascade_words /\ parse_cascade v = Some (cascade d)).
Proof.
  unfold Parse. destruct (lex annotation) as [[k kvs]|]; [|discriminate].
  destruct (parse_kind k) as [rk|] eqn:Ek; [|discriminate].
  destruct (interpret_items _ kvs) as [p|] eqn:Ei; [|discriminate].
  destruct (p_target p) as [t|] eqn:Et; [|discriminate]. intros [= <-].
  exists k, kvs. apply interpret_items_Parsed in Ei.
  destruct Ei as [Hrec Hnd _ _ _ acc_target0 acc_mappedBy0 acc_cascade0 acc_valid0]. cbn in *.
  split; [done|]. split; [by apply parse_kind_Some|].
  split; [done|]. split; [done|]. split; [|split].
  - apply acc_target0 in Et as [?|?]; done.
  - intros g. rewrite acc_mappedBy0. split; [by intros [?|?]|by right].
  - intros v Hin. destruct (acc_valid0 v Hin) as [c Hc].
    assert (Hp : p_cascade p = Some c) by (apply acc_cascade0; eauto).
    rewrite Hp. cbn. split; [by eapply parse_cascade_words|done].
Qed.


(** ** Serialization *)

(** The storage keys of a type. *)
Definition keys (meta : TypeMeta) : list string :=
  (snd <$> scalarFields meta) ++
  ((fun fkd : string * string * RelationshipDescriptor => snd (fst fkd)) <$> relationships meta).

(** The two parts of a serialized document, as [serialize] builds them. *)
Definition scalar_part (meta : TypeMeta) (e : Entity) : list (string * dval) :=
  omap (fun fk : string * string =>
          (fun v => (snd fk, DScalar v)) <$> scalars e !! fst fk)
       (scalarFields meta).

Definition ref_part (w : World) (meta : TypeMeta) (e : Entity) : list (string * dval) :=
  omap (fun fkd : string * string * RelationshipDescriptor =>
          let '(f, k, d) := fkd in
          if owning d then
            Some (k, match kind d with
                     | One =>
                       DRef (match refs e !! f with
                             | Some (RefOne (Some b)) => Some (ident_of w b)
                             | _ => None
                             end)
                     | Many =>
                       DRefs (match refs e !! f with
                              | Some (RefMany bs) => map (ident_of w) bs
                              | _ => []
                              end)
                     end)
          else None)
       (relationships meta).

Lemma serialize_parts w meta e :
  serialize w meta e = mkDoc (ident e) (list_to_map (scalar_part meta e ++ ref_part w meta e)).
Proof. reflexivity. Qed.

Lemma scalar_part_keys meta e :
  (fst <$> scalar_part meta e) `sublist_of` (snd <$> scalarFields meta).
Proof.
  unfold scalar_part. induction (scalarFields meta) as [|[f k] l IH]; [done|]. csimpl.
  destruct (scalars e !! f); csimpl; [by apply sublist_skip|by apply sublist_cons].
Qed.

Lemma ref_part_keys w meta e :
  (fst <$> ref_part w meta e) `sublist_of`
  ((fun fkd : string * string * RelationshipDescriptor => snd (fst fkd)) <$> relationships meta).
Proof.
  unfold ref_part. induction (relationships meta) as [|[[f k] d] l IH]; [done|]. csimpl.
  destruct (owning d); csimpl; [by apply sublist_skip|by apply sublist_cons].
Qed.

Lemma serialize_NoDup w meta e :
  NoDup (keys meta) -> NoDup (fst <$> (scalar_part meta e ++ ref_part w meta e)).
Proof.
  intros Hnd. eapply sublist_NoDup; [exact Hnd|]. rewrite fmap_app.
  apply sublist_app; [apply scalar_part_keys|apply ref_part_keys].
Qed.

Lemma snd_NoDup_inj {A B : Type} (l : list (A * B)) a b k :
  NoDup (snd <$> l) -> (a, k) ∈ l -> (b, k) ∈ l -> a = b.
Proof.
  induction l as [|[a' k'] l IH]; [by intros _ H%elem_of_nil|]. csimpl.
  intros [Hout Hnd]%NoDup_cons Ha Hb.
  apply elem_of_cons in Ha as [Ha|Ha]; apply elem_of_cons in Hb as [Hb|Hb].
  - congruence.
  - exfalso. apply Hout. apply list_elem_of_fmap. exists (b, k). split; [cbn; congruence|done].
  - exfalso. apply Hout. apply list_elem_of_fmap. exists (a, k). split; [cbn; congruence|done].
  - by apply IH.
Qed.

(** A scalar field is stored under its storage key... *)
Lemma serialize_scalar w meta e f k v :
  NoDup (keys meta) -> (f, k) ∈ scalarFields meta -> scalars e !! f = Some v ->
  d_fields (serialize w meta e) !! k = Some (DScalar v).
Proof.
  intros Hnd Hin Hv. rewrite serialize_parts. cbn [d_fields].
  apply elem_of_list_to_map_1; [by apply serialize_NoDup|].
  apply elem_of_app. left. apply list_elem_of_omap. exists (f, k). split; [done|].
  cbn. by rewrite Hv.
Qed.

(** ... and nothing else is stored under that key. *)
Lemma serialize_scalar_inv w meta e f k x :
  NoDup (keys meta) -> (f, k) ∈ scalarFields meta ->
  d_fields (serialize w meta e) !! k = Some x ->
  exists v, x = DScalar v /\ scalars e !! f = Some v.
Proof.
  intros Hnd Hin Hx. rewrite serialize_parts in Hx. cbn [d_fields] in Hx.
  apply elem_of_list_to_map_2 in Hx. apply NoDup_app in Hnd as (Hs & Hdisj & _).
  apply elem_of_app in Hx as [Hx|Hx].
  - apply list_elem_of_omap in Hx as ([f' k'] & Hin' & Hsome). cbn in Hsome.
    destruct (scalars e !! f') as [v|] eqn:Ev; [|discriminate].
    injection Hsome as -> <-. exists v. split; [done|].
    by rewrite (snd_NoDup_inj _ f f' k Hs Hin Hin').
  - exfalso. apply (Hdisj k).
    + apply list_elem_of_fmap. by exists (f, k).
    + apply (elem_of_sublist (fst <$> ref_part w meta e)); [|apply ref_part_keys].
      apply list_elem_of_fmap. by exists (k, x).
Qed.

Lemma scalars_of_names (doc : Document) (l : list (string * string)) :
  (fst <$> omap (fun fk : string * string =>
                   match d_fields doc !! snd fk with
                   | Some (DScalar v) => Some (fst fk, v)
                   | _ => None
                   end) l) `sublist_of` (fst <$> l).
Proof.
  induction l as [|[f k] l IH]; [done|]. csimpl.
  destruct (d_fields doc !! k) as [[v| |]|]; csimpl;
    try (by apply sublist_cons); by apply sublist_skip.
Qed.

(** Reading the scalar fields back from the document of an entity gives
    the scalar fields of the entity. *)
Lemma scalars_roundtrip w meta e :
  NoDup (keys meta) -> NoDup (fst <$> scalarFields meta) ->
  (forall f, is_Some (scalars e !! f) -> f ∈ fst <$> scalarFields meta) ->
  scalars_of meta (serialize w meta e) = scalars e.
Proof.
  intros Hnd Hnames Hdom. apply map_eq. intros f. unfold scalars_of.
  set (pick := fun fk : string * string =>
         match d_fields (serialize w meta e) !! snd fk with
         | Some (DScalar v) => Some (fst fk, v)
         | _ => None
         end).
  pose proof (scalars_of_names (serialize w meta e) (scalarFields meta)) as Hsub.
  fold pick in Hsub.
  destruct (scalars e !! f) as [v|] eqn:E.
  - apply elem_of_list_to_map_1; [by eapply sublist_NoDup; [exact Hnames|]|].
    assert (Hf' : f ∈ fst <$> scalarFields meta) by (apply Hdom; by eexists).
    apply list_elem_of_fmap in Hf' as ([f' k] & -> & Hin). cbn in E.
    apply list_elem_of_omap. exists (f', k). split; [done|]. unfold pick. cbn [fst snd].
    by rewrite (serialize_scalar w meta e f' k v Hnd Hin E).
  - apply not_elem_of_list_to_map_1. intros Hin.
    apply list_elem_of_fmap in Hin as ([f' v] & -> & Hin). cbn in E.
    apply list_elem_of_omap in Hin as ([f'' k] & Hin & Hpick). unfold pick in Hpick. cbn [fst snd] in Hpick.
    destruct (d_fields (serialize w meta e) !! k) as [x|] eqn:Ex; [|discriminate].
    destruct (serialize_scalar_inv w meta e f'' k x Hnd Hin Ex) as (v' & -> & Hv').
    injection Hpick as -> <-. congruence.
Qed.




(** ** Storage keys *)

Lemma catalog_keys decls : forall scalars rels,
  catalog decls = Parsed (scalars, rels) ->
  forall f, f ∈ decls -> is_identity f = false ->
  match odm f with
  | None => (Name f, storage_key f) ∈ scalars
  | Some _ => exists d, (Name f, storage_key f, d) ∈ rels
  end.
Proof.
  induction decls as [|g decls IH]; intros scalars rels Hcat f Hin Hid.
  { by apply elem_of_nil in Hin. }
  cbn [catalog] in Hcat.
  destruct (catalog decls) as [[scalars' rels']|] eqn:E; [|discriminate].
  specialize (IH _ _ eq_refl f).
  assert (Hstep : forall X : Prop,
    (f = g -> X) -> (f ∈ decls -> X) -> X).
  { intros X H1 H2. apply elem_of_cons in Hin as [?|?]; auto. }
  destruct (is_identity g) eqn:Eg.
  - injection Hcat as <- <-. apply Hstep; [intros ->; congruence|]. intros Hf. by apply IH.
  - destruct (odm g) as [ann|] eqn:Eo.
    + destruct (Parse ann) as [d|] eqn:Ep; [|discriminate]. injection Hcat as <- <-.
      apply Hstep.
      * intros ->. rewrite Eo. exists d. by left.
      * intros Hf. specialize (IH Hf Hid). destruct (odm f); [|done].
        destruct IH as [d' ?]. exists d'. by right.
    + injection Hcat as <- <-. apply Hstep.
      * intros ->. rewrite Eo. by left.
      * intros Hf. specialize (IH Hf Hid). destruct (odm f); [done|]. by right.
Qed.




(** ** Cascades *)

(** Through which references a cascade goes: those of the owning
    relationships whose cascade has the operation. *)
Definition references (e : Entity) (f : string) (b : addr) : Prop :=
  refs e !! f = Some (RefOne (Some b)) \/
  exists bs, refs e !! f = Some (RefMany bs) /\ b ∈ bs.

Lemma cascade_targets_spec which meta e b :
  b ∈ cascade_targets which meta e <->
  exists f k d, (f, k, d) ∈ relationships meta /\ owning d = true /\
    which (cascade d) = true /\ references e f b.
Proof.
  unfold cascade_targets, references. rewrite list_elem_of_In, in_flat_map. split.
  - intros ([[f k] d] & Hin & Hb). apply list_elem_of_In in Hin.
    exists f, k, d. split; [done|].
    destruct (owning d); [|by destruct Hb]. destruct (which (cascade d)); [|by destruct Hb].
    cbn in Hb. split; [done|]. split; [done|].
    destruct (refs e !! f) as [[[c|]|bs]|]; cbn in Hb; try done.
    + destruct Hb as [->|[]]. by left.
    + right. exists bs. by rewrite list_elem_of_In.
  - intros (f & k & d & Hin & Ho & Hw & Hb). exists (f, k, d).
    split; [by apply list_elem_of_In|]. rewrite Ho, Hw. cbn.
    destruct Hb as [->|(bs & -> & Hb)]; [by left|by apply list_elem_of_In].
Qed.


(** ** The identity map under reads *)

(** A read keeps the entries of the identity map. *)
Definition steady {A : Type} (m : M A) : Prop :=
  forall w w' r, m w = (w', r) -> idmap w ⊆ idmap w'.

Lemma steady_ret {A : Type} (a : A) : steady (ret a).
Proof. intros w w' r [= <- _]. done. Qed.

Lemma steady_bind {A B : Type} (m : M A) (k : A -> M B) :
  steady m -> (forall a, steady (k a)) -> steady (bind m k).
Proof.
  intros Hm Hk w w' r. unfold bind. destruct (m w) as [w1 [a|e]] eqn:E.
  - intros Hka. etrans; [by eapply Hm|by eapply Hk].
  - intros [= <- _]. by eapply Hm.
Qed.

Lemma steady_mapM {A B : Type} (f : A -> M B) (l : list A) :
  (forall x, steady (f x)) -> steady (mapM f l).
Proof.
  intros Hf. induction l as [|x l IH]; cbn [mapM]; [apply steady_ret|].
  apply steady_bind; [apply Hf|]. intros y.
  apply steady_bind; [apply IH|]. intros ys. apply steady_ret.
Qed.

Lemma steady_set_ref a f r : steady (set_ref a f r).
Proof. intros w w' res [= <- _]. done. Qed.

Lemma steady_inverse_query T id d g : steady (inverse_query T id d g).
Proof.
  intros w w' r. unfold inverse_query.
  destruct (registry w !! target d) as [meta'|]; [|by intros [= <- _]].
  destruct (owning_field meta' g) as [[k dg]|]; [|by intros [= <- _]].
  destruct (negb _); by intros [= <- _].
Qed.

Lemma steady_resolve_with (h : string -> Document -> M addr) T' id :
  (forall T d, steady (h T d)) -> steady (resolve_with h T' id).
Proof.
  intros Hh w w' r. unfold resolve_with.
  destruct (idmap w !! (T', id)); [by intros [= <- _]|].
  destruct (find_id (docs w T') id) as [doc'|]; [|by intros [= <- _]].
  apply steady_bind; [apply Hh|]. intros b. apply steady_ret.
Qed.

Lemma steady_resolve_field (h : string -> Document -> M addr) T a doc fkd :
  (forall T d, steady (h T d)) -> steady (resolve_field h T a doc fkd).
Proof.
  intros Hh. destruct fkd as [[f k] d]. unfold resolve_field.
  destruct (mappedBy d) as [g|].
  - apply steady_bind; [apply steady_inverse_query|]. intros ds.
    apply steady_bind; [by apply steady_mapM|]. intros bs. apply steady_set_ref.
  - destruct (kind d).
    + destruct (d_fields doc !! k) as [[v|[id|]|ids]|]; try apply steady_set_ref.
      apply steady_bind; [by apply steady_resolve_with|]. intros r. apply steady_set_ref.
    + destruct (d_fields doc !! k) as [[v|id|ids]|]; try apply steady_set_ref.
      apply steady_bind; [apply steady_mapM; intros x; by apply steady_resolve_with|].
      intros rs. apply steady_set_ref.
Qed.

Lemma hydrate_unfold fuel T doc w :
  hydrate fuel T doc w =
  match idmap w !! (T, d_id doc) with
  | Some a => (w, Ok a)
  | None =>
    match fuel with
    | O => (w, Err (IntegrityError "hydration does not end"))
    | S fuel' =>
      match registry w !! T with
      | None => (w, Err (UsageError "unregistered type"))
      | Some meta =>
        bind (fresh_entity T meta doc) (fun a =>
          bind (mapM (resolve_field (hydrate fuel') T a doc) (relationships meta))
               (fun _ => ret a)) w
      end
    end
  end.
Proof. by destruct fuel. Qed.

(** Hydration keeps the entries of the identity map... *)
Lemma steady_hydrate fuel : forall T doc, steady (hydrate fuel T doc).
Proof.
  induction fuel as [|fuel IH]; intros T doc w w' r; rewrite hydrate_unfold;
    destruct (idmap w !! (T, d_id doc)) as [a|] eqn:Ei; try by intros [= <- _].
  destruct (registry w !! T) as [meta|]; [|by intros [= <- _]].
  unfold bind at 1. cbn [fresh_entity]. intros H.
  etrans; [|eapply (steady_bind _ _ _ _ _ _ _ H)].
  - cbn. by apply insert_subseteq.
Unshelve.
  + apply steady_mapM. intros fkd. by apply steady_resolve_field.
  + intros _u. apply steady_ret.
Qed.

(** ... and enters the entity it returns under the type and identifier
    of the document. *)
Lemma hydrate_registers fuel T doc w w' a :
  hydrate fuel T doc w = (w', Ok a) -> idmap w' !! (T, d_id doc) = Some a.
Proof.
  rewrite hydrate_unfold. destruct (idmap w !! (T, d_id doc)) as [a0|] eqn:Ei.
  { by intros [= <- <-]. }
  destruct fuel as [|fuel]; [discriminate|].
  destruct (registry w !! T) as [meta|]; [|discriminate].
  unfold bind at 1. cbn [fresh_entity].
  set (w1 := set_origin _ _). set (a1 := length (heap w)).
  unfold bind. destruct (mapM _ _ w1) as [w2 [u|e]] eqn:Em; [|discriminate].
  intros [= <- <-].
  assert (Hsub : idmap w1 ⊆ idmap w2).
  { eapply (steady_mapM _ _ (fun fkd => steady_resolve_field _ _ _ _ fkd (steady_hydrate fuel))).
    exact Em. }
  eapply lookup_weaken; [|exact Hsub]. subst w1. cbn. by rewrite lookup_insert_eq.
Qed.

(** A hit in the identity map is returned as it is, and nothing changes. *)
Lemma hydrate_hit fuel T doc w a :
  idmap w !! (T, d_id doc) = Some a -> hydrate fuel T doc w = (w, Ok a).
Proof. intros H. by rewrite hydrate_unfold, H. Qed.

Lemma steady_FindID T id : steady (FindID T id).
Proof.
  intros w w' r. unfold FindID. destruct (registry w !! T); [|by intros [= <- _]].
  destruct (find_id (docs w T) id); [|by intros [= <- _]]. apply steady_hydrate.
Qed.

Lemma steady_FindOne T filter : steady (FindOne T filter).
Proof.
  intros w w' r. unfold FindOne. destruct (registry w !! T); [|by intros [= <- _]].
  destruct (query (docs w T) filter); [by intros [= <- _]|]. apply steady_hydrate.
Qed.

Lemma steady_FindBy T filter : steady (FindBy T filter).
Proof.
  intros w w' r. unfold FindBy. destruct (registry w !! T); [|by intros [= <- _]].
  apply steady_mapM. intros d. apply steady_hydrate.
Qed.

(** The worlds a session reaches by reads alone. *)
Inductive reads : World -> World -> Prop :=
| reads_none w : reads w w
| reads_FindID T id w w1 r w2 : FindID T id w = (w1, r) -> reads w1 w2 -> reads w w2
| reads_FindOne T filter w w1 r w2 : FindOne T filter w = (w1, r) -> reads w1 w2 -> reads w w2
| reads_FindBy T filter w w1 r w2 : FindBy T filter w = (w1, r) -> reads w1 w2 -> reads w w2
| reads_FindAll T w w1 r w2 : FindAll T w = (w1, r) -> reads w1 w2 -> reads w w2.

Lemma reads_idmap w w' : reads w w' -> idmap w ⊆ idmap w'.
Proof.
  induction 1 as [|T id w w1 r w2 H _ IH|T f w w1 r w2 H _ IH|T f w w1 r w2 H _ IH
                  |T w w1 r w2 H _ IH]; [done|..]; (etrans; [|exact IH]).
  - by eapply steady_FindID.
  - by eapply steady_FindOne.
  - by eapply steady_FindBy.
  - by eapply steady_FindBy.
Qed.


(** ** Flush *)

Lemma find_index_Some {A : Type} (p : A -> bool) (l : list A) i :
  find_index p l = Some i -> exists x, l !! i = Some x /\ p x = true.
Proof.
  revert i. induction l as [|y l IH]; intros i; cbn [find_index]; [discriminate|].
  destruct (p y) eqn:E.
  - intros [= <-]. by exists y.
  - destruct (find_index p l) as [j|]; [|discriminate]. intros [= <-].
    destruct (IH j eq_refl) as (x & Hx & Hp). by exists x.
Qed.

(** The order lists staged entities only... *)
Lemma order_by_subset ready fuel : forall pending x,
  x ∈ order_by ready fuel pending -> x ∈ pending.
Proof.
  induction fuel as [|fuel IH]; intros pending x; cbn [order_by].
  { intros H. by apply elem_of_nil in H. }
  destruct (pending !! default 0 (find_index (ready pending) pending)) as [a|] eqn:Ea.
  - intros [->|Hin]%elem_of_cons.
    + by eapply list_elem_of_lookup_2.
    + apply IH in Hin. rewrite (delete_Permutation _ _ _ Ea). by right.
  - intros H. by apply elem_of_nil in H.
Qed.

(** ... and every one of them. *)
Lemma order_by_complete ready fuel : forall pending x,
  length pending <= fuel -> x ∈ pending -> x ∈ order_by ready fuel pending.
Proof.
  induction fuel as [|fuel IH]; intros pending x Hlen Hin.
  { destruct pending; [by apply elem_of_nil in Hin|cbn in Hlen; lia]. }
  cbn [order_by].
  assert (Hsome : is_Some (pending !! default 0 (find_index (ready pending) pending))).
  { destruct (find_index (ready pending) pending) as [i|] eqn:Ei; cbn.
    - destruct (find_index_Some _ _ _ Ei) as (y & Hy & _). by exists y.
    - destruct pending; [by apply elem_of_nil in Hin|by eexists]. }
  destruct Hsome as [a Ha]. rewrite Ha.
  rewrite (delete_Permutation _ _ _ Ha) in Hin.
  apply elem_of_cons in Hin as [->|Hin]; [by left|]. right. apply IH; [|done].
  rewrite length_delete by (by eexists). lia.
Qed.

(** A phase that ends without error has kept what every step keeps. *)
Lemma run_all_preserves (P : World -> Prop) step l : forall w w',
  (forall b w1 w2, b ∈ l -> step b w1 = (w2, None) -> P w1 -> P w2) ->
  run_all step l w = (w', None) -> P w -> P w'.
Proof.
  induction l as [|b l IH]; intros w w' Hstep; cbn [run_all].
  { by intros [= <-]. }
  destruct (step b w) as [w1 [err|]] eqn:E; [discriminate|].
  intros Hrun HP. apply (IH w1 w'); [|done|].
  - intros c w2 w3 Hc. apply Hstep. by right.
  - apply (Hstep b w w1); [by left|done..].
Qed.

(** A phase that ends without error has made the step of each of its
    entities: what that step establishes, and every step keeps, holds. *)
Lemma run_all_establishes (P Q : World -> Prop) step l a : forall w w',
  (forall b w1 w2, b ∈ l -> step b w1 = (w2, None) -> P w1 -> P w2) ->
  (forall w1 w2, step a w1 = (w2, None) -> P w1 -> Q w2) ->
  (forall b w1 w2, b ∈ l -> step b w1 = (w2, None) -> P w1 -> Q w1 -> Q w2) ->
  a ∈ l -> P w -> run_all step l w = (w', None) -> Q w'.
Proof.
  induction l as [|b l IH]; intros w w' HP Ha HQ Hin HPw; cbn [run_all].
  { by apply elem_of_nil in Hin. }
  destruct (step b w) as [w1 [err|]] eqn:E; [discriminate|]. intros Hrun.
  assert (HP1 : P w1) by (apply (HP b w w1); [by left|done..]).
  apply elem_of_cons in Hin as [->|Hin].
  - assert (HQ1 : Q w1) by (by apply (Ha w w1)).
    apply (run_all_preserves (fun w => P w /\ Q w) step l w1 w'); [|done..].
    intros c w2 w3 Hc Hs [HP2 HQ2]. split.
    + apply (HP c w2 w3); [by right|done..].
    + apply (HQ c w2 w3); [by right|done..].
  - apply (IH w1 w'); try done.
    + intros c w2 w3 Hc. apply HP. by right.
    + intros c w2 w3 Hc. apply HQ. by right.
Qed.

(** The collection of [T] has a document of identifier [id]. *)
Definition has_doc (w : World) (T : string) (id : ObjectId) : Prop :=
  is_Some (find_id (docs w T) id).

Lemma find_id_Some ds id d : find_id ds id = Some d -> d ∈ ds /\ d_id d = id.
Proof.
  unfold find_id. intros H. apply find_some in H as [Hin Heq].
  split; [by apply list_elem_of_In|by apply N.eqb_eq].
Qed.

Lemma find_id_is_Some ds id : is_Some (find_id ds id) <-> exists d, d ∈ ds /\ d_id d = id.
Proof.
  split.
  - intros [d Hd]. exists d. by apply find_id_Some.
  - intros (d & Hin & Hid). destruct (find_id ds id) eqn:E; [by eexists|].
    unfold find_id in E. apply list_elem_of_In in Hin.
    pose proof (find_none _ _ E d Hin) as Hn. apply N.eqb_neq in Hn. done.
Qed.

Lemma docs_set_store c l w T :
  docs (set_store (<[c := l]> (store w)) w) T = if decide (c = T) then l else docs w T.
Proof.
  unfold docs. cbn. destruct (decide (c = T)) as [->|Hne].
  - by rewrite lookup_insert_eq.
  - by rewrite lookup_insert_ne.
Qed.

Lemma driver_insert_ok c d w w' :
  driver_insert c d w = (w', None) ->
  w' = set_store (<[c := docs w c ++ [d]]> (store w)) w.
Proof. unfold driver_insert. destruct (find_id _ _); [discriminate|]. by intros [= <-]. Qed.

Lemma driver_update_ok c d w w' :
  driver_update c d w = (w', None) ->
  has_doc w c (d_id d) /\
  w' = set_store (<[c := map (fun d' => if N.eqb (d_id d') (d_id d) then d else d') (docs w c)]>
                    (store w)) w.
Proof.
  unfold driver_update, has_doc. destruct (find_id _ _); [|discriminate].
  intros [= <-]. split; [by eexists|done].
Qed.

Lemma driver_remove_ok c id w w' :
  driver_remove c id w = (w', None) ->
  w' = set_store (<[c := List.filter (fun d => negb (N.eqb (d_id d) id)) (docs w c)]> (store w)) w.
Proof. unfold driver_remove. destruct (find_id _ _); [|discriminate]. by intros [= <-]. Qed.

Lemma serialize_id w meta e : d_id (serialize w meta e) = ident e.
Proof. reflexivity. Qed.

(** What a write leaves as it was. *)
Record same_session (w w' : World) : Prop := {
  ss_heap : heap w' = heap w;
  ss_registry : registry w' = registry w
}.

Lemma insert_one_ok a w w' :
  insert_one a w = (w', None) ->
  exists e, heap w !! a = Some e /\
    same_session w w' /\ idmap w' = idmap w /\
    scheduledUpdate w' = scheduledUpdate w /\ scheduledRemove w' = scheduledRemove w /\
    has_doc w' (etype e) (ident e) /\
    (forall T id, has_doc w T id -> has_doc w' T id).
Proof.
  unfold insert_one. destruct (heap w !! a) as [e|]; [|discriminate].
  destruct (registry w !! etype e) as [meta|]; [|discriminate].
  destruct (driver_insert _ _ w) as [w1 [err|]] eqn:E; [discriminate|].
  apply driver_insert_ok in E as ->. intros [= <-]. exists e.
  split; [done|]. split; [by split|]. split; [done|]. split; [done|]. split; [done|].
  unfold has_doc. cbn -[serialize]. split.
  - change (is_Some (find_id (docs (set_store (<[etype e := docs w (etype e) ++ [serialize w meta e]]> (store w)) w) (etype e)) (ident e))).
    rewrite docs_set_store, decide_True by done. apply find_id_is_Some.
    exists (serialize w meta e). split; [|done]. apply elem_of_app. right. by left.
  - intros T id Hd.
    change (is_Some (find_id (docs (set_store (<[etype e := docs w (etype e) ++ [serialize w meta e]]> (store w)) w) T) id)).
    rewrite docs_set_store. destruct (decide (etype e = T)) as [<-|]; [|done].
    apply find_id_is_Some in Hd as (d & Hin & Hid). apply find_id_is_Some.
    exists d. split; [|done]. apply elem_of_app. by left.
Qed.

Lemma update_one_ok a w w' :
  update_one a w = (w', None) ->
  exists e, heap w !! a = Some e /\
    same_session w w' /\ idmap w' = idmap w /\
    scheduledRemove w' = scheduledRemove w /\
    has_doc w' (etype e) (ident e) /\
    (forall T id, has_doc w T id -> has_doc w' T id).
Proof.
  unfold update_one. destruct (heap w !! a) as [e|]; [|discriminate].
  destruct (registry w !! etype e) as [meta|]; [|discriminate].
  destruct (driver_update _ _ w) as [w1 [err|]] eqn:E; [discriminate|].
  apply driver_update_ok in E as [Hhas ->]. intros [= <-]. exists e.
  split; [done|]. split; [by split|]. split; [done|]. split; [done|].
  assert (Hkeep : forall T id, has_doc w T id ->
    is_Some (find_id (docs (set_store (<[etype e :=
      map (fun d' => if N.eqb (d_id d') (d_id (serialize w meta e)) then serialize w meta e else d')
          (docs w (etype e))]> (store w)) w) T) id)).
  { intros T id Hd. rewrite docs_set_store. destruct (decide (etype e = T)) as [<-|]; [|done].
    apply find_id_is_Some in Hd as (d & Hin & Hid). apply find_id_is_Some.
    exists (if N.eqb (d_id d) (d_id (serialize w meta e)) then serialize w meta e else d).
    split.
    - apply list_elem_of_fmap. by exists d.
    - destruct (N.eqb (d_id d) (d_id (serialize w meta e))) eqn:Eq; [|done].
      apply N.eqb_eq in Eq. congruence. }
  split.
  - apply Hkeep. by rewrite <- (serialize_id w meta e).
  - exact Hkeep.
Qed.

Lemma remove_one_ok a w w' :
  remove_one a w = (w', None) ->
  exists e, heap w !! a = Some e /\
    same_session w w' /\ idmap w' = delete (etype e, ident e) (idmap w) /\
    (forall T id, has_doc w T id -> (etype e, ident e) <> (T, id) -> has_doc w' T id).
Proof.
  unfold remove_one. destruct (heap w !! a) as [e|]; [|discriminate].
  destruct (driver_remove _ _ w) as [w1 [err|]] eqn:E; [discriminate|].
  apply driver_remove_ok in E as ->. intros [= <-]. exists e.
  split; [done|]. split; [by split|]. split; [done|].
  intros T id Hd Hne. unfold has_doc.
  change (is_Some (find_id (docs (set_store (<[etype e :=
    List.filter (fun d => negb (N.eqb (d_id d) (ident e))) (docs w (etype e))]> (store w)) w) T) id)).
  rewrite docs_set_store. destruct (decide (etype e = T)) as [<-|]; [|done].
  apply find_id_is_Some in Hd as (d & Hin & Hid). apply find_id_is_Some.
  exists d. split; [|done]. apply list_elem_of_In, filter_In. split; [by apply list_elem_of_In|].
  apply negb_true_iff, N.eqb_neq. congruence.
Qed.

(** A flush that succeeds leaves in the store a document for every entity
    it had to insert or update, unless it also had to remove an entity of
    that type and identifier; and it leaves the identity map as it was
    for that type and identifier. *)
Lemma Flush_writes W w' a e :
  Flush W = (w', None) ->
  heap W !! a = Some e ->
  a ∈ scheduledInsert W \/ a ∈ scheduledUpdate W ->
  (forall c e_c, c ∈ scheduledRemove W -> heap W !! c = Some e_c ->
     (etype e_c, ident e_c) <> (etype e, ident e)) ->
  same_session W w' /\ has_doc w' (etype e) (ident e) /\
  idmap w' !! (etype e, ident e) = idmap W !! (etype e, ident e).
Proof.
  unfold Flush. intros Hflush Ha Hstaged Hrm.
  destruct (run_all insert_one (insert_order W) W) as [w1 [err|]] eqn:E1; [discriminate|].
  destruct (run_all update_one (scheduledUpdate w1) w1) as [w2 [err|]] eqn:E2; [discriminate|].
  (* inserts *)
  set (P1 := fun w => same_session W w /\ idmap w = idmap W /\
                      scheduledUpdate w = scheduledUpdate W /\
                      scheduledRemove w = scheduledRemove W).
  assert (HP1 : forall b w3 w4, b ∈ insert_order W -> insert_one b w3 = (w4, None) -> P1 w3 -> P1 w4).
  { intros b w3 w4 _ Hs ([Hh Hr] & Hi & Hu & Hrem).
    destruct (insert_one_ok _ _ _ Hs) as (eb & _ & [Hh' Hr'] & Hi' & Hu' & Hrem' & _).
    repeat split; congruence. }
  assert (HW : P1 W) by (by repeat split).
  assert (Hw1 : P1 w1) by (by apply (run_all_preserves P1 _ _ _ _ HP1 E1)).
  assert (Hdoc1 : a ∈ scheduledInsert W -> has_doc w1 (etype e) (ident e)).
  { intros Hin.
    apply (run_all_establishes P1 (fun w => has_doc w (etype e) (ident e)) _ _ a W w1 HP1);
      try done.
    - intros w3 w4 Hs ([Hh _] & _).
      destruct (insert_one_ok _ _ _ Hs) as (ea & Hea & _ & _ & _ & _ & Hd & _).
      rewrite Hh, Ha in Hea. by injection Hea as <-.
    - intros b w3 w4 _ Hs _ Hd.
      destruct (insert_one_ok _ _ _ Hs) as (eb & _ & _ & _ & _ & _ & _ & Hkeep). by apply Hkeep.
    - apply order_by_complete; [done|exact Hin]. }
  destruct Hw1 as ([Hh1 Hr1] & Hi1 & Hu1 & Hrem1).
  (* updates *)
  set (P2 := fun w => same_session W w /\ idmap w = idmap W /\
                      scheduledRemove w = scheduledRemove W).
  assert (HP2 : forall b w3 w4, b ∈ scheduledUpdate w1 -> update_one b w3 = (w4, None) -> P2 w3 -> P2 w4).
  { intros b w3 w4 _ Hs ([Hh Hr] & Hi & Hrem).
    destruct (update_one_ok _ _ _ Hs) as (eb & _ & [Hh' Hr'] & Hi' & Hrem' & _).
    repeat split; congruence. }
  assert (Hw1' : P2 w1) by (by repeat split).
  assert (Hw2 : P2 w2) by (by apply (run_all_preserves P2 _ _ _ _ HP2 E2)).
  assert (Hdoc2 : has_doc w2 (etype e) (ident e)).
  { destruct Hstaged as [Hin|Hin].
    - apply (run_all_preserves (fun w => has_doc w (etype e) (ident e)) update_one
               (scheduledUpdate w1) w1 w2); [|done|by apply Hdoc1].
      intros b w3 w4 _ Hs Hd.
      destruct (update_one_ok _ _ _ Hs) as (eb & _ & _ & _ & _ & _ & Hkeep). by apply Hkeep.
    - apply (run_all_establishes P2 (fun w => has_doc w (etype e) (ident e)) _ _ a w1 w2 HP2);
        try done.
      + intros w3 w4 Hs ([Hh _] & _).
        destruct (update_one_ok _ _ _ Hs) as (ea & Hea & _ & _ & _ & Hd & _).
        rewrite Hh, Ha in Hea. by injection Hea as <-.
      + intros b w3 w4 _ Hs _ Hd.
        destruct (update_one_ok _ _ _ Hs) as (eb & _ & _ & _ & _ & _ & Hkeep). by apply Hkeep.
      + by rewrite Hu1. }
  destruct Hw2 as ([Hh2 Hr2] & Hi2 & Hrem2).
  (* removes *)
  set (P3 := fun w => same_session W w /\ has_doc w (etype e) (ident e) /\
                      idmap w !! (etype e, ident e) = idmap W !! (etype e, ident e)).
  assert (Hw2' : P3 w2) by (repeat split; [done..|by rewrite Hi2]).
  apply (run_all_preserves P3 remove_one (remove_order w2) w2 w'); [|done..].
  intros b w3 w4 Hb Hs ([Hh Hr] & Hd & Hi).
  destruct (remove_one_ok _ _ _ Hs) as (eb & Heb & [Hh' Hr'] & Hi' & Hkeep).
  assert (Hne : (etype eb, ident eb) <> (etype e, ident e)).
  { apply (Hrm b); [|by rewrite <- Hh].
    rewrite <- Hrem2. by eapply order_by_subset. }
  repeat split; try congruence.
  - by apply Hkeep.
  - rewrite Hi', lookup_delete_ne by done. done.
Qed.

(** A document in the collection and an entry in the identity map make a
    lookup by identifier succeed with the entity of the entry, and change
    nothing. *)
Lemma FindID_hit w T id a meta :
  registry w !! T = Some meta -> has_doc w T id -> idmap w !! (T, id) = Some a ->
  FindID T id w = (w, Ok a).
Proof.
  intros Hr [d Hd] Hi. unfold FindID. rewrite Hr, Hd.
  apply hydrate_hit. apply find_id_Some in Hd as [_ ->]. done.
Qed.

(** ** Persist *)

Lemma staged_true w a :
  staged w a = true <->
  a ∈ scheduledInsert w \/ a ∈ scheduledUpdate w \/ a ∈ scheduledRemove w.
Proof.
  unfold staged. rewrite !orb_true_iff, !bool_decide_eq_true. tauto.
Qed.

Lemma managed_true w a :
  managed w a = true <->
  exists e, heap w !! a = Some e /\ idmap w !! (etype e, ident e) = Some a.
Proof.
  unfold managed. destruct (heap w !! a) as [e|].
  - rewrite bool_decide_eq_true. split; [by exists e|]. by intros (e' & [= <-] & H).
  - split; [discriminate|]. by intros (e' & [=] & _).
Qed.

Lemma tracked_true w a : tracked w a = true <-> staged w a = true \/ managed w a = true.
Proof. unfold tracked. apply orb_true_iff. Qed.

Lemma max_list_ge (l : list N) x : x ∈ l -> (x <= max_list l)%N.
Proof.
  induction l as [|y l IH]; [by intros H; apply elem_of_nil in H|].
  change (max_list (y :: l)) with (N.max y (max_list l)).
  intros [->|Hin]%elem_of_cons; [lia|]. specialize (IH Hin). lia.
Qed.

(** A new identifier is that of no entity... *)
Lemma NewObjectId_heap w c e_c : heap w !! c = Some e_c -> ident e_c <> NewObjectId w.
Proof.
  intros Hc. unfold NewObjectId.
  assert (ident e_c <= max_list (ident <$> heap w))%N.
  { apply max_list_ge, list_elem_of_fmap. exists e_c. split; [done|].
    by eapply list_elem_of_lookup_2. }
  lia.
Qed.

(** ... and of no entry of the identity map. *)
Lemma NewObjectId_idmap w T : idmap w !! (T, NewObjectId w) = None.
Proof.
  destruct (idmap w !! (T, NewObjectId w)) as [a|] eqn:E; [|done]. exfalso.
  assert (NewObjectId w <= max_list ((fun kv => snd (fst kv)) <$> map_to_list (idmap w)))%N.
  { apply max_list_ge, list_elem_of_fmap. exists ((T, NewObjectId w), a).
    split; [done|]. by apply elem_of_map_to_list. }
  unfold NewObjectId in *. lia.
Qed.

(** What the staging of new entities does to a session: nothing to the
    store, the catalog, the updates and the removals; entities that were
    tracked are left as they were, the others keep all but a zero
    identifier; the identity map and the insertions only grow, and grow
    together. *)
Record grows (w w' : World) : Prop := {
  g_store : store w' = store w;
  g_registry : registry w' = registry w;
  g_update : scheduledUpdate w' = scheduledUpdate w;
  g_remove : scheduledRemove w' = scheduledRemove w;
  g_length : length (heap w') = length (heap w);
  g_insert : forall x, x ∈ scheduledInsert w -> x ∈ scheduledInsert w';
  g_idmap : idmap w ⊆ idmap w';
  g_frozen : forall x e, tracked w x = true -> heap w !! x = Some e -> heap w' !! x = Some e;
  g_entity : forall x e, heap w !! x = Some e ->
    exists e', heap w' !! x = Some e' /\ etype e' = etype e /\
      scalars e' = scalars e /\ refs e' = refs e /\
      (ident e' = ident e \/
       (ident e = 0%N /\
        forall c e_c, tracked w c = true -> heap w !! c = Some e_c -> ident e_c <> ident e'));
  g_heap_or : forall x, heap w' !! x = heap w !! x \/ x ∈ scheduledInsert w';
  g_idmap_or : forall k x,
    idmap w' !! k = Some x -> idmap w !! k = Some x \/ x ∈ scheduledInsert w';
  g_staged : forall x, x ∈ scheduledInsert w' ->
    x ∈ scheduledInsert w \/
    exists e', heap w' !! x = Some e' /\ is_Some (idmap w' !! (etype e', ident e'))
}.

Lemma grows_tracked w w' x : grows w w' -> tracked w x = true -> tracked w' x = true.
Proof.
  intros G. rewrite !tracked_true, !staged_true, !managed_true.
  intros [[?|[?|?]]|(e & He & Hi)].
  - left. left. by apply (g_insert _ _ G).
  - left. right. left. by rewrite (g_update _ _ G).
  - left. right. right. by rewrite (g_remove _ _ G).
  - right. exists e. split.
    + apply (g_frozen _ _ G); [|done]. apply tracked_true. right. apply managed_true. eauto.
    + by eapply lookup_weaken, (g_idmap _ _ G).
Qed.

Lemma grows_refl w : grows w w.
Proof.
  split; try done.
  - intros x e He. exists e. repeat split; try done. by left.
  - intros x. by left.
  - intros k x Hk. by left.
  - intros x Hx. by left.
Qed.

Lemma grows_trans w1 w2 w3 : grows w1 w2 -> grows w2 w3 -> grows w1 w3.
Proof.
  intros G1 G2. split.
  - by rewrite (g_store _ _ G2), (g_store _ _ G1).
  - by rewrite (g_registry _ _ G2), (g_registry _ _ G1).
  - by rewrite (g_update _ _ G2), (g_update _ _ G1).
  - by rewrite (g_remove _ _ G2), (g_remove _ _ G1).
  - by rewrite (g_length _ _ G2), (g_length _ _ G1).
  - intros x Hx. by apply (g_insert _ _ G2), (g_insert _ _ G1).
  - etrans; [apply (g_idmap _ _ G1)|apply (g_idmap _ _ G2)].
  - intros x e Ht He. apply (g_frozen _ _ G2); [by eapply grows_tracked|].
    by apply (g_frozen _ _ G1).
  - intros x e He.
    destruct (g_entity _ _ G1 x e He) as (e2 & He2 & Ht2 & Hs2 & Hr2 & Hi2).
    destruct (g_entity _ _ G2 x e2 He2) as (e3 & He3 & Ht3 & Hs3 & Hr3 & Hi3).
    exists e3. split; [done|]. split; [congruence|]. split; [congruence|].
    split; [congruence|].
    destruct Hi3 as [Hi3|[Hz3 Hf3]].
    + destruct Hi2 as [Hi2|[Hz2 Hf2]]; [left; congruence|].
      right. split; [done|]. rewrite Hi3. done.
    + right. split; [destruct Hi2 as [Hi2|[Hz2 _]]; congruence|].
      intros c e_c Hc Hec. apply (Hf3 c e_c); [by eapply grows_tracked|].
      by apply (g_frozen _ _ G1).
  - intros x. destruct (g_heap_or _ _ G2 x) as [H2|H2]; [|by right].
    destruct (g_heap_or _ _ G1 x) as [H1|H1]; [left; congruence|].
    right. by apply (g_insert _ _ G2).
  - intros k x Hk. destruct (g_idmap_or _ _ G2 k x Hk) as [H2|H2]; [|by right].
    destruct (g_idmap_or _ _ G1 k x H2) as [H1|H1]; [by left|].
    right. by apply (g_insert _ _ G2).
  - intros x Hx. destruct (g_staged _ _ G2 x Hx) as [H2|H2]; [|by right].
    destruct (g_staged _ _ G1 x H2) as [H1|(e2 & He2 & Hi2)]; [by left|].
    right. exists e2. split.
    + apply (g_frozen _ _ G2); [|done]. apply tracked_true. left. apply staged_true. by left.
    + destruct Hi2 as [y Hy]. exists y. by eapply lookup_weaken, (g_idmap _ _ G2).
Qed.

Lemma heap_stage_new a e w :
  heap (stage_new a e w) = <[a := set_ident (assign w e) e]> (heap w).
Proof. reflexivity. Qed.

Lemma insert_stage_new a e w :
  scheduledInsert (stage_new a e w) = scheduledInsert w ++ [a].
Proof. reflexivity. Qed.

Lemma idmap_stage_new a e w :
  idmap (stage_new a e w) =
  match idmap w !! (etype e, assign w e) with
  | Some _ => idmap w
  | None => <[(etype e, assign w e) := a]> (idmap w)
  end.
Proof. reflexivity. Qed.

Lemma stage_new_grows a e w :
  heap w !! a = Some e -> tracked w a = false -> grows w (stage_new a e w).
Proof.
  intros Ha Hnew.
  assert (Hlt : a < length (heap w)) by (by eapply lookup_lt_Some).
  split; try done.
  - rewrite heap_stage_new. by rewrite length_insert.
  - intros x Hx. rewrite insert_stage_new. apply elem_of_app. by left.
  - rewrite idmap_stage_new. destruct (idmap w !! _) eqn:E; [done|]. by apply insert_subseteq.
  - intros x ex Hx Hex. rewrite heap_stage_new, list_lookup_insert_ne; [done|].
    intros ->. congruence.
  - intros x ex Hex. rewrite heap_stage_new. destruct (decide (a = x)) as [->|Hne].
    + rewrite list_lookup_insert_eq by done. rewrite Ha in Hex. injection Hex as <-.
      eexists. split; [done|]. cbn. repeat split; try done.
      unfold assign. destruct (N.eqb (ident e) 0) eqn:Ez; [|by left].
      right. split; [by apply N.eqb_eq|]. intros c e_c _ Hc. by apply (NewObjectId_heap w c).
    + rewrite list_lookup_insert_ne by done. exists ex. repeat split; try done. by left.
  - intros x. rewrite heap_stage_new, insert_stage_new. destruct (decide (a = x)) as [->|Hne].
    + right. apply elem_of_app. right. by left.
    + left. by rewrite list_lookup_insert_ne.
  - intros k x. rewrite idmap_stage_new, insert_stage_new.
    destruct (idmap w !! (etype e, assign w e)) eqn:E; [by left|].
    destruct (decide (k = (etype e, assign w e))) as [->|Hne].
    + rewrite lookup_insert_eq. intros [= <-]. right. apply elem_of_app. right. by left.
    + rewrite lookup_insert_ne by done. by left.
  - intros x. rewrite insert_stage_new. intros [Hx|Hx%list_elem_of_singleton]%elem_of_app.
    + by left.
    + subst x. right. exists (set_ident (assign w e) e).
      rewrite heap_stage_new, list_lookup_insert_eq by done. split; [done|].
      rewrite idmap_stage_new. cbn [set_ident etype ident].
      destruct (idmap w !! (etype e, assign w e)) eqn:E; [by rewrite E|].
      rewrite lookup_insert_eq. by eexists.
Qed.

Lemma foldl_grows (f : World -> nat -> World) (l : list nat) :
  (forall w b, grows w (f w b)) -> forall w, grows w (foldl f w l).
Proof.
  intros Hf. induction l as [|b l IH]; intros w; cbn [foldl]; [apply grows_refl|].
  eapply grows_trans; [apply Hf|apply IH].
Qed.

Lemma persist_new_grows fuel : forall a w, grows w (persist_new fuel a w).
Proof.
  induction fuel as [|fuel IH]; intros a w; cbn [persist_new]; [apply grows_refl|].
  destruct (heap w !! a) as [e|] eqn:Ha; [|apply grows_refl].
  destruct (registry w !! etype e) as [meta|]; [|apply grows_refl].
  destruct (tracked w a) eqn:Ht; [apply grows_refl|].
  eapply grows_trans; [by apply stage_new_grows|].
  apply (foldl_grows (fun w b => persist_new fuel b w)). intros w' b. apply IH.
Qed.

(** Staging enters the entity in [scheduledInsert] and leaves it in the
    identity map under its type and the identifier it is given, with
    itself when that entry was free. *)
Lemma persist_new_stages fuel a e meta w :
  heap w !! a = Some e -> registry w !! etype e = Some meta -> tracked w a = false ->
  let W := persist_new (S fuel) a w in
  heap W !! a = Some (set_ident (assign w e) e) /\
  a ∈ scheduledInsert W /\
  is_Some (idmap W !! (etype e, assign w e)) /\
  (idmap w !! (etype e, assign w e) = None -> idmap W !! (etype e, assign w e) = Some a).
Proof.
  intros Ha Hr Ht. cbn [persist_new]. rewrite Ha, Hr, Ht. cbn zeta.
  set (w1 := stage_new a e w).
  assert (Hlt : a < length (heap w)) by (by eapply lookup_lt_Some).
  assert (G : grows w1 (foldl (fun w b => persist_new fuel b w) w1 (cascade_targets persist meta e))).
  { apply (foldl_grows (fun w b => persist_new fuel b w)). intros w' b. apply persist_new_grows. }
  assert (Hin1 : a ∈ scheduledInsert w1).
  { unfold w1. rewrite insert_stage_new. apply elem_of_app. right. by left. }
  assert (Ht1 : tracked w1 a = true).
  { apply tracked_true. left. apply staged_true. by left. }
  assert (Ha1 : heap w1 !! a = Some (set_ident (assign w e) e)).
  { unfold w1. by rewrite heap_stage_new, list_lookup_insert_eq. }
  split; [by apply (g_frozen _ _ G)|]. split; [by apply (g_insert _ _ G)|]. split.
  - assert (H1 : is_Some (idmap w1 !! (etype e, assign w e))).
    { unfold w1. rewrite idmap_stage_new.
      destruct (idmap w !! (etype e, assign w e)) eqn:E; [by rewrite E|].
      rewrite lookup_insert_eq. by eexists. }
    destruct H1 as [y Hy]. exists y. by eapply lookup_weaken, (g_idmap _ _ G).
  - intros Hnone. eapply lookup_weaken; [|apply (g_idmap _ _ G)].
    unfold w1. rewrite idmap_stage_new, Hnone. by rewrite lookup_insert_eq.
Qed.

(** After the cascade every target that is a registered entity is
    tracked. *)
Lemma persist_new_tracks fuel b e_b meta_b w :
  heap w !! b = Some e_b -> registry w !! etype e_b = Some meta_b ->
  tracked (persist_new (S fuel) b w) b = true.
Proof.
  intros Hb Hr. destruct (tracked w b) eqn:Ht.
  - cbn [persist_new]. by rewrite Hb, Hr, Ht.
  - destruct (persist_new_stages fuel b e_b meta_b w Hb Hr Ht) as (_ & Hin & _).
    apply tracked_true. left. apply staged_true. by left.
Qed.

Lemma foldl_persist_tracks fuel targets : forall w b e_b meta_b,
  b ∈ targets -> heap w !! b = Some e_b -> registry w !! etype e_b = Some meta_b ->
  tracked (foldl (fun w b => persist_new (S fuel) b w) w targets) b = true.
Proof.
  induction targets as [|c targets IH]; intros w b e_b meta_b Hin Hb Hr.
  { by apply elem_of_nil in Hin. }
  cbn [foldl].
  pose proof (persist_new_grows (S fuel) c w) as G1.
  pose proof (foldl_grows (fun w b => persist_new (S fuel) b w) targets
                (fun w' b' => persist_new_grows (S fuel) b' w') (persist_new (S fuel) c w)) as G2.
  apply elem_of_cons in Hin as [->|Hin].
  - eapply grows_tracked; [exact G2|]. by eapply persist_new_tracks.
  - destruct (g_entity _ _ G1 b e_b Hb) as (e' & He' & Ht' & _).
    eapply IH; [done|exact He'|]. by rewrite (g_registry _ _ G1), Ht'.
Qed.

(** An entity the staging leaves tracked was tracked before or is now
    among the insertions. *)
Lemma grows_tracked_inv w w' x :
  grows w w' -> tracked w' x = true -> tracked w x = true \/ x ∈ scheduledInsert w'.
Proof.
  intros G. rewrite !tracked_true, !staged_true, !managed_true.
  intros [[?|[Hu|Hr]]|(e' & He' & Hi')].
  - by right.
  - left. left. right. left. by rewrite <- (g_update _ _ G).
  - left. left. right. right. by rewrite <- (g_remove _ _ G).
  - destruct (g_idmap_or _ _ G _ _ Hi') as [Hi|?]; [|by right].
    destruct (g_heap_or _ _ G x) as [Hh|?]; [|by right].
    left. right. exists e'. split; [congruence|done].
Qed.

Lemma grows_frozen_back w W c e_c :
  grows w W -> tracked w c = true -> heap W !! c = Some e_c -> heap w !! c = Some e_c.
Proof.
  intros G Ht Hc.
  assert (Hlt : c < length (heap w)).
  { rewrite <- (g_length _ _ G). by eapply lookup_lt_Some. }
  destruct (lookup_lt_is_Some_2 _ _ Hlt) as [x Hx].
  pose proof (g_frozen _ _ G c x Ht Hx). congruence.
Qed.

Lemma staged_remove_tracked w c : c ∈ scheduledRemove w -> tracked w c = true.
Proof. intros H. apply tracked_true. left. apply staged_true. auto. Qed.

(** What [Persist] leaves of an entity that is the session's entity for
    its type and identifier, or new to the session. *)
Record persisted (w : World) (a : nat) (e : Entity) (W : World) (e' : Entity) : Prop := {
  ps_heap : heap W !! a = Some e';
  ps_etype : etype e' = etype e;
  ps_scalars : scalars e' = scalars e;
  ps_refs : refs e' = refs e;
  ps_ident : ident e <> 0%N -> ident e' = ident e;
  ps_staged : a ∈ scheduledInsert W \/ a ∈ scheduledUpdate W;
  ps_idmap : idmap W !! (etype e', ident e') = Some a;
  ps_registry : registry W = registry w;
  ps_remove : forall c e_c, c ∈ scheduledRemove W -> heap W !! c = Some e_c ->
    (etype e_c, ident e_c) <> (etype e', ident e')
}.

Lemma Persist_persisted w a e meta :
  heap w !! a = Some e ->
  registry w !! etype e = Some meta ->
  (idmap w !! (etype e, ident e) = Some a \/
   (idmap w !! (etype e, ident e) = None /\ staged w a = false)) ->
  (forall c e_c, c ∈ scheduledRemove w -> heap w !! c = Some e_c ->
     (etype e_c, ident e_c) <> (etype e, ident e)) ->
  exists e', persisted w a e (Persist a w) e'.
Proof.
  intros Ha Hr Hlife Hrm. unfold Persist. rewrite Ha, Hr. cbn zeta.
  destruct (staged w a) eqn:Hst.
  { (* already staged, for insertion or update *)
    destruct Hlife as [Hi|[_ ?]]; [|done]. exists e. split; try done.
    apply staged_true in Hst as [?|[?|Hin]]; [by left|by right|].
    by destruct (Hrm a e Hin Ha). }
  destruct (managed w a) eqn:Hm.
  { (* managed: an update *)
    set (w0 := set_scheduledUpdate (scheduledUpdate w ++ [a]) w).
    set (W := foldl _ w0 _).
    assert (G : grows w0 W).
    { apply (foldl_grows (fun w' b => persist_new (S (length (heap w))) b w')).
      intros w' b. apply persist_new_grows. }
    assert (Hup : a ∈ scheduledUpdate w0).
    { cbn. apply elem_of_app. right. by left. }
    assert (Ht0 : tracked w0 a = true).
    { apply tracked_true. left. apply staged_true. auto. }
    apply managed_true in Hm as (e0 & He0 & Hi0). rewrite Ha in He0. injection He0 as <-.
    exists e. split; try done.
    - by apply (g_frozen _ _ G).
    - right. by rewrite (g_update _ _ G).
    - by eapply lookup_weaken, (g_idmap _ _ G).
    - by rewrite (g_registry _ _ G).
    - intros c e_c Hc Hec. rewrite (g_remove _ _ G) in Hc.
      apply (Hrm c e_c); [done|].
      change (heap w0 !! c = Some e_c). eapply grows_frozen_back; [exact G| |done].
      by apply staged_remove_tracked. }
  (* new: an insertion *)
  assert (Hnone : idmap w !! (etype e, ident e) = None).
  { destruct Hlife as [Hi|[? _]]; [|done]. exfalso.
    assert (managed w a = true) by (apply managed_true; eauto). congruence. }
  assert (Ht : tracked w a = false) by (unfold tracked; by rewrite Hst, Hm).
  assert (Hfree : idmap w !! (etype e, assign w e) = None).
  { unfold assign. destruct (N.eqb (ident e) 0); [apply NewObjectId_idmap|done]. }
  destruct (persist_new_stages (length (heap w)) a e meta w Ha Hr Ht) as (Hh & Hin & _ & Hid).
  pose proof (persist_new_grows (S (length (heap w))) a w) as G.
  exists (set_ident (assign w e) e). split; try done.
  - cbn. unfold assign. intros Hnz. apply N.eqb_neq in Hnz. by rewrite Hnz.
  - by left.
  - by apply Hid.
  - by rewrite (g_registry _ _ G).
  - intros c e_c Hc Hec. rewrite (g_remove _ _ G) in Hc.
    assert (Hec' : heap w !! c = Some e_c).
    { eapply grows_frozen_back; [exact G|by apply staged_remove_tracked|done]. }
    cbn. unfold assign. destruct (N.eqb (ident e) 0) eqn:Ez.
    + intros [= _ Heq]. by apply (NewObjectId_heap w c e_c).
    + by apply (Hrm c e_c).
Qed.

(** After a flush that succeeds, an entity [Persist] has left staged is
    found by its identifier. *)
Lemma persisted_found w a e meta W e' w' :
  persisted w a e W e' -> registry w !! etype e = Some meta ->
  Flush W = (w', None) ->
  heap w' !! a = Some e' /\ FindID (etype e) (ident e') w' = (w', Ok a).
Proof.
  intros [Hh Het Hsc Hrf Hid Hst Hi Hreg Hrm] Hr Hflush.
  destruct (Flush_writes W w' a e' Hflush Hh Hst Hrm) as ([Hh' Hr'] & Hdoc & Hidm).
  split; [by rewrite Hh'|].
  rewrite <- Het. eapply FindID_hit.
  - rewrite Hr', Hreg, Het. exact Hr.
  - done.
  - by rewrite Hidm.
Qed.


(** What the cascade leaves of an entity that was not tracked: it is among
    the insertions, and in the identity map under its type and the
    identifier it now has. *)
Lemma cascaded w0 W b e_b :
  grows w0 W -> tracked W b = true -> tracked w0 b = false ->
  heap w0 !! b = Some e_b ->
  (forall c e_c, c ∈ scheduledRemove w0 -> heap w0 !! c = Some e_c ->
     (etype e_c, ident e_c) <> (etype e_b, ident e_b)) ->
  exists e', heap W !! b = Some e' /\ etype e' = etype e_b /\ scalars e' = scalars e_b /\
    b ∈ scheduledInsert W /\
    is_Some (idmap W !! (etype e', ident e')) /\
    (forall c e_c, c ∈ scheduledRemove W -> heap W !! c = Some e_c ->
       (etype e_c, ident e_c) <> (etype e', ident e')).
Proof.
  intros G HtW Ht0 Hb Hrm.
  destruct (grows_tracked_inv _ _ _ G HtW) as [?|Hin]; [congruence|].
  destruct (g_entity _ _ G b e_b Hb) as (e' & He' & Het & Hsc & _ & Hid).
  exists e'. split; [done|]. split; [done|]. split; [done|]. split; [done|]. split.
  - destruct (g_staged _ _ G b Hin) as [Hin0|(e'' & He'' & Hi)].
    + exfalso. assert (tracked w0 b = true); [|congruence].
      apply tracked_true. left. apply staged_true. auto.
    + congruence.
  - intros c e_c Hc Hec. rewrite (g_remove _ _ G) in Hc.
    assert (Htc : tracked w0 c = true) by (by apply staged_remove_tracked).
    assert (Hec0 : heap w0 !! c = Some e_c) by (by eapply grows_frozen_back).
    destruct Hid as [Hid|[_ Hfresh]].
    + rewrite Het, Hid. by apply (Hrm c e_c).
    + intros [= _ Heq]. by apply (Hfresh c e_c).
Qed.


(** ** The theorems on the test-suite *)

Lemma paired {A B : Type} (p : A * B) (b : B) : snd p = b -> p = (fst p, b).
Proof. destruct p. cbn. by intros ->. Qed.

Definition meta_User : TypeMeta :=
  mkMeta "User" "ID" [("Name", "name"); ("Email", "email")]
    [("Posts", "posts", mkRel Many "Post" None (mkCascade true true));
     ("Role", "role", mkRel One "Role" None (mkCascade true false))].
Definition meta_Role : TypeMeta :=
  mkMeta "Role" "ID" [("Title", "title"); ("Users", "users")] [].
Definition the_user : Entity :=
  entity "User" 100 [("Name", SStr "John"); ("Email", SStr "john@example.com")]
         [("Posts", RefMany [1]); ("Role", RefOne (Some 2))].
Definition the_role : Entity := entity "Role" 0 [("Title", SStr "Editor")] [].
Definition meta_Post : TypeMeta :=
  mkMeta "Post" "ID" [("Title", "title"); ("Body", "body"); ("Created", "created")] [].
Definition the_new_post : Entity :=
  entity "Post" 0 [("Title", SStr "First Post Title"); ("Body", SStr "First Post Body");
                   ("Created", SInt 1480000000)] [].
Lemma no_removal_pending (w : World) (P : nat -> Entity -> Prop) :
  scheduledRemove w = [] ->
  forall c e_c, c ∈ scheduledRemove w -> heap w !! c = Some e_c -> P c e_c.
Proof. intros -> c e_c Hc. by apply elem_of_nil in Hc. Qed.




(** The same entity, reached through two referring documents and through
    a back-reference. In the second session over the database of
    [Example], both articles hold the author at one address, and the
    author holds both articles; in the second session over the database
    of [TestMappedBy], the employee found holds two projects, and each
    holds that employee. *)
Example one_entity_per_identifier :
  field_of (fst articles_read) 1 "Author" = Some (RefOne (Some 0)) /\
  field_of (fst articles_read) 4 "Author" = Some (RefOne (Some 0)) /\
  field_of (fst articles_read) 0 "Articles" = Some (RefMany [1; 4]) /\
  snd employee_read = Ok 0 /\
  field_of (fst employee_read) 0 "Projects" = Some (RefMany [1; 3]) /\
  field_of (fst employee_read) 1 "Employee" = Some (RefOne (Some 0)) /\
  field_of (fst employee_read) 3 "Employee" = Some (RefOne (Some 0)) /\
  field_of (fst employee_read) 1 "Client" = Some (RefOne (Some 2)) /\
  field_of (fst employee_read) 3 "Client" = Some (RefOne (Some 2)).
Proof. repeat split; vm_compute; reflexivity. Qed.

(** ** Remove *)

(** Staging removals changes the stage tables only. *)
Record same_memory (w w' : World) : Prop := {
  sm_heap : heap w' = heap w;
  sm_registry : registry w' = registry w;
  sm_store : store w' = store w;
  sm_idmap : idmap w' = idmap w;
  sm_remove : forall x, x ∈ scheduledRemove w -> x ∈ scheduledRemove w'
}.

Lemma same_memory_refl w : same_memory w w.
Proof. by split. Qed.

Lemma same_memory_trans w1 w2 w3 : same_memory w1 w2 -> same_memory w2 w3 -> same_memory w1 w3.
Proof.
  intros [? ? ? ? H1] [? ? ? ? H2]. split; try congruence. intros x Hx. by apply H2, H1.
Qed.

Lemma stage_remove_memory a w : same_memory w (stage_remove a w).
Proof. split; try done. intros x Hx. cbn. apply elem_of_app. by left. Qed.

Lemma foldl_same_memory (f : World -> nat -> World) (l : list nat) :
  (forall w b, same_memory w (f w b)) -> forall w, same_memory w (foldl f w l).
Proof.
  intros Hf. induction l as [|b l IH]; intros w; cbn [foldl]; [apply same_memory_refl|].
  eapply same_memory_trans; [apply Hf|apply IH].
Qed.

Lemma remove_go_memory fuel : forall a w, same_memory w (remove_go fuel a w).
Proof.
  induction fuel as [|fuel IH]; intros a w; cbn [remove_go]; [apply same_memory_refl|].
  destruct (heap w !! a) as [e|]; [|apply same_memory_refl].
  destruct (registry w !! etype e) as [meta|]; [|apply same_memory_refl].
  destruct (bool_decide _); [apply same_memory_refl|].
  eapply same_memory_trans; [apply stage_remove_memory|].
  apply (foldl_same_memory (fun w b => remove_go fuel b w)). intros w' b. apply IH.
Qed.

(** A registered entity is staged for removal... *)
Lemma remove_go_stages fuel a e meta w :
  heap w !! a = Some e -> registry w !! etype e = Some meta ->
  a ∈ scheduledRemove (remove_go (S fuel) a w).
Proof.
  intros Ha Hr. cbn [remove_go]. rewrite Ha, Hr.
  destruct (bool_decide (a ∈ scheduledRemove w)) eqn:E.
  - by apply bool_decide_eq_true in E.
  - apply (sm_remove _ _ (foldl_same_memory (fun w b => remove_go fuel b w) _
             (fun w' b => remove_go_memory fuel b w') _)).
    cbn. apply elem_of_app. right. by left.
Qed.

Lemma foldl_remove_stages fuel targets : forall w b e_b meta_b,
  b ∈ targets -> heap w !! b = Some e_b -> registry w !! etype e_b = Some meta_b ->
  b ∈ scheduledRemove (foldl (fun w b => remove_go (S fuel) b w) w targets).
Proof.
  induction targets as [|c targets IH]; intros w b e_b meta_b Hin Hb Hr.
  { by apply elem_of_nil in Hin. }
  cbn [foldl]. pose proof (remove_go_memory (S fuel) c w) as G1.
  apply elem_of_cons in Hin as [->|Hin].
  - apply (sm_remove _ _ (foldl_same_memory (fun w b => remove_go (S fuel) b w) _
             (fun w' b => remove_go_memory (S fuel) b w') _)).
    by eapply remove_go_stages.
  - eapply IH; [done| |].
    + by rewrite (sm_heap _ _ G1).
    + by rewrite (sm_registry _ _ G1).
Qed.

(** ... and so is every registered entity it references through an
    owning relationship whose cascade has [remove]. *)
Lemma Remove_stages w a e meta :
  heap w !! a = Some e -> registry w !! etype e = Some meta ->
  a ∉ scheduledRemove w ->
  a ∈ scheduledRemove (Remove a w) /\
  forall b e_b meta_b, b ∈ cascade_targets remove meta e ->
    heap w !! b = Some e_b -> registry w !! etype e_b = Some meta_b ->
    b ∈ scheduledRemove (Remove a w).
Proof.
  intros Ha Hr Hnew. unfold Remove. split; [by eapply remove_go_stages|].
  intros b e_b meta_b Hb Heb Hrb.
  assert (Hlen : exists n, length (heap w) = S n).
  { destruct (heap w); [done|by eexists]. }
  destruct Hlen as [n ->]. cbn [remove_go]. rewrite Ha, Hr.
  rewrite bool_decide_eq_false_2 by done.
  by eapply (foldl_remove_stages n _ (stage_remove a w) b e_b meta_b).
Qed.

(** The entities a removal can reach: a registered entity itself and,
    from it, those reached from an entity it references through an owning
    relationship whose cascade has [remove]. *)
Inductive remove_reach (w : World) : nat -> nat -> Prop :=
| reach_here a e meta :
    heap w !! a = Some e -> registry w !! etype e = Some meta ->
    remove_reach w a a
| reach_step a e meta b x :
    heap w !! a = Some e -> registry w !! etype e = Some meta ->
    b ∈ cascade_targets remove meta e ->
    remove_reach w b x -> remove_reach w a x.

Definition valid (w : World) (a : nat) : Prop :=
  exists e meta, heap w !! a = Some e /\ registry w !! etype e = Some meta.

Lemma remove_reach_valid w a x : remove_reach w a x -> valid w a.
Proof. destruct 1; by eexists _, _. Qed.

Lemma remove_reach_memory w w' a x :
  heap w' = heap w -> registry w' = registry w ->
  remove_reach w' a x -> remove_reach w a x.
Proof.
  intros Hh Hr. induction 1 as [a e meta Ha Hm|a e meta b x Ha Hm Hb _ IH].
  - eapply reach_here; [by rewrite <- Hh|by rewrite <- Hr].
  - eapply reach_step; [by rewrite <- Hh|by rewrite <- Hr|done..].
Qed.

Lemma foldl_remove_only fuel targets :
  (forall a w x, x ∈ scheduledRemove (remove_go fuel a w) ->
     x ∈ scheduledRemove w \/ remove_reach w a x) ->
  forall w x, x ∈ scheduledRemove (foldl (fun w b => remove_go fuel b w) w targets) ->
    x ∈ scheduledRemove w \/ exists b, b ∈ targets /\ remove_reach w b x.
Proof.
  intros Hone. induction targets as [|c targets IH]; intros w x; cbn [foldl]; [by left|].
  intros Hx. destruct (IH _ _ Hx) as [Hx'|(b & Hb & Hreach)].
  - destruct (Hone _ _ _ Hx') as [?|?]; [by left|]. right. exists c. split; [by left|done].
  - right. exists b. split; [by right|].
    pose proof (remove_go_memory fuel c w) as G.
    eapply remove_reach_memory; [apply (sm_heap _ _ G)|apply (sm_registry _ _ G)|done].
Qed.

(** Nothing else is staged for removal. *)
Lemma remove_go_only fuel : forall a w x,
  x ∈ scheduledRemove (remove_go fuel a w) ->
  x ∈ scheduledRemove w \/ remove_reach w a x.
Proof.
  induction fuel as [|fuel IH]; intros a w x; cbn [remove_go]; [by left|].
  destruct (heap w !! a) as [e|] eqn:Ha; [|by left].
  destruct (registry w !! etype e) as [meta|] eqn:Hr; [|by left].
  destruct (bool_decide _); [by left|].
  intros Hx. destruct (foldl_remove_only fuel _ IH _ _ Hx) as [Hx'|(b & Hb & Hreach)].
  - cbn in Hx'. apply elem_of_app in Hx' as [?|Hx']; [by left|].
    apply list_elem_of_singleton in Hx' as ->. right. by eapply reach_here.
  - right. eapply reach_step; [done..|].
    eapply remove_reach_memory; [| |done]; done.
Qed.

(** *** The fuel of [Remove] is enough *)

(** The entities of [l] that [inside] does not hold of. *)
Fixpoint count_out (inside : nat -> bool) (l : list nat) : nat :=
  match l with
  | [] => 0
  | x :: l => (if inside x then 0 else 1) + count_out inside l
  end.

Lemma count_out_length inside l : count_out inside l <= length l.
Proof. induction l as [|x l IH]; cbn; [lia|]. destruct (inside x); lia. Qed.

Lemma count_out_mono (p q : nat -> bool) l :
  (forall x, p x = true -> q x = true) -> count_out q l <= count_out p l.
Proof.
  intros Hsub. induction l as [|x l IH]; cbn; [lia|].
  destruct (p x) eqn:E; [rewrite (Hsub x E); lia|]. destruct (q x); lia.
Qed.

Lemma count_out_lt (p q : nat -> bool) l a :
  (forall x, p x = true -> q x = true) -> a ∈ l -> p a = false -> q a = true ->
  count_out q l < count_out p l.
Proof.
  intros Hsub Hin Hout Hin'. induction l as [|x l IH]; [by apply elem_of_nil in Hin|].
  pose proof (count_out_mono p q l Hsub) as Hle. cbn.
  apply elem_of_cons in Hin as [<-|Hin]; [rewrite Hout, Hin'; lia|].
  specialize (IH Hin). destruct (p x) eqn:E; [rewrite (Hsub x E); lia|].
  destruct (q x); lia.
Qed.

(** The entities of the session not yet staged for removal. *)
Definition unstaged (w : World) : nat :=
  count_out (fun x => bool_decide (x ∈ scheduledRemove w)) (seq 0 (length (heap w))).

Lemma unstaged_length w : unstaged w <= length (heap w).
Proof.
  unfold unstaged. etrans; [apply count_out_length|]. by rewrite length_seq.
Qed.

Lemma unstaged_memory w w' : same_memory w w' -> unstaged w' <= unstaged w.
Proof.
  intros [Hh _ _ _ Hsub]. unfold unstaged. rewrite Hh. apply count_out_mono.
  intros x Hx. apply bool_decide_eq_true. apply Hsub. by apply bool_decide_eq_true in Hx.
Qed.

Lemma unstaged_stage_remove w a e :
  heap w !! a = Some e -> a ∉ scheduledRemove w ->
  unstaged (stage_remove a w) < unstaged w.
Proof.
  intros Ha Hout. pose proof (stage_remove_memory a w) as G. unfold unstaged.
  rewrite (sm_heap _ _ G). apply (count_out_lt _ _ _ a).
  - intros x Hx. apply bool_decide_eq_true. apply (sm_remove _ _ G).
    by apply bool_decide_eq_true in Hx.
  - apply elem_of_seq. apply lookup_lt_Some in Ha. lia.
  - by apply bool_decide_eq_false.
  - apply bool_decide_eq_true. cbn. apply elem_of_app. right. by left.
Qed.

(** More fuel than entities not yet staged changes nothing. *)
Lemma foldl_remove_fuel fuel fuel' :
  (forall a w, unstaged w < fuel -> unstaged w < fuel' ->
     remove_go fuel a w = remove_go fuel' a w) ->
  forall targets w, unstaged w < fuel -> unstaged w < fuel' ->
    foldl (fun w b => remove_go fuel b w) w targets =
    foldl (fun w b => remove_go fuel' b w) w targets.
Proof.
  intros Hone. induction targets as [|c targets IH]; intros w H H'; cbn [foldl]; [done|].
  rewrite <- (Hone c w H H').
  pose proof (unstaged_memory _ _ (remove_go_memory fuel c w)). apply IH; lia.
Qed.

Lemma remove_go_fuel fuel : forall fuel' a w,
  unstaged w < fuel -> unstaged w < fuel' -> remove_go fuel a w = remove_go fuel' a w.
Proof.
  induction fuel as [|fuel IH]; intros fuel' a w H H'; [lia|].
  destruct fuel' as [|fuel']; [lia|]. cbn [remove_go].
  destruct (heap w !! a) as [e|] eqn:Ha; [|done].
  destruct (registry w !! etype e) as [meta|]; [|done].
  destruct (bool_decide (a ∈ scheduledRemove w)) eqn:E; [done|].
  apply bool_decide_eq_false in E.
  pose proof (unstaged_stage_remove w a e Ha E).
  apply foldl_remove_fuel; [|lia..]. intros b w1. apply IH.
Qed.

(** The fuel of [Remove] is never used up: any greater fuel stages the
    same removals. *)
Lemma Remove_fuel a w n :
  length (heap w) < n -> remove_go n a w = Remove a w.
Proof.
  intros Hn. pose proof (unstaged_length w). apply remove_go_fuel; lia.
Qed.

(** The removals staged for [s] are complete: every registered entity [s]
    cascades to is in [S]. *)
Definition closed_at (w : World) (S : list nat) (s : nat) : Prop :=
  forall e meta b, heap w !! s = Some e -> registry w !! etype e = Some meta ->
    b ∈ cascade_targets remove meta e -> valid w b -> b ∈ S.

Definition closed_but (G : list nat) (w : World) : Prop :=
  forall s, s ∈ scheduledRemove w -> s ∉ G -> closed_at w (scheduledRemove w) s.

Definition closed (w : World) : Prop := closed_but [] w.

Lemma closed_nil w : scheduledRemove w = [] -> closed w.
Proof. intros E s Hs. rewrite E in Hs. by apply elem_of_nil in Hs. Qed.

Lemma valid_memory w w' a : same_memory w w' -> valid w a <-> valid w' a.
Proof. intros [Hh Hr _ _ _]. unfold valid. by rewrite Hh, Hr. Qed.

Lemma closed_at_memory w w' s :
  same_memory w w' -> closed_at w (scheduledRemove w) s -> closed_at w' (scheduledRemove w') s.
Proof.
  intros G Hc e meta b He Hm Hb Hv. apply (sm_remove _ _ G).
  rewrite (sm_heap _ _ G) in He. rewrite (sm_registry _ _ G) in Hm.
  apply (Hc e meta b He Hm Hb). by apply (valid_memory w w' b G).
Qed.

Lemma foldl_remove_closes fuel G :
  (forall a w, unstaged w < fuel -> closed_but G w ->
     closed_but G (remove_go fuel a w) /\
     (valid w a -> a ∈ scheduledRemove (remove_go fuel a w))) ->
  forall targets w, unstaged w < fuel -> closed_but G w ->
    closed_but G (foldl (fun w b => remove_go fuel b w) w targets) /\
    forall b, b ∈ targets -> valid w b ->
      b ∈ scheduledRemove (foldl (fun w b => remove_go fuel b w) w targets).
Proof.
  intros Hone. induction targets as [|c targets IH]; intros w Hfuel Hinv; cbn [foldl].
  { split; [done|]. intros b Hb. by apply elem_of_nil in Hb. }
  destruct (Hone c w Hfuel Hinv) as [Hinv1 Hc].
  pose proof (remove_go_memory fuel c w) as G1.
  pose proof (unstaged_memory _ _ G1) as Hle.
  destruct (IH (remove_go fuel c w)) as [Hinv' Hall]; [lia|done|].
  split; [done|]. intros b Hb Hv. apply elem_of_cons in Hb as [->|Hb].
  - apply (sm_remove _ _ (foldl_same_memory (fun w b => remove_go fuel b w) _
             (fun w' b => remove_go_memory fuel b w') _)). by apply Hc.
  - apply Hall; [done|]. by apply (valid_memory w _ b G1).
Qed.

Lemma remove_go_closes fuel : forall G a w,
  unstaged w < fuel -> closed_but G w ->
  closed_but G (remove_go fuel a w) /\
  (valid w a -> a ∈ scheduledRemove (remove_go fuel a w)).
Proof.
  induction fuel as [|fuel IH]; intros G a w Hfuel Hinv; [lia|]. cbn [remove_go].
  destruct (heap w !! a) as [e|] eqn:Ha;
    [|split; [done|]; intros (? & ? & ? & ?); congruence].
  destruct (registry w !! etype e) as [meta|] eqn:Hr;
    [|split; [done|]; intros (? & ? & ? & ?); congruence].
  destruct (bool_decide (a ∈ scheduledRemove w)) eqn:E.
  { apply bool_decide_eq_true in E. by split. }
  apply bool_decide_eq_false in E.
  pose proof (stage_remove_memory a w) as G1.
  pose proof (unstaged_stage_remove w a e Ha E) as Hlt.
  assert (Hinv1 : closed_but (a :: G) (stage_remove a w)).
  { intros s Hs Hout. apply not_elem_of_cons in Hout as [Hne Hout].
    apply (closed_at_memory w _ s G1). apply Hinv; [|done].
    cbn in Hs. apply elem_of_app in Hs as [?|Hs]; [done|].
    by apply list_elem_of_singleton in Hs. }
  destruct (foldl_remove_closes fuel (a :: G) (IH (a :: G))
              (cascade_targets remove meta e) (stage_remove a w)) as [Hinv' Hall];
    [lia|done|].
  pose proof (foldl_same_memory (fun w b => remove_go fuel b w)
                (cascade_targets remove meta e)
                (fun w' b => remove_go_memory fuel b w') (stage_remove a w)) as G2.
  set (w' := foldl _ _ _) in *.
  assert (Ha' : a ∈ scheduledRemove w').
  { apply (sm_remove _ _ G2). cbn. apply elem_of_app. right. by left. }
  split; [|done]. intros s Hs Hout. destruct (decide (s = a)) as [->|Hne].
  - intros e' meta' b He' Hm' Hb Hv.
    rewrite (sm_heap _ _ G2), (sm_heap _ _ G1), Ha in He'. injection He' as <-.
    rewrite (sm_registry _ _ G2), (sm_registry _ _ G1), Hr in Hm'. injection Hm' as <-.
    apply Hall; [done|]. by apply (valid_memory _ w' b G2).
  - apply Hinv'; [done|]. by apply not_elem_of_cons.
Qed.

(** [Remove] keeps the staged removals complete and stages its entity. *)
Lemma Remove_closed a w :
  closed w -> closed (Remove a w) /\ (valid w a -> a ∈ scheduledRemove (Remove a w)).
Proof.
  intros Hc. apply remove_go_closes; [|done]. pose proof (unstaged_length w). lia.
Qed.

Lemma closed_reach w a x :
  closed w -> a ∈ scheduledRemove w -> remove_reach w a x -> x ∈ scheduledRemove w.
Proof.
  intros Hc Ha Hreach. induction Hreach as [a e meta He Hm|a e meta b x He Hm Hb Hreach IH];
    [done|].
  apply IH. apply (Hc a Ha (not_elem_of_nil a) e meta b He Hm Hb).
  by eapply remove_reach_valid.
Qed.

(** What [Remove] stages, exactly: the entities reached along the owning
    relationships whose cascade has [remove]. *)
Lemma Remove_exactly w a x :
  closed w ->
  x ∈ scheduledRemove (Remove a w) <-> x ∈ scheduledRemove w \/ remove_reach w a x.
Proof.
  intros Hc. split; [apply remove_go_only|].
  pose proof (remove_go_memory (S (length (heap w))) a w) as G.
  fold (Remove a w) in G. intros [Hx|Hreach]; [by apply (sm_remove _ _ G)|].
  destruct (Remove_closed a w Hc) as [Hc' Ha].
  apply (closed_reach _ a x Hc'); [by eapply Ha, remove_reach_valid|].
  eapply (remove_reach_memory (Remove a w) w); [| |done].
  - symmetry. apply (sm_heap _ _ G).
  - symmetry. apply (sm_registry _ _ G).
Qed.

(** ** The fuel of [Persist] *)

(** The entities of the session that are not tracked. *)
Definition untracked (w : World) : nat :=
  count_out (tracked w) (seq 0 (length (heap w))).

Lemma untracked_length w : untracked w <= length (heap w).
Proof.
  unfold untracked. etrans; [apply count_out_length|]. by rewrite length_seq.
Qed.

Lemma untracked_grows w w' : grows w w' -> untracked w' <= untracked w.
Proof.
  intros G. unfold untracked. rewrite (g_length _ _ G). apply count_out_mono.
  intros x. by apply grows_tracked.
Qed.

Lemma untracked_stage_new w a e :
  heap w !! a = Some e -> tracked w a = false ->
  untracked (stage_new a e w) < untracked w.
Proof.
  intros Ha Hout. pose proof (stage_new_grows a e w Ha Hout) as G. unfold untracked.
  rewrite (g_length _ _ G). apply (count_out_lt _ _ _ a).
  - intros x. by apply grows_tracked.
  - apply elem_of_seq. apply lookup_lt_Some in Ha. lia.
  - done.
  - apply tracked_true. left. apply staged_true. left.
    rewrite insert_stage_new. apply elem_of_app. right. by left.
Qed.

(** More fuel than untracked entities changes nothing. *)
Lemma foldl_persist_fuel fuel fuel' :
  (forall a w, untracked w < fuel -> untracked w < fuel' ->
     persist_new fuel a w = persist_new fuel' a w) ->
  forall targets w, untracked w < fuel -> untracked w < fuel' ->
    foldl (fun w b => persist_new fuel b w) w targets =
    foldl (fun w b => persist_new fuel' b w) w targets.
Proof.
  intros Hone. induction targets as [|c targets IH]; intros w H H'; cbn [foldl]; [done|].
  rewrite <- (Hone c w H H').
  pose proof (untracked_grows _ _ (persist_new_grows fuel c w)). apply IH; lia.
Qed.

Lemma persist_new_fuel fuel : forall fuel' a w,
  untracked w < fuel -> untracked w < fuel' -> persist_new fuel a w = persist_new fuel' a w.
Proof.
  induction fuel as [|fuel IH]; intros fuel' a w H H'; [lia|].
  destruct fuel' as [|fuel']; [lia|]. cbn [persist_new].
  destruct (heap w !! a) as [e|] eqn:Ha; [|done].
  destruct (registry w !! etype e) as [meta|]; [|done].
  destruct (tracked w a) eqn:E; [done|].
  pose proof (untracked_stage_new w a e Ha E).
  apply foldl_persist_fuel; [|lia..]. intros b w1. apply IH.
Qed.

(** The fuel of [Persist] is never used up: with any greater fuel the
    cascade stages the same entities. *)
Lemma persist_new_enough a w n :
  length (heap w) < n -> persist_new n a w = persist_new (S (length (heap w))) a w.
Proof.
  intros Hn. pose proof (untracked_length w). apply persist_new_fuel; lia.
Qed.

(** ** Removal at [Flush] *)

Lemma remove_one_removes a w w' e :
  remove_one a w = (w', None) -> heap w !! a = Some e ->
  ~ has_doc w' (etype e) (ident e).
Proof.
  unfold remove_one. intros H Ha. rewrite Ha in H.
  destruct (driver_remove _ _ w) as [w1 [err|]] eqn:E; [discriminate|].
  apply driver_remove_ok in E as ->. injection H as <-. unfold has_doc.
  change (~ is_Some (find_id (docs (set_store (<[etype e :=
    List.filter (fun d => negb (N.eqb (d_id d) (ident e))) (docs w (etype e))]> (store w)) w)
    (etype e)) (ident e))).
  rewrite docs_set_store, decide_True by done.
  intros (d & Hin & Hid)%find_id_is_Some.
  apply list_elem_of_In, filter_In in Hin as [_ Hne].
  apply negb_true_iff, N.eqb_neq in Hne. done.
Qed.

Lemma remove_one_absent a w w' T id :
  remove_one a w = (w', None) -> ~ has_doc w T id -> ~ has_doc w' T id.
Proof.
  unfold remove_one. destruct (heap w !! a) as [e|]; [|discriminate].
  destruct (driver_remove _ _ w) as [w1 [err|]] eqn:E; [discriminate|].
  apply driver_remove_ok in E as ->. intros [= <-] Hno. unfold has_doc.
  change (~ is_Some (find_id (docs (set_store (<[etype e :=
    List.filter (fun d => negb (N.eqb (d_id d) (ident e))) (docs w (etype e))]> (store w)) w)
    T) id)).
  rewrite docs_set_store. destruct (decide (etype e = T)) as [<-|]; [|done].
  intros (d & Hin & Hid)%find_id_is_Some. apply Hno, find_id_is_Some.
  exists d. split; [|done]. apply list_elem_of_In, filter_In in Hin as [Hin _].
  by apply list_elem_of_In.
Qed.

(** A flush that succeeds has run its inserts and updates, which keep
    the entities, the identity map, the pending removals and every
    document, and then its removals. *)
Lemma Flush_phases W w' :
  Flush W = (w', None) ->
  exists w2, same_session W w2 /\ idmap w2 = idmap W /\
    scheduledRemove w2 = scheduledRemove W /\
    (forall T id, has_doc W T id -> has_doc w2 T id) /\
    run_all remove_one (remove_order w2) w2 = (w', None).
Proof.
  unfold Flush. intros Hflush.
  destruct (run_all insert_one (insert_order W) W) as [w1 [err|]] eqn:E1; [discriminate|].
  destruct (run_all update_one (scheduledUpdate w1) w1) as [w2 [err|]] eqn:E2; [discriminate|].
  exists w2. set (P := fun w => same_session W w /\ idmap w = idmap W /\
    scheduledRemove w = scheduledRemove W /\ (forall T id, has_doc W T id -> has_doc w T id)).
  assert (Hw1 : P w1).
  { apply (run_all_preserves P insert_one (insert_order W) W w1); [|done|by repeat split].
    intros b w3 w4 _ Hs ([Hh Hr] & Hi & Hrem & Hkeep).
    destruct (insert_one_ok _ _ _ Hs) as (eb & _ & [Hh' Hr'] & Hi' & _ & Hrem' & _ & Hkeep').
    repeat split; try congruence. intros T id Hd. by apply Hkeep', Hkeep. }
  assert (Hw2 : P w2).
  { apply (run_all_preserves P update_one (scheduledUpdate w1) w1 w2); [|done..].
    intros b w3 w4 _ Hs ([Hh Hr] & Hi & Hrem & Hkeep).
    destruct (update_one_ok _ _ _ Hs) as (eb & _ & [Hh' Hr'] & Hi' & Hrem' & _ & Hkeep').
    repeat split; try congruence. intros T id Hd. by apply Hkeep', Hkeep. }
  destruct Hw2 as (? & ? & ? & ?). done.
Qed.

(** After a flush that succeeds, an entity that was staged for removal
    has no document, and a lookup of its identifier is [NotFound]. *)
Lemma Flush_removes W w' a e meta :
  Flush W = (w', None) ->
  heap W !! a = Some e -> registry W !! etype e = Some meta -> a ∈ scheduledRemove W ->
  FindID (etype e) (ident e) w' = (w', Err NotFound).
Proof.
  intros Hflush Ha Hr Hin.
  destruct (Flush_phases _ _ Hflush) as (w2 & Hs2 & _ & Hrem2 & _ & Hrun).
  assert (HP : forall b w3 w4, b ∈ remove_order w2 -> remove_one b w3 = (w4, None) ->
            same_session W w3 -> same_session W w4).
  { intros b w3 w4 _ Hs [Hh Hr3].
    destruct (remove_one_ok _ _ _ Hs) as (eb & _ & [Hh' Hr'] & _). split; congruence. }
  assert (Hno : ~ has_doc w' (etype e) (ident e)).
  { apply (run_all_establishes (same_session W) (fun w => ~ has_doc w (etype e) (ident e))
             remove_one (remove_order w2) a w2 w' HP); try done.
    - intros w3 w4 Hs [Hh _]. apply (remove_one_removes a w3 w4 e Hs). by rewrite Hh.
    - intros b w3 w4 _ Hs _. by apply (remove_one_absent b).
    - apply order_by_complete; [done|by rewrite Hrem2]. }
  pose proof (run_all_preserves (same_session W) _ _ _ _ HP Hrun Hs2) as [_ Hr'].
  unfold FindID. rewrite Hr', Hr.
  destruct (find_id (docs w' (etype e)) (ident e)) as [d|] eqn:Ed; [|done].
  exfalso. apply Hno. by exists d.
Qed.

(** After a flush that succeeds, a document with no removal of its type
    and identifier pending is still in the store, and its entry in the
    identity map is as it was. *)
Lemma Flush_keeps W w' T id :
  Flush W = (w', None) -> has_doc W T id ->
  (forall c e_c, c ∈ scheduledRemove W -> heap W !! c = Some e_c ->
     (etype e_c, ident e_c) <> (T, id)) ->
  same_session W w' /\ has_doc w' T id /\ idmap w' !! (T, id) = idmap W !! (T, id).
Proof.
  intros Hflush Hd Hrm.
  destruct (Flush_phases _ _ Hflush) as (w2 & Hs2 & Hi2 & Hrem2 & Hkeep2 & Hrun).
  set (P := fun w => same_session W w /\ has_doc w T id /\
                     idmap w !! (T, id) = idmap W !! (T, id)).
  apply (run_all_preserves P remove_one (remove_order w2) w2 w'); [|done|].
  - intros b w3 w4 Hb Hs ([Hh Hr] & Hd3 & Hi).
    destruct (remove_one_ok _ _ _ Hs) as (eb & Heb & [Hh' Hr'] & Hi' & Hkeep).
    assert (Hne : (etype eb, ident eb) <> (T, id)).
    { apply (Hrm b); [|by rewrite <- Hh]. rewrite <- Hrem2. by eapply order_by_subset. }
    repeat split; try congruence.
    + by apply Hkeep.
    + rewrite Hi', lookup_delete_ne by done. done.
  - repeat split; [apply Hs2..|by apply Hkeep2|by rewrite Hi2].
Qed.

Lemma remove_reach_end w a x :
  remove_reach w a x -> valid w x.
Proof. induction 1; [by eexists _, _|done]. Qed.

(** [Remove], then a [Flush] that succeeds: every entity the removal
    reaches is [NotFound]. *)
Lemma Remove_Flush_NotFound w a x e_x w' :
  closed w -> remove_reach w a x -> heap w !! x = Some e_x ->
  Flush (Remove a w) = (w', None) ->
  FindID (etype e_x) (ident e_x) w' = (w', Err NotFound).
Proof.
  intros Hc Hreach Hx Hflush.
  destruct (remove_reach_end _ _ _ Hreach) as (e & meta & He & Hm).
  rewrite Hx in He. injection He as <-.
  pose proof (remove_go_memory (S (length (heap w))) a w) as G. fold (Remove a w) in G.
  apply (Flush_removes (Remove a w) w' x e_x meta Hflush).
  - by rewrite (sm_heap _ _ G).
  - by rewrite (sm_registry _ _ G).
  - apply Remove_exactly; [done|by right].
Qed.

(** ... and a document of any other identifier stays, and is found as
    before. *)
Lemma Remove_Flush_found w a T id meta r w' :
  registry w !! T = Some meta -> has_doc w T id -> idmap w !! (T, id) = Some r ->
  (forall x e_x, x ∈ scheduledRemove w \/ remove_reach w a x -> heap w !! x = Some e_x ->
     (etype e_x, ident e_x) <> (T, id)) ->
  Flush (Remove a w) = (w', None) ->
  FindID T id w' = (w', Ok r).
Proof.
  intros Hr Hd Hi Hother Hflush.
  pose proof (remove_go_memory (S (length (heap w))) a w) as G. fold (Remove a w) in G.
  destruct (Flush_keeps (Remove a w) w' T id Hflush) as ([Hh' Hr'] & Hd' & Hi').
  - unfold has_doc, docs. by rewrite (sm_store _ _ G).
  - intros c e_c Hc Hec. rewrite (sm_heap _ _ G) in Hec.
    apply (Hother c e_c); [|done]. by apply (remove_go_only _ a w c) in Hc.
  - apply (FindID_hit w' T id r meta); [|done|].
    + by rewrite Hr', (sm_registry _ _ G).
    + by rewrite Hi', (sm_idmap _ _ G).
Qed.

(** ** Remove cascades along the relationships with [remove] *)

(** C3. Removal goes along the owning relationships whose cascade has
    [remove], and along no other: [Remove] stages exactly the entities
    reached along them; after a [Flush] that succeeds, a lookup of a
    reached entity is [NotFound], and a document whose type and
    identifier no reached entity has is found as before. In the
    test-suite, [Posts] of [User] is [cascade:all] and [Role] is
    [cascade:Persist]: removing the user stages the user and the post,
    not the role; after the flush the user and the post are not found
    and the role is. *)
Theorem Remove_cascade :
  (forall meta e b,
     b ∈ cascade_targets remove meta e <->
     exists f k d, (f, k, d) ∈ relationships meta /\ owning d = true /\
       remove (cascade d) = true /\ references e f b) /\
  (forall w a x, closed w ->
     x ∈ scheduledRemove (Remove a w) <-> x ∈ scheduledRemove w \/ remove_reach w a x) /\
  (forall w a x e_x w', closed w -> remove_reach w a x -> heap w !! x = Some e_x ->
     Flush (Remove a w) = (w', None) ->
     FindID (etype e_x) (ident e_x) w' = (w', Err NotFound)) /\
  (forall w a T id meta r w',
     registry w !! T = Some meta -> has_doc w T id -> idmap w !! (T, id) = Some r ->
     (forall x e_x, x ∈ scheduledRemove w \/ remove_reach w a x -> heap w !! x = Some e_x ->
        (etype e_x, ident e_x) <> (T, id)) ->
     Flush (Remove a w) = (w', None) ->
     FindID T id w' = (w', Ok r)) /\
  snd persist_user = None /\
  relationships <$> registry (fst persist_user) !! "User" =
    Some [("Posts", "posts", mkRel Many "Post" None (mkCascade true true));
          ("Role", "role", mkRel One "Role" None (mkCascade true false))] /\
  scheduledRemove (Remove 0 (fst persist_user)) = [0; 1] /\
  snd (Flush (Remove 0 (fst persist_user))) = None /\
  remove_user = (Err NotFound, Err NotFound, Ok 2).
Proof.
  split; [intros meta e b; apply cascade_targets_spec|].
  split; [intros w a x; apply Remove_exactly|].
  split; [intros w a x e_x w'; apply Remove_Flush_NotFound|].
  split; [intros w a T id meta r w'; apply Remove_Flush_found|].
  split; [vm_compute; reflexivity|]. split; [vm_compute; reflexivity|].
  split; [vm_compute; reflexivity|]. split; vm_compute; reflexivity.
Qed.

Definition the_post : Entity :=
  entity "Post" 101 [("Title", SStr "First Post Title"); ("Body", SStr "First Post Body");
                     ("Created", SInt 1480000000)] [].

(** The theorem at [SubTestDocumentManager_Remove]: the post, reached
    from the user through [Posts], is not found after the flush; the
    role, which the removal does not reach, is found. *)
Lemma Remove_cascade_witness :
  FindID "Post" 101 (fst (Flush (Remove 0 (fst persist_user)))) =
    (fst (Flush (Remove 0 (fst persist_user))), Err NotFound) /\
  FindID "Role" 102 (fst (Flush (Remove 0 (fst persist_user)))) =
    (fst (Flush (Remove 0 (fst persist_user))), Ok 2).
Proof.
  assert (Hflush : Flush (Remove 0 (fst persist_user)) =
                   (fst (Flush (Remove 0 (fst persist_user))), None)).
  { apply paired. vm_compute; reflexivity. }
  assert (Hc : closed (fst persist_user)) by (apply closed_nil; vm_compute; reflexivity).
  assert (H0 : heap (fst persist_user) !! 0 = Some the_user) by (vm_compute; reflexivity).
  assert (H1 : heap (fst persist_user) !! 1 = Some the_post) by (vm_compute; reflexivity).
  assert (R0 : registry (fst persist_user) !! etype the_user = Some meta_User)
    by (vm_compute; reflexivity).
  assert (R1 : registry (fst persist_user) !! etype the_post = Some meta_Post)
    by (vm_compute; reflexivity).
  assert (R2 : registry (fst persist_user) !! "Role" = Some meta_Role)
    by (vm_compute; reflexivity).
  assert (T1 : 1 ∈ cascade_targets remove meta_User the_user) by (vm_compute; left).
  assert (Hreach : remove_reach (fst persist_user) 0 1).
  { apply (reach_step _ 0 the_user meta_User 1 1 H0 R0 T1).
    exact (reach_here _ 1 the_post meta_Post H1 R1). }
  assert (Hd : has_doc (fst persist_user) "Role" 102).
  { unfold has_doc. vm_compute. by eexists. }
  assert (Hi : idmap (fst persist_user) !! ("Role", 102%N) = Some 2)
    by (vm_compute; reflexivity).
  assert (Hst : scheduledRemove (Remove 0 (fst persist_user)) = [0; 1])
    by (vm_compute; reflexivity).
  destruct Remove_cascade as (_ & Hexact & Hgone & Hkept & _).
  assert (Hother : forall x e_x,
    x ∈ scheduledRemove (fst persist_user) \/ remove_reach (fst persist_user) 0 x ->
    heap (fst persist_user) !! x = Some e_x -> (etype e_x, ident e_x) <> ("Role", 102%N)).
  { intros x e_x Hx Hex. apply (Hexact _ 0 x Hc) in Hx. rewrite Hst in Hx.
    apply elem_of_cons in Hx as [->|Hx].
    - rewrite H0 in Hex. injection Hex as <-. discriminate.
    - apply list_elem_of_singleton in Hx as ->. rewrite H1 in Hex. injection Hex as <-.
      discriminate. }
  split.
  - exact (Hgone _ 0 1 the_post _ Hc Hreach H1 Hflush).
  - exact (Hkept _ 0 "Role" 102%N meta_Role 2 _ R2 Hd Hi Hother Hflush).
Defined.

(** ** A child that two documents reference *)


Definition meta_Article_all : TypeMeta :=
  mkMeta "Article" "ID" [("Title", "Title")]
    [("Author", "author", mkRel One "Author" None (mkCascade false false));
     ("Tags", "tags", mkRel Many "Tag" None (mkCascade true true))].
Definition meta_Tag : TypeMeta :=
  mkMeta "Tag" "ID" [("Name", "Name")]
    [("Articles", "articles", mkRel Many "Article" (Some "Tags") (mkCascade false false))].
Definition the_article : Entity :=
  entity "Article" 5 [("Title", SStr "MongoDB")]
         [("Author", RefOne (Some 0)); ("Tags", RefMany [2])].
Definition the_tag : Entity := entity "Tag" 4 [("Name", SStr "programming")] [].


(** ** The scalar fields, through the store *)

(** The document of the user of the test-suite reads back to the user's
    scalar fields, in whatever session it is written. *)
Example scalars_roundtrip_User w :
  scalars_of meta_User (serialize w meta_User the_user) = scalars the_user.
Proof.
  apply scalars_roundtrip.
  - apply (bool_decide_unpack _). vm_compute. reflexivity.
  - apply (bool_decide_unpack _). vm_compute. reflexivity.
  - intros f [v Hv]. unfold the_user, entity in Hv. cbn [scalars] in Hv.
    apply elem_of_list_to_map_2 in Hv.
    change (f ∈ fst <$> [("Name", SStr "John"); ("Email", SStr "john@example.com")]).
    apply list_elem_of_fmap. by exists (f, v).
Qed.

(** In a second session over the database of
    [TestDocumentManager_Persist], where nothing of the first session's
    memory is left, [FindID] hydrates the user from its document: the
    scalar fields are those of the user persisted, and the role and the
    post are resolved. *)
Example user_read_again :
  snd users_again = None /\
  heap (fst users_again) = [] /\
  snd user_read = Ok 0 /\
  (scalars <$> heap (fst user_read) !! 0) = Some (scalars the_user) /\
  field_of (fst user_read) 0 "Role" = Some (RefOne (Some 2)) /\
  field_of (fst user_read) 0 "Posts" = Some (RefMany [1]).
Proof. repeat split; vm_compute; reflexivity. Qed.

(** ** The document a flush leaves, and reading it back *)

Lemma find_id_app_l ds ds' id d :
  find_id ds id = Some d -> find_id (ds ++ ds') id = Some d.
Proof.
  unfold find_id. induction ds as [|x ds IH]; [discriminate|]. cbn.
  destruct (N.eqb (d_id x) id); [done|exact IH].
Qed.

Lemma find_id_app_r ds d id :
  find_id ds id = None -> d_id d = id -> find_id (ds ++ [d]) id = Some d.
Proof.
  unfold find_id. intros Hno Hid. induction ds as [|x ds IH]; cbn in *.
  - apply N.eqb_eq in Hid. by rewrite Hid.
  - destruct (N.eqb (d_id x) id); [discriminate|by apply IH].
Qed.

Lemma find_id_map_same ds id d' :
  d_id d' = id -> is_Some (find_id ds id) ->
  find_id (map (fun x => if N.eqb (d_id x) id then d' else x) ds) id = Some d'.
Proof.
  unfold find_id. intros Hid [d Hd]. induction ds as [|x ds IH]; [discriminate|]. cbn in *.
  destruct (N.eqb (d_id x) id) eqn:E.
  - apply N.eqb_eq in Hid. by rewrite Hid.
  - rewrite E. by apply IH.
Qed.

Lemma find_id_map_other ds id id' d' d :
  id' <> id -> d_id d' = id' -> find_id ds id = Some d ->
  find_id (map (fun x => if N.eqb (d_id x) id' then d' else x) ds) id = Some d.
Proof.
  unfold find_id. intros Hne Hid'. induction ds as [|x ds IH]; [discriminate|]. cbn.
  destruct (N.eqb (d_id x) id) eqn:E.
  - intros [= ->]. apply N.eqb_eq in E.
    assert (E' : N.eqb (d_id d) id' = false) by (apply N.eqb_neq; congruence).
    rewrite E'. apply N.eqb_eq in E. by rewrite E.
  - intros Hd. destruct (N.eqb (d_id x) id') eqn:E'.
    + assert (E2 : N.eqb (d_id d') id = false) by (apply N.eqb_neq; congruence).
      rewrite E2. by apply IH.
    + rewrite E. by apply IH.
Qed.

Lemma find_id_filter_other ds id id' d :
  id' <> id -> find_id ds id = Some d ->
  find_id (List.filter (fun x => negb (N.eqb (d_id x) id')) ds) id = Some d.
Proof.
  unfold find_id. intros Hne. induction ds as [|x ds IH]; [discriminate|]. cbn.
  destruct (N.eqb (d_id x) id) eqn:E.
  - intros [= ->]. apply N.eqb_eq in E.
    assert (E' : N.eqb (d_id d) id' = false) by (apply N.eqb_neq; congruence).
    rewrite E'. cbn. apply N.eqb_eq in E. by rewrite E.
  - intros Hd. destruct (N.eqb (d_id x) id'); cbn; [by apply IH|]. rewrite E. by apply IH.
Qed.

(** A document refers to other entities by their identifiers: it depends
    on the session through the entities only. *)
Lemma serialize_heap w1 w2 meta e :
  heap w1 = heap w2 -> serialize w1 meta e = serialize w2 meta e.
Proof. intros H. unfold serialize, ident_of. by rewrite H. Qed.

Lemma insert_one_doc a w w' e meta :
  insert_one a w = (w', None) -> heap w !! a = Some e -> registry w !! etype e = Some meta ->
  find_id (docs w' (etype e)) (ident e) = Some (serialize w meta e).
Proof.
  unfold insert_one. intros H Ha Hr. rewrite Ha, Hr in H.
  destruct (driver_insert _ _ w) as [w1 [err|]] eqn:E; [discriminate|].
  pose proof E as E'. unfold driver_insert in E'.
  destruct (find_id (docs w (etype e)) (d_id (serialize w meta e))) eqn:Ef; [discriminate|].
  apply driver_insert_ok in E as ->. injection H as <-.
  change (find_id (docs (set_store (<[etype e := docs w (etype e) ++ [serialize w meta e]]>
            (store w)) w) (etype e)) (ident e) = Some (serialize w meta e)).
  rewrite docs_set_store, decide_True by done. by apply find_id_app_r.
Qed.

Lemma insert_one_keeps_doc b w w' T id d :
  insert_one b w = (w', None) -> find_id (docs w T) id = Some d ->
  find_id (docs w' T) id = Some d.
Proof.
  unfold insert_one. destruct (heap w !! b) as [e|]; [|discriminate].
  destruct (registry w !! etype e) as [meta|]; [|discriminate].
  destruct (driver_insert _ _ w) as [w1 [err|]] eqn:E; [discriminate|].
  apply driver_insert_ok in E as ->. intros [= <-] Hd.
  change (find_id (docs (set_store (<[etype e := docs w (etype e) ++ [serialize w meta e]]>
            (store w)) w) T) id = Some d).
  rewrite docs_set_store. destruct (decide (etype e = T)) as [<-|]; [|done].
  by apply find_id_app_l.
Qed.

Lemma update_one_doc a w w' e meta :
  update_one a w = (w', None) -> heap w !! a = Some e -> registry w !! etype e = Some meta ->
  find_id (docs w' (etype e)) (ident e) = Some (serialize w meta e).
Proof.
  unfold update_one. intros H Ha Hr. rewrite Ha, Hr in H.
  destruct (driver_update _ _ w) as [w1 [err|]] eqn:E; [discriminate|].
  apply driver_update_ok in E as [Hhas ->]. injection H as <-.
  change (find_id (docs (set_store (<[etype e :=
    map (fun d' => if N.eqb (d_id d') (d_id (serialize w meta e)) then serialize w meta e else d')
        (docs w (etype e))]> (store w)) w) (etype e)) (ident e) = Some (serialize w meta e)).
  rewrite docs_set_store, decide_True by done. by apply find_id_map_same.
Qed.

Lemma update_one_keeps_doc b w w' e_b T id d :
  update_one b w = (w', None) -> heap w !! b = Some e_b ->
  (etype e_b, ident e_b) <> (T, id) ->
  find_id (docs w T) id = Some d -> find_id (docs w' T) id = Some d.
Proof.
  unfold update_one. intros H Hb Hne Hd. rewrite Hb in H.
  destruct (registry w !! etype e_b) as [meta|]; [|discriminate].
  destruct (driver_update _ _ w) as [w1 [err|]] eqn:E; [discriminate|].
  apply driver_update_ok in E as [Hhas ->]. injection H as <-.
  change (find_id (docs (set_store (<[etype e_b :=
    map (fun d' => if N.eqb (d_id d') (d_id (serialize w meta e_b)) then serialize w meta e_b else d')
        (docs w (etype e_b))]> (store w)) w) T) id = Some d).
  rewrite docs_set_store. destruct (decide (etype e_b = T)) as [<-|]; [|done].
  apply find_id_map_other; [|done..]. rewrite serialize_id. congruence.
Qed.

Lemma remove_one_keeps_doc b w w' e_b T id d :
  remove_one b w = (w', None) -> heap w !! b = Some e_b ->
  (etype e_b, ident e_b) <> (T, id) ->
  find_id (docs w T) id = Some d -> find_id (docs w' T) id = Some d.
Proof.
  unfold remove_one. intros H Hb Hne Hd. rewrite Hb in H.
  destruct (driver_remove _ _ w) as [w1 [err|]] eqn:E; [discriminate|].
  apply driver_remove_ok in E as ->. injection H as <-.
  change (find_id (docs (set_store (<[etype e_b :=
    List.filter (fun d => negb (N.eqb (d_id d) (ident e_b))) (docs w (etype e_b))]> (store w)) w)
    T) id = Some d).
  rewrite docs_set_store. destruct (decide (etype e_b = T)) as [<-|]; [|done].
  apply find_id_filter_other; [congruence|done].
Qed.

(** After a flush that succeeds, the store holds, for an entity it had to
    insert or update, the document of that entity — unless another
    update or a removal of its type and identifier was pending. *)
Lemma Flush_stores W w' a e meta :
  Flush W = (w', None) ->
  heap W !! a = Some e -> registry W !! etype e = Some meta ->
  a ∈ scheduledInsert W \/ a ∈ scheduledUpdate W ->
  (forall c e_c, c ∈ scheduledUpdate W -> c <> a -> heap W !! c = Some e_c ->
     (etype e_c, ident e_c) <> (etype e, ident e)) ->
  (forall c e_c, c ∈ scheduledRemove W -> heap W !! c = Some e_c ->
     (etype e_c, ident e_c) <> (etype e, ident e)) ->
  find_id (docs w' (etype e)) (ident e) = Some (serialize W meta e).
Proof.
  unfold Flush. intros Hflush Ha Hr Hstaged Hup Hrm.
  destruct (run_all insert_one (insert_order W) W) as [w1 [err|]] eqn:E1; [discriminate|].
  destruct (run_all update_one (scheduledUpdate w1) w1) as [w2 [err|]] eqn:E2; [discriminate|].
  set (Q := fun w => find_id (docs w (etype e)) (ident e) = Some (serialize W meta e)).
  (* inserts *)
  set (P1 := fun w => same_session W w /\ scheduledUpdate w = scheduledUpdate W /\
                      scheduledRemove w = scheduledRemove W).
  assert (HP1 : forall b w3 w4, b ∈ insert_order W -> insert_one b w3 = (w4, None) ->
                  P1 w3 -> P1 w4).
  { intros b w3 w4 _ Hs ([Hh Hr3] & Hu & Hrem).
    destruct (insert_one_ok _ _ _ Hs) as (eb & _ & [Hh' Hr'] & _ & Hu' & Hrem' & _).
    repeat split; congruence. }
  assert (Hw1 : P1 w1) by (by apply (run_all_preserves P1 _ _ _ _ HP1 E1)).
  assert (HQ1 : a ∈ scheduledInsert W -> Q w1).
  { intros Hin. apply (run_all_establishes P1 Q _ _ a W w1 HP1); try done.
    - intros w3 w4 Hs ([Hh Hr3] & _). unfold Q.
      rewrite (serialize_heap W w3 meta e) by done.
      apply (insert_one_doc a w3 w4 e meta Hs); congruence.
    - intros b w3 w4 _ Hs _. by apply (insert_one_keeps_doc b).
    - apply order_by_complete; [done|exact Hin]. }
  destruct Hw1 as ([Hh1 Hr1] & Hu1 & Hrem1).
  (* updates *)
  set (P2 := fun w => same_session W w /\ scheduledRemove w = scheduledRemove W).
  assert (HP2 : forall b w3 w4, b ∈ scheduledUpdate w1 -> update_one b w3 = (w4, None) ->
                  P2 w3 -> P2 w4).
  { intros b w3 w4 _ Hs ([Hh Hr3] & Hrem).
    destruct (update_one_ok _ _ _ Hs) as (eb & _ & [Hh' Hr'] & _ & Hrem' & _).
    repeat split; congruence. }
  assert (Hw1' : P2 w1) by (by repeat split).
  assert (Hw2 : P2 w2) by (by apply (run_all_preserves P2 _ _ _ _ HP2 E2)).
  assert (Hone : forall w3 w4, update_one a w3 = (w4, None) -> P2 w3 -> Q w4).
  { intros w3 w4 Hs ([Hh Hr3] & _). unfold Q.
    rewrite (serialize_heap W w3 meta e) by done.
    apply (update_one_doc a w3 w4 e meta Hs); congruence. }
  assert (Hkeep : forall b w3 w4, b ∈ scheduledUpdate w1 -> update_one b w3 = (w4, None) ->
                    P2 w3 -> Q w3 -> Q w4).
  { intros b w3 w4 Hb Hs HP HQ. destruct (decide (b = a)) as [->|Hne]; [by eapply Hone|].
    destruct (update_one_ok _ _ _ Hs) as (eb & Heb & _).
    apply (update_one_keeps_doc b w3 w4 eb); [done..| |done].
    destruct HP as ([Hh _] & _). apply (Hup b); [by rewrite <- Hu1|done|by rewrite <- Hh]. }
  assert (HQ2 : Q w2).
  { destruct Hstaged as [Hin|Hin].
    - apply (run_all_preserves (fun w => P2 w /\ Q w) update_one (scheduledUpdate w1) w1 w2);
        [|done|by split; [|apply HQ1]].
      intros b w3 w4 Hb Hs [HP HQ]. split; [by eapply HP2|by eapply Hkeep].
    - apply (run_all_establishes P2 Q _ _ a w1 w2 HP2); try done. by rewrite Hu1. }
  destruct Hw2 as ([Hh2 Hr2] & Hrem2).
  (* removes *)
  apply (run_all_preserves (fun w => same_session W w /\ Q w) remove_one (remove_order w2) w2 w');
    [|done|by split].
  intros b w3 w4 Hb Hs [[Hh Hr3] HQ].
  destruct (remove_one_ok _ _ _ Hs) as (eb & Heb & [Hh' Hr'] & _).
  split; [split; congruence|].
  apply (remove_one_keeps_doc b w3 w4 eb); [done..| |done].
  apply (Hrm b); [|by rewrite <- Hh]. rewrite <- Hrem2. by eapply order_by_subset.
Qed.

(** A lookup by identifier in a session that has not met the document:
    for a type without relationships, the entity is made of the
    document's scalar fields. *)
Lemma FindID_fresh w T id meta doc :
  registry w !! T = Some meta -> relationships meta = [] ->
  find_id (docs w T) id = Some doc -> idmap w !! (T, id) = None ->
  exists w', FindID T id w = (w', Ok (length (heap w))) /\
    heap w' !! length (heap w) = Some (mkEntity T id (scalars_of meta doc) ∅).
Proof.
  intros Hr Hrel Hd Hi. unfold FindID. rewrite Hr, Hd.
  apply find_id_Some in Hd as [_ Hid]. unfold fuel_of. rewrite hydrate_unfold.
  rewrite Hid, Hi, Hr, Hrel. cbn [mapM]. unfold bind, fresh_entity, ret. cbn.
  eexists. split; [reflexivity|]. cbn. rewrite Hid. apply list_lookup_middle. done.
Qed.

(** [Persist], a [Flush] that succeeds, and a lookup in another session
    over the same store, for an entity of a type without relationships:
    the entity read back has the type, the identifier and the scalar
    fields of the entity persisted. *)
Lemma Persist_Flush_read_back w a e meta w' w2 :
  heap w !! a = Some e -> registry w !! etype e = Some meta ->
  relationships meta = [] ->
  NoDup (keys meta) -> NoDup (fst <$> scalarFields meta) ->
  (forall f, is_Some (scalars e !! f) -> f ∈ fst <$> scalarFields meta) ->
  (idmap w !! (etype e, ident e) = Some a \/
   (idmap w !! (etype e, ident e) = None /\ staged w a = false)) ->
  (forall c e_c, c ∈ scheduledRemove w -> heap w !! c = Some e_c ->
     (etype e_c, ident e_c) <> (etype e, ident e)) ->
  (forall c e_c, c ∈ scheduledUpdate (Persist a w) -> c <> a ->
     heap (Persist a w) !! c = Some e_c ->
     (etype e_c, ident e_c) <> (etype e, ident_of (Persist a w) a)) ->
  Flush (Persist a w) = (w', None) ->
  store w2 = store w' -> registry w2 !! etype e = Some meta ->
  idmap w2 !! (etype e, ident_of w' a) = None ->
  exists w3 r e_r, FindID (etype e) (ident_of w' a) w2 = (w3, Ok r) /\
    heap w3 !! r = Some e_r /\
    etype e_r = etype e /\ ident e_r = ident_of w' a /\ scalars e_r = scalars e.
Proof.
  intros Ha Hr Hrel Hnd Hnames Hdom Hlife Hrm Hup Hflush Hstore Hr2 Hi2.
  destruct (Persist_persisted w a e meta Ha Hr Hlife Hrm) as [e' Hp].
  destruct (persisted_found _ _ _ _ _ _ _ Hp Hr Hflush) as [Hh' _].
  destruct Hp as [Hh Het Hsc Hrf Hid Hst Hi Hreg Hrm'].
  assert (Hidw' : ident_of w' a = ident e') by (unfold ident_of; by rewrite Hh').
  assert (HidW : ident_of (Persist a w) a = ident e') by (unfold ident_of; by rewrite Hh).
  rewrite Hidw' in *. rewrite HidW in Hup.
  assert (Hdoc : find_id (docs w' (etype e')) (ident e') = Some (serialize (Persist a w) meta e')).
  { apply (Flush_stores (Persist a w) w' a e' meta Hflush Hh); [|done| |done].
    - by rewrite Hreg, Het.
    - intros c e_c Hc Hne Hec. rewrite Het. by apply (Hup c e_c). }
  rewrite Het in Hdoc.
  destruct (FindID_fresh w2 (etype e) (ident e') meta (serialize (Persist a w) meta e'))
    as (w3 & Hfind & Hnew); [done..|by unfold docs; rewrite Hstore|done|].
  eexists w3, _, _. split; [exact Hfind|]. split; [exact Hnew|]. cbn.
  split; [done|]. split; [done|].
  rewrite scalars_roundtrip; [done..|]. intros f. rewrite Hsc. apply Hdom.
Qed.

(** The lemma at the role of the test-suite, persisted alone and read in
    a second session. *)
Example role_read_back :
  exists w3 r e_r,
    FindID "Role" 101
      (fst (reopen [("Role", Role)] (fst (Flush (Persist 2 (fst register_users)))))) =
      (w3, Ok r) /\
    heap w3 !! r = Some e_r /\ scalars e_r = scalars the_role.
Proof.
  assert (Hflush : Flush (Persist 2 (fst register_users)) =
                   (fst (Flush (Persist 2 (fst register_users))), None)).
  { apply paired. vm_compute; reflexivity. }
  assert (H1 : heap (fst register_users) !! 2 = Some the_role) by (vm_compute; reflexivity).
  assert (H2 : registry (fst register_users) !! etype the_role = Some meta_Role)
    by (vm_compute; reflexivity).
  assert (H3 : NoDup (keys meta_Role)) by (apply (bool_decide_unpack _); vm_compute; reflexivity).
  assert (H4 : NoDup (fst <$> scalarFields meta_Role))
    by (apply (bool_decide_unpack _); vm_compute; reflexivity).
  assert (H5 : forall f, is_Some (scalars the_role !! f) -> f ∈ fst <$> scalarFields meta_Role).
  { intros f [v Hv]. unfold the_role, entity in Hv. cbn [scalars] in Hv.
    apply elem_of_list_to_map_2, list_elem_of_singleton in Hv. injection Hv as -> _. by left. }
  assert (H6 : idmap (fst register_users) !! (etype the_role, ident the_role) = None /\
               staged (fst register_users) 2 = false) by (split; vm_compute; reflexivity).
  assert (H7 : scheduledRemove (fst register_users) = []) by (vm_compute; reflexivity).
  assert (H8 : scheduledUpdate (Persist 2 (fst register_users)) = [])
    by (vm_compute; reflexivity).
  assert (H9 : ident_of (fst (Flush (Persist 2 (fst register_users)))) 2 = 101%N)
    by (vm_compute; reflexivity).
  assert (Hup : forall c e_c, c ∈ scheduledUpdate (Persist 2 (fst register_users)) -> c <> 2 ->
     heap (Persist 2 (fst register_users)) !! c = Some e_c ->
     (etype e_c, ident e_c) <> (etype the_role, ident_of (Persist 2 (fst register_users)) 2)).
  { intros c e_c Hc. rewrite H8 in Hc. apply elem_of_nil in Hc. destruct Hc. }
  assert (Hs : store (fst (reopen [("Role", Role)]
                             (fst (Flush (Persist 2 (fst register_users)))))) =
               store (fst (Flush (Persist 2 (fst register_users)))))
    by (vm_compute; reflexivity).
  assert (Hr2 : registry (fst (reopen [("Role", Role)]
                                 (fst (Flush (Persist 2 (fst register_users))))))
                  !! etype the_role = Some meta_Role) by (vm_compute; reflexivity).
  assert (Hi : idmap (fst (reopen [("Role", Role)]
                             (fst (Flush (Persist 2 (fst register_users))))))
                 !! (etype the_role, 101%N) = None) by (vm_compute; reflexivity).
  pose proof (Persist_Flush_read_back (fst register_users) 2 the_role meta_Role
                (fst (Flush (Persist 2 (fst register_users))))
                (fst (reopen [("Role", Role)] (fst (Flush (Persist 2 (fst register_users)))))))
    as H.
  specialize (H H1 H2 eq_refl H3 H4 H5 (or_intror H6) (no_removal_pending _ _ H7)
                Hup Hflush Hs Hr2).
  rewrite H9 in H. specialize (H Hi).
  destruct H as (w3 & r & e_r & Hfind & Hr & _ & _ & Hsc).
  exists w3, r, e_r. split; [exact Hfind|]. split; [exact Hr|exact Hsc].
Qed.

End mongo_spec.
